(** * Site layout optimizer: a shallow embedding of the backend services

    The development follows the Python sources under [backend/src]:

    - [utils/cache.py]                   ([Cache])
    - [middleware/rate_limit.py]         ([RateLimit])
    - [handlers/optimize.py]             ([Dict], [Optimize])
    - [services/cutfill_calculator.py]   ([CutFill])
    - [services/terrain_analyzer.py]     ([Terrain])
    - [services/asset_placer.py]         ([Candidates], [Placer])
    - [services/road_generator.py]       ([Roads])

    The definitions come first; the facts about a module [M] are in the
    modules [MFacts] and [MLaws] in the second half of the file.

    Conventions.  Python dictionaries whose order is irrelevant are stdpp
    [gmap]s; dictionaries whose insertion order is observed are association
    lists.  Wall-clock instants ([datetime.now()]) are integers counting
    microseconds, the resolution of [datetime].  Python floats are idealised
    as rationals: [Q] compared with [Qeq], and canonical rationals [Qc]
    where floats are dictionary keys.  A raised exception is an explicit
    error value; a loop that is not bounded by its own counter runs on
    fuel.  Calls into Shapely (buffer, contains, bounds, ...) are Section
    variables: the theorems hold for every implementation of the geometry
    kernel.  [print] calls are left out. *)

From stdpp Require Import gmap strings list fin_maps sorting.
From Stdlib Require Import QArith Qabs Qround Qcanon Lqa.

#[local] Open Scope Z_scope.

(** Python values as far as the caches look at them: [None] or an opaque
    payload. *)
Inductive pyobj : Type :=
  | PyNone
  | PyInt (z : Z)
  | PyStr (s : string).

#[global] Instance pyobj_eq_dec : EqDecision pyobj.
Proof. solve_decision. Defined.

Definition is_none (v : pyobj) : bool :=
  match v with PyNone => true | _ => false end.

(** [timedelta(seconds=s)] in microseconds. *)
Definition timedelta_seconds (s : Z) : Z := s * 1000000.

(* ===================================================================== *)
(** * utils/cache.py *)
(* ===================================================================== *)

Module Cache.

Record entry : Type := Entry {
  value : pyobj;
  expires_at : Z;
  created_at : Z
}.

Definition CACHE_TTL_AI : Z := 3600.
Definition CACHE_TTL_REGULATORY : Z := 86400.
Definition CACHE_TTL_TERRAIN : Z := 86400.

(** [get_cached(key)] executed at instant [now] on the store [c]: the
    returned object and the store afterwards. *)
Definition get_cached (now : Z) (key : string) (c : gmap string entry)
  : pyobj * gmap string entry :=
  match c !! key with
  | Some e =>
      if bool_decide (now < expires_at e) then (value e, c)
      else (PyNone, delete key c)
  | None => (PyNone, c)
  end.

(** [set_cached(key, value, ttl)]; both clock reads of the body are taken
    at the instant [now]. *)
Definition set_cached (now : Z) (key : string) (v : pyobj) (ttl : Z)
    (c : gmap string entry) : gmap string entry :=
  <[key := Entry v (now + timedelta_seconds ttl) now]> c.

(** [clear_cache(prefix)]: an absent or empty prefix clears everything. *)
Definition clear_cache (prefix : option string) (c : gmap string entry)
  : gmap string entry :=
  match prefix with
  | Some p =>
      if String.eqb p "" then ∅
      else filter (λ kv, String.prefix p kv.1 = false) c
  | None => ∅
  end.

(** [get_cache_stats()]: total, expired and active entries; the clock
    reads of the count are taken at the instant [now]. *)
Definition get_cache_stats (now : Z) (c : gmap string entry) : nat * nat * nat :=
  let total_entries := size c in
  let expired_entries := size (filter (λ kv, expires_at kv.2 ≤ now) c) in
  (total_entries, expired_entries, (total_entries - expired_entries)%nat).

(** The [cached] decorator.  The wrapped function is a Section variable;
    every execution of its body is recorded in [calls], so that
    re-execution is observable. *)
Section Decorator.
Context {Args : Type}.
Variable generate_cache_key : string → Args → string.
Variable func : Args → pyobj.
Variable func_name : string.
Variable ttl : Z.
Variable key_prefix : string.

Record world : Type := World {
  store : gmap string entry;
  calls : list Args
}.

Definition cache_key (args : Args) : string :=
  generate_cache_key (key_prefix +:+ ":" +:+ func_name) args.

Definition wrapper (now : Z) (args : Args) (w : world) : pyobj * world :=
  let cache_key := cache_key args in
  let '(cached_value, c1) := get_cached now cache_key (store w) in
  if negb (is_none cached_value) then (cached_value, World c1 (calls w))
  else
    let result := func args in
    (result, World (set_cached now cache_key result ttl c1) (args :: calls w)).

(** Successive calls with the same arguments, one per listed instant. *)
Fixpoint call_many (nows : list Z) (args : Args) (w : world) : list pyobj * world :=
  match nows with
  | [] => ([], w)
  | now :: rest =>
      let '(r, w1) := wrapper now args w in
      let '(rs, w2) := call_many rest args w1 in
      (r :: rs, w2)
  end.

(** The store offers nothing but [None] under the key of [args]. *)
Definition only_none (args : Args) (w : world) : Prop :=
  ∀ e, store w !! cache_key args = Some e → value e = PyNone.

End Decorator.

Arguments world : clear implicits.

End Cache.

(* ===================================================================== *)
(** * middleware/rate_limit.py *)
(* ===================================================================== *)

Module RateLimit.

Record limit : Type := Limit {
  max_requests : nat;
  window_seconds : Z
}.

(** The table, in its insertion order. *)
Definition RATE_LIMITS : list (string * limit) :=
  [ ("/optimize", Limit 10 60);
    ("/analyze", Limit 20 60);
    ("/generate-roads", Limit 20 60);
    ("/upload", Limit 5 60) ].

(** [endpoint in path] *)
Definition str_in (endpoint path : string) : bool :=
  match String.index 0 endpoint path with
  | Some _ => true
  | None => false
  end.

(** The [for endpoint, config in RATE_LIMITS.items()] loop with its
    [break]: the first rule whose endpoint occurs in the path. *)
Definition limit_config (path : string) : option limit :=
  snd <$> List.find (λ rule, str_in rule.1 path) RATE_LIMITS.

Record request : Type := Request {
  url_path : string;
  client_host : option string
}.

#[global] Instance request_eq_dec : EqDecision request.
Proof. solve_decision. Defined.

Record entry : Type := Entry {
  requests : list Z;
  window_start : Z
}.

Definition client_ip (r : request) : string := default "unknown" (client_host r).

Definition rate_key (r : request) : string := client_ip r +:+ ":" +:+ url_path r.

(** [check_rate_limit(request)] executed at instant [now]. *)
Definition check_rate_limit (now : Z) (r : request) (st : gmap string entry)
  : bool * gmap string entry :=
  match limit_config (url_path r) with
  | None => (true, st)
  | Some cfg =>
      let key := rate_key r in
      let entry := default (Entry [] now) (st !! key) in
      let window_start := now - timedelta_seconds (window_seconds cfg) in
      let reqs := filter (λ req_time, window_start < req_time) (requests entry) in
      if bool_decide (max_requests cfg ≤ length reqs)%nat
      then (false, <[key := Entry reqs (RateLimit.window_start entry)]> st)
      else (true, <[key := Entry (reqs ++ [now]) (RateLimit.window_start entry)]> st)
  end.

(** The middleware of main.py: the status code the limiter decides. *)
Definition rate_limit_middleware (now : Z) (r : request) (st : gmap string entry)
    (call_next : request → nat) : nat * gmap string entry :=
  let '(ok, st') := check_rate_limit now r st in
  if ok then (call_next r, st') else (429%nat, st').

(** A run of the limiter over timestamped requests: the verdicts. *)
Fixpoint run (calls : list (Z * request)) (st : gmap string entry)
  : list bool * gmap string entry :=
  match calls with
  | [] => ([], st)
  | (now, r) :: rest =>
      let '(ok, st1) := check_rate_limit now r st in
      let '(oks, st2) := run rest st1 in
      (ok :: oks, st2)
  end.

(** The instants at which a call of [r0] was let through during a run. *)
Fixpoint admitted (r0 : request) (calls : list (Z * request)) (st : gmap string entry)
  : list Z :=
  match calls with
  | [] => []
  | (now, r) :: rest =>
      let '(ok, st1) := check_rate_limit now r st in
      (if ok && bool_decide (r = r0) then [now] else []) ++ admitted r0 rest st1
  end.

(** The timestamps falling in the interval [[lo, hi]]. *)
Definition in_window (lo hi : Z) (ts : list Z) : list Z :=
  filter (λ t, lo ≤ t ∧ t ≤ hi) ts.

(** What is stored for a key, as the limiter reads it. *)
Definition stored (key : string) (st : gmap string entry) : list Z :=
  requests (default (Entry [] 0) (st !! key)).

(** The pruning step. *)
Definition prune (now window : Z) (ts : list Z) : list Z :=
  filter (λ req_time, now - timedelta_seconds window < req_time) ts.

(** The dictionary returned by [get_rate_limit_info]; a key that is not
    set is [None]. *)
Record info : Type := Info {
  limited : bool;
  remaining : option Z;
  info_limit : option nat;
  reset_in_seconds : option Z
}.

(** [get_rate_limit_info(request)] executed at instant [now]: an entry
    that exists is pruned in place. *)
Definition get_rate_limit_info (now : Z) (r : request) (st : gmap string entry)
  : info * gmap string entry :=
  let key := rate_key r in
  match limit_config (url_path r) with
  | None => (Info false None None None, st)
  | Some cfg =>
      match st !! key with
      | None =>
          (Info false (Some (Z.of_nat (max_requests cfg))) (Some (max_requests cfg)) None,
           st)
      | Some entry =>
          let window_start := now - timedelta_seconds (window_seconds cfg) in
          let reqs := filter (λ req_time, window_start < req_time) (requests entry) in
          let remaining := Z.of_nat (max_requests cfg) - Z.of_nat (length reqs) in
          (Info (bool_decide (remaining ≤ 0)) (Some (Z.max 0 remaining))
                (Some (max_requests cfg)) (Some (window_seconds cfg)),
           <[key := Entry reqs (RateLimit.window_start entry)]> st)
      end
  end.

End RateLimit.

(* ===================================================================== *)
(** * handlers/optimize.py: request deduplication *)
(* ===================================================================== *)

(** A Python [dict] whose insertion order is observed. *)
Module Dict.
Section Dict.
Context {V : Type}.

Definition t : Type := list (string * V).

Fixpoint mem (k : string) (d : list (string * V)) : bool :=
  match d with
  | [] => false
  | (k', _) :: d' => if String.eqb k k' then true else mem k d'
  end.

Fixpoint get (k : string) (d : list (string * V)) : option V :=
  match d with
  | [] => None
  | (k', v) :: d' => if String.eqb k k' then Some v else get k d'
  end.

(** [d[k] = v]: an existing key keeps its position, a new key goes last. *)
Fixpoint set (k : string) (v : V) (d : list (string * V)) : list (string * V) :=
  match d with
  | [] => [(k, v)]
  | (k', v') :: d' =>
      if String.eqb k k' then (k, v) :: d' else (k', v') :: set k v d'
  end.

(** [del d[k]] for a key that is present. *)
Fixpoint del (k : string) (d : list (string * V)) : list (string * V) :=
  match d with
  | [] => []
  | (k', v') :: d' => if String.eqb k k' then d' else (k', v') :: del k d'
  end.

(** [next(iter(d))] *)
Definition first_key (d : list (string * V)) : option string :=
  match d with
  | [] => None
  | (k, _) :: _ => Some k
  end.

Definition keys (d : list (string * V)) : list string := d.*1.

End Dict.
End Dict.

Module Optimize.
Section Handler.
Context {Req Resp : Type}.

(** [_get_request_hash]: SHA-256 of the canonical JSON, 16 hex digits. *)
Variable _get_request_hash : Req → string.

(** The body of the [try] block up to the construction of [result]:
    [None] when it raises. *)
Variable process : Req → option Resp.

Record state : Type := State {
  _pending_requests : gset string;
  _request_results : list (string * Resp)
}.

Inductive http : Type :=
  | Http200 (body : Resp)
  | Http202 (request_id : string)
  | Http500.

(** First [with _request_lock] block: replay, 202, or mark as pending. *)
Definition begin_request (request_hash : string) (st : state)
  : option http * state :=
  match Dict.get request_hash (_request_results st) with
  | Some cached => (Some (Http200 cached), st)
  | None =>
      if bool_decide (request_hash ∈ _pending_requests st)
      then (Some (Http202 request_hash), st)
      else (None, State ({[request_hash]} ∪ _pending_requests st) (_request_results st))
  end.

(** [_request_results[request_hash] = result] followed by the clean-up of
    old results. *)
Definition cache_result (request_hash : string) (result : Resp)
    (results : list (string * Resp)) : list (string * Resp) :=
  let results := Dict.set request_hash result results in
  if bool_decide (10 < length results)%nat then
    match Dict.first_key results with
    | Some oldest_key => Dict.del oldest_key results
    | None => results
    end
  else results.

(** Second [with _request_lock] block, on success. *)
Definition finish_success (request_hash : string) (result : Resp) (st : state)
  : state :=
  State (_pending_requests st ∖ {[request_hash]})
        (cache_result request_hash result (_request_results st)).

(** The [except] branch. *)
Definition finish_error (request_hash : string) (st : state) : state :=
  State (_pending_requests st ∖ {[request_hash]}) (_request_results st).

(** The handler; it has no suspension point, so one call is one step. *)
Definition optimize_layout (request : Req) (st : state) : http * state :=
  let request_hash := _get_request_hash request in
  match begin_request request_hash st with
  | (Some early, st1) => (early, st1)
  | (None, st1) =>
      match process request with
      | Some result => (Http200 result, finish_success request_hash result st1)
      | None => (Http500, finish_error request_hash st1)
      end
  end.

Definition initial : state := State ∅ [].

(** The lock-guarded blocks as atomic steps, for arbitrary interleavings
    of requests in flight. *)
Inductive step : state → state → Prop :=
  | step_begin h st : step st (begin_request h st).2
  | step_success h result st : step st (finish_success h result st)
  | step_error h st : step st (finish_error h st).

Fixpoint serve (requests : list Req) (st : state) : list http * state :=
  match requests with
  | [] => ([], st)
  | r :: rest =>
      let '(a, st1) := optimize_layout r st in
      let '(answers, st2) := serve rest st1 in
      (a :: answers, st2)
  end.

End Handler.
End Optimize.

(* ===================================================================== *)
(** * Python numerics and numpy rasters *)
(* ===================================================================== *)

Module Py.

(** [a < b] on floats. *)
Definition ltb (a b : Q) : bool := negb (Qle_bool b a).

(** [a <= b] on floats. *)
Definition leb (a b : Q) : bool := Qle_bool a b.

(** [a / b]: division by zero raises [ZeroDivisionError]. *)
Definition div (a b : Q) : option Q :=
  if Qeq_bool b 0 then None else Some (a / b)%Q.

(** [int(q)]: truncation towards zero. *)
Definition int (q : Q) : Z := Z.quot (Qnum q) (Z.pos (Qden q)).

(** Truth value of a number. *)
Definition truthy (q : Q) : bool := negb (Qeq_bool q 0).

(** [range(a, b)] *)
Definition range (a b : Z) : list Z :=
  (λ k, a + Z.of_nat k) <$> seq 0 (Z.to_nat (b - a)).

(** A [for] loop whose body updates a state and may raise. *)
Fixpoint for_each {A S : Type} (xs : list A) (body : A → S → option S) (s : S)
  : option S :=
  match xs with
  | [] => Some s
  | x :: rest => s' ← body x s; for_each rest body s'
  end.

Definition FEET_TO_DEGREES : Q := 1 # 364000.

End Py.

(** Two-dimensional numpy arrays, row by row. *)
Module Raster.

Definition t : Type := list (list Q).

Definition shape (r : list (list Q)) : nat * nat :=
  (length r, match r with [] => O | row :: _ => length row end).

Definition rectangular (r : list (list Q)) : Prop :=
  Forall (λ row, length row = (shape r).2) r.

(** [np.zeros(shape)] *)
Definition zeros (shape : nat * nat) : list (list Q) :=
  replicate shape.1 (replicate shape.2 0%Q).

(** [a.fill(v)] *)
Definition fill (v : Q) (r : list (list Q)) : list (list Q) :=
  (λ row : list Q, (λ _ : Q, v) <$> row) <$> r.

(** [a[i, j]] for non-negative indices; [None] is an [IndexError]. *)
Definition get (r : list (list Q)) (i j : nat) : option Q :=
  row ← r !! i; row !! j.

(** [a[i, j] = v] for non-negative indices. *)
Definition set (r : list (list Q)) (i j : nat) (v : Q) : option (list (list Q)) :=
  row ← r !! i;
  if bool_decide (j < length row)%nat then Some (<[i := <[j := v]> row]> r) else None.

(** [np.sum(a)] *)
Definition sum (r : list (list Q)) : Q := foldr Qplus 0%Q (concat r).

Definition cells (r : list (list Q)) : list Q := concat r.

End Raster.

(* ===================================================================== *)
(** * services/cutfill_calculator.py *)
(* ===================================================================== *)

Module CutFill.
#[local] Open Scope Q_scope.

Record pad : Type := Pad {
  pad_x : option Q;
  pad_y : option Q;
  pad_elevation : option Q;
  pad_size : option Q
}.

Record road : Type := Road {
  centerline : list (Q * Q);
  width : option Q;
  elevations : list Q
}.

(** The [proposed_grades] dictionary. *)
Record grades : Type := Grades {
  default_elevation : option Q;
  baseline_dem : option (list (list Q));
  assets : list pad;
  roads : list road
}.

Record volumes : Type := Volumes {
  cut_volume_ft3 : Q;
  fill_volume_ft3 : Q;
  net_volume_ft3 : Q;
  cut_volume_yd3 : Q;
  fill_volume_yd3 : Q;
  net_volume_yd3 : Q;
  area_breakdown : option (Q * Q * Q * Q);
  cut_map : list (list Q);
  fill_map : list (list Q)
}.

(** [if v:] for an optional number. *)
Definition given (v : option Q) : bool :=
  match v with Some q => Py.truthy q | None => false end.

(** The two nested [for di ... for dj ...] loops that write [v] in the
    square of the given radius around [(i, j)]. *)
Definition stamp (dem_shape : nat * nat) (i j radius : Z) (v : Q)
    (proposed_dem : list (list Q)) : option (list (list Q)) :=
  Py.for_each (Py.range (- radius) (radius + 1)) (λ di proposed_dem,
    Py.for_each (Py.range (- radius) (radius + 1)) (λ dj proposed_dem,
      let ni := (i + di)%Z in
      let nj := (j + dj)%Z in
      if bool_decide (0 ≤ ni < Z.of_nat dem_shape.1)%Z
         && bool_decide (0 ≤ nj < Z.of_nat dem_shape.2)%Z
      then Raster.set proposed_dem (Z.to_nat ni) (Z.to_nat nj) v
      else Some proposed_dem) proposed_dem) proposed_dem.

Section Calculator.
(** [self.grid_resolution], in feet. *)
Variable grid_resolution : Q.

Definition grid_res_deg : Q := grid_resolution * Py.FEET_TO_DEGREES.

(** The Python code stamps pads and roads into the baseline array itself
    when one is given; here the stamped grid is returned and the argument
    is left alone.  The two differ only for a caller that passes the object
    of the existing DEM as baseline together with pads or roads. *)
Definition _create_proposed_dem (proposed_grades : grades) (dem_shape : nat * nat)
    (bounds : Q * Q * Q * Q) : option (list (list Q)) :=
  let '(minx, miny, maxx, maxy) := bounds in
  let proposed_dem := Raster.zeros dem_shape in
  let proposed_dem :=
    if given (default_elevation proposed_grades)
    then Raster.fill (default (0:Q) (default_elevation proposed_grades)) proposed_dem
    else default proposed_dem (baseline_dem proposed_grades) in
  proposed_dem ← Py.for_each (assets proposed_grades) (λ asset proposed_dem,
    let x := default (0:Q) (pad_x asset) in
    let y := default (0:Q) (pad_y asset) in
    let pad_size := default (50:Q) (pad_size asset) in
    if given (pad_elevation asset) then
      let pad_size_deg := pad_size * Py.FEET_TO_DEGREES in
      qi ← Py.div (y - miny) grid_res_deg;
      qj ← Py.div (x - minx) grid_res_deg;
      qr ← Py.div pad_size_deg grid_res_deg;
      stamp dem_shape (Py.int qi) (Py.int qj) (Py.int qr)
            (default (0:Q) (pad_elevation asset)) proposed_dem
    else Some proposed_dem) proposed_dem;
  Py.for_each (roads proposed_grades) (λ road proposed_dem,
    let road_width := default (20:Q) (width road) in
    Py.for_each (imap (λ idx point, (idx, point)) (centerline road))
      (λ '(idx, (x, y)) proposed_dem,
        let elevation :=
          match elevations road !! idx with
          | Some e => e
          | None =>
              if given (default_elevation proposed_grades)
              then default (0:Q) (default_elevation proposed_grades) else 0
          end in
        let road_width_deg := road_width * Py.FEET_TO_DEGREES in
        qi ← Py.div (y - miny) grid_res_deg;
        qj ← Py.div (x - minx) grid_res_deg;
        qr ← Py.div road_width_deg (2 * grid_res_deg);
        stamp dem_shape (Py.int qi) (Py.int qj) (Py.int qr) elevation proposed_dem)
      proposed_dem) proposed_dem.

(** Cut and fill depth of one cell that is not masked out. *)
Definition cell_cut_fill (existing_elev proposed_elev : Q) : Q * Q :=
  if Py.ltb proposed_elev existing_elev then (existing_elev - proposed_elev, 0)
  else if Py.ltb existing_elev proposed_elev then (0, proposed_elev - existing_elev)
  else (0, 0).

Section Masked.
(** Shapely polygons: emptiness (the truth value of a geometry), point
    containment and area. *)
Context {Polygon : Type}.
Variable is_empty : Polygon → bool.
Variable contains : Polygon → Q * Q → bool.
Variable area : Polygon → Q.

(** [if property_boundary:] *)
Definition masking (property_boundary : option Polygon) : option Polygon :=
  match property_boundary with
  | Some p => if is_empty p then None else Some p
  | None => None
  end.

(** The body of the double loop over the grid: the cut and fill depth
    written for cell [(i, j)]. *)
Definition cell_volumes (dem proposed_dem : list (list Q))
    (bounds : Q * Q * Q * Q) (property_boundary : option Polygon) (i j : nat)
  : option (Q * Q) :=
  let '(minx, miny, maxx, maxy) := bounds in
  existing_elev ← Raster.get dem i j;
  proposed_elev ← Raster.get proposed_dem i j;
  let outside :=
    match masking property_boundary with
    | Some p =>
        let x := minx + inject_Z (Z.of_nat j) * grid_res_deg in
        let y := miny + inject_Z (Z.of_nat i) * grid_res_deg in
        negb (contains p (x, y))
    | None => false
    end in
  if outside then Some (0, 0)
  else Some (cell_cut_fill existing_elev proposed_elev).

Definition calculate_volumes (dem : list (list Q)) (proposed_grades : grades)
    (bounds : Q * Q * Q * Q) (property_boundary : option Polygon)
  : option volumes :=
  proposed_dem ← _create_proposed_dem proposed_grades (Raster.shape dem) bounds;
  cells ← mapM (λ i,
             mapM (cell_volumes dem proposed_dem bounds property_boundary i)
                  (seq 0 (Raster.shape dem).2))
           (seq 0 (Raster.shape dem).1);
  let cut_volumes := (λ row : list (Q * Q), fst <$> row) <$> cells in
  let fill_volumes := (λ row : list (Q * Q), snd <$> row) <$> cells in
  let cell_area := grid_resolution * grid_resolution in
  let total_cut := Raster.sum cut_volumes * cell_area in
  let total_fill := Raster.sum fill_volumes * cell_area in
  let net_volume := total_cut - total_fill in
  let total_cut_yd3 := total_cut / 27 in
  let total_fill_yd3 := total_fill / 27 in
  let net_volume_yd3 := net_volume / 27 in
  let area_breakdown :=
    match masking property_boundary with
    | Some p =>
        let total_area := area p in
        Some (total_area, total_area / 43560,
              if Py.ltb 0 total_area then total_cut_yd3 / (total_area / 43560) else 0,
              if Py.ltb 0 total_area then total_fill_yd3 / (total_area / 43560) else 0)
    | None => None
    end in
  Some (Volumes total_cut total_fill net_volume
                total_cut_yd3 total_fill_yd3 net_volume_yd3
                area_breakdown cut_volumes fill_volumes).

End Masked.
End Calculator.

(** One cell of the visualisation: the three masked assignments in order. *)
Definition classify (cut fill : Q) : Q :=
  let visualization := 0 in
  let visualization := if Py.ltb 0 cut then 1 else visualization in
  let visualization := if Py.ltb 0 fill then 2 else visualization in
  let balanced_threshold := 1 # 10 in
  if Py.ltb (Qabs (cut - fill)) balanced_threshold then 3 else visualization.

(** [generate_visualization_map]: the raster under the key 'visualization'.
    Arrays of different shapes make the boolean-mask assignment raise. *)
Definition generate_visualization_map (cut_map fill_map : list (list Q))
  : option (list (list Q)) :=
  if bool_decide (length <$> cut_map = length <$> fill_map)
  then Some (zip_with (zip_with classify) cut_map fill_map)
  else None.

Definition legend : list (string * string) :=
  [ ("0", "No change"); ("1", "Cut area"); ("2", "Fill area"); ("3", "Balanced area") ]%string.

End CutFill.

(* ===================================================================== *)
(** * services/terrain_analyzer.py *)
(* ===================================================================== *)

Module Terrain.
#[local] Open Scope Q_scope.

Definition slope_score (point_slope : Q) : Q :=
  if Py.ltb 15 point_slope then 0 else 1 - point_slope / 15.

Definition aspect_score (point_aspect : Q) : Q :=
  let aspect_diff := Qabs (point_aspect - 180) in
  let aspect_diff := if Py.ltb 180 aspect_diff then 360 - aspect_diff else aspect_diff in
  1 - aspect_diff / 180.

Definition in_bounds (point : Q * Q) (bounds : Q * Q * Q * Q) : bool :=
  let '(minx, miny, maxx, maxy) := bounds in
  let '(x, y) := point in
  Py.leb minx x && Py.leb x maxx && Py.leb miny y && Py.leb y maxy.

(** [None] stands for a raised exception ([ZeroDivisionError] or
    [IndexError]). *)
Definition get_terrain_suitability_score (point : Q * Q)
    (slope aspect dem : list (list Q)) (bounds : Q * Q * Q * Q) (resolution : Q)
  : option Q :=
  let '(minx, miny, maxx, maxy) := bounds in
  let '(x, y) := point in
  if negb (in_bounds point bounds) then Some 0
  else
    qi ← Py.div (y - miny) resolution;
    qj ← Py.div (x - minx) resolution;
    let i := Py.int qi in
    let j := Py.int qj in
    if bool_decide (i < 0)%Z || bool_decide (Z.of_nat (Raster.shape slope).1 ≤ i)%Z
       || bool_decide (j < 0)%Z || bool_decide (Z.of_nat (Raster.shape slope).2 ≤ j)%Z
    then Some 0
    else
      point_slope ← Raster.get slope (Z.to_nat i) (Z.to_nat j);
      point_aspect ← Raster.get aspect (Z.to_nat i) (Z.to_nat j);
      let suitability :=
        (8 # 10) * slope_score point_slope + (2 # 10) * aspect_score point_aspect in
      Some suitability.

End Terrain.

(* ===================================================================== *)
(** * Outcomes of code that may raise or loop *)
(* ===================================================================== *)

(** The result of running a piece of code with a bound on the number of
    loop iterations: a value, a raised exception, or the bound was hit
    before the code finished. *)
Inductive outcome (A : Type) : Type :=
  | Done (a : A)
  | Raised
  | Timeout.

Arguments Done {A} a.
Arguments Raised {A}.
Arguments Timeout {A}.

(* ===================================================================== *)
(** * services/asset_placer.py: candidate generation *)
(* ===================================================================== *)

Module Candidates.
#[local] Open Scope Q_scope.

Definition MAX_CANDIDATES : Z := 10000.

Section Geometry.
(** The Shapely calls of the function.  [None] stands for a raised
    exception. *)
Context {Polygon : Type}.
Variable buffer : Polygon → Q → option Polygon.
Variable is_empty : Polygon → bool.
Variable is_valid : Polygon → bool.
Variable contains : Polygon → Q * Q → option bool.
Variable bounds : Polygon → option (Q * Q * Q * Q).
Variable unary_union : list Polygon → option Polygon.
(** [q ** 0.5] *)
Variable sqrt : Q → Q.

(** The first [try] block: the boundary shrunk by the buffer, with its two
    fallbacks. *)
Definition buffered_boundary (property_boundary : Polygon) (buffer_boundary_deg : Q)
  : Polygon :=
  match buffer property_boundary (- buffer_boundary_deg) with
  | Some buffered =>
      if is_empty buffered || negb (is_valid buffered) then
        match buffer property_boundary (- buffer_boundary_deg * (1 # 10)) with
        | Some buffered => if is_empty buffered then property_boundary else buffered
        | None => property_boundary
        end
      else buffered
  | None => property_boundary
  end.

(** The grown exclusion zones and their union, if any. *)
Definition exclusion_union (exclusion_zones : list Polygon) (buffer_exclusion_deg : Q)
  : option Polygon :=
  let buffered_exclusions :=
    (λ zone, default zone (buffer zone buffer_exclusion_deg)) <$> exclusion_zones in
  match buffered_exclusions with
  | [] => None
  | _ => unary_union buffered_exclusions
  end.

(** The test guarding [candidates.append]; an exception in it skips the
    point. *)
Definition accepted (boundary : Polygon) (exclusion : option Polygon) (point : Q * Q)
  : bool :=
  match contains boundary point with
  | Some true =>
      match exclusion with
      | None => true
      | Some union =>
          match contains union point with
          | Some inside => negb inside
          | None => false
          end
      end
  | _ => false
  end.

(** The inner [while y <= maxy] loop.  The flag tells whether the function
    returned from inside the loop. *)
Fixpoint walk_column (fuel : nat) (boundary : Polygon) (exclusion : option Polygon)
    (maxy grid_resolution_deg x y : Q) (candidates : list (Q * Q))
  : outcome (bool * list (Q * Q)) :=
  match fuel with
  | O => Timeout
  | S fuel =>
      if Py.leb y maxy then
        if accepted boundary exclusion (x, y) then
          let candidates := candidates ++ [(x, y)] in
          if bool_decide (MAX_CANDIDATES ≤ Z.of_nat (length candidates))%Z
          then Done (true, candidates)
          else walk_column fuel boundary exclusion maxy grid_resolution_deg
                 x (y + grid_resolution_deg) candidates
        else walk_column fuel boundary exclusion maxy grid_resolution_deg
               x (y + grid_resolution_deg) candidates
      else Done (false, candidates)
  end.

(** The outer [while x <= maxx] loop. *)
Fixpoint walk_grid (fuel : nat) (boundary : Polygon) (exclusion : option Polygon)
    (miny maxx maxy grid_resolution_deg x : Q) (candidates : list (Q * Q))
  : outcome (list (Q * Q)) :=
  match fuel with
  | O => Timeout
  | S fuel' =>
      if Py.leb x maxx then
        match walk_column fuel boundary exclusion maxy grid_resolution_deg
                x miny candidates with
        | Done (true, candidates) => Done candidates
        | Done (false, candidates) =>
            walk_grid fuel' boundary exclusion miny maxx maxy grid_resolution_deg
              (x + grid_resolution_deg) candidates
        | Raised => Raised
        | Timeout => Timeout
        end
      else Done candidates
  end.

(** The grid step after the estimate of the number of points. *)
Definition adjusted_resolution (box : Q * Q * Q * Q) (grid_resolution_deg : Q)
  : option Q :=
  let '(minx, miny, maxx, maxy) := box in
  let bbox_width_deg := maxx - minx in
  let bbox_height_deg := maxy - miny in
  across ← Py.div bbox_width_deg grid_resolution_deg;
  up ← Py.div bbox_height_deg grid_resolution_deg;
  let estimated_points := Py.int (across * up) in
  if bool_decide (MAX_CANDIDATES < estimated_points)%Z then
    let scale_factor := sqrt (inject_Z estimated_points / inject_Z MAX_CANDIDATES) in
    Some (grid_resolution_deg * scale_factor)
  else Some grid_resolution_deg.

Definition generate_candidate_locations (fuel : nat) (property_boundary : Polygon)
    (exclusion_zones : list Polygon)
    (grid_resolution buffer_boundary buffer_exclusion : Q)
  : outcome (list (Q * Q)) :=
  let buffer_boundary_deg := buffer_boundary * Py.FEET_TO_DEGREES in
  let buffer_exclusion_deg := buffer_exclusion * Py.FEET_TO_DEGREES in
  let grid_resolution_deg := grid_resolution * Py.FEET_TO_DEGREES in
  let boundary := buffered_boundary property_boundary buffer_boundary_deg in
  let exclusion := exclusion_union exclusion_zones buffer_exclusion_deg in
  let box :=
    match bounds boundary with
    | Some box => Some box
    | None => bounds property_boundary
    end in
  match box with
  | None => Raised
  | Some (minx, miny, maxx, maxy) =>
      match adjusted_resolution (minx, miny, maxx, maxy) grid_resolution_deg with
      | None => Raised
      | Some grid_resolution_deg =>
          walk_grid fuel boundary exclusion miny maxx maxy grid_resolution_deg minx []
      end
  end.

End Geometry.
End Candidates.

(* ===================================================================== *)
(** * services/road_generator.py *)
(* ===================================================================== *)

(** Coordinates are dictionary keys here ([g_score], [came_from],
    [visited]): they are canonical rationals, so that equal numbers are
    equal keys.  A weight is a float that may be [float('inf')]. *)
Module Roads.
#[local] Open Scope Qc_scope.

Definition point : Type := Qc * Qc.

Inductive weight : Type :=
  | Finite (q : Qc)
  | Infinite.

#[global] Instance weight_eq_dec : EqDecision weight.
Proof. solve_decision. Defined.

Definition weight_add (a b : weight) : weight :=
  match a, b with
  | Finite x, Finite y => Finite (x + y)
  | _, _ => Infinite
  end.

Definition weight_ltb (a b : weight) : bool :=
  match a, b with
  | Finite x, Finite y => bool_decide (x < y)
  | Finite _, Infinite => true
  | Infinite, _ => false
  end.

(** Integer constants as floats. *)
Definition num (z : Z) : Qc := Q2Qc (inject_Z z).

Definition Qcabs (q : Qc) : Qc := if bool_decide (q < 0) then - q else q.

Definition Qcmax (a b : Qc) : Qc := if bool_decide (a < b) then b else a.

(** [a / b] on floats: [None] is a [ZeroDivisionError]. *)
Definition div (a b : Qc) : option Qc :=
  if bool_decide (b = 0) then None else Some (a / b).

(** A two-dimensional numpy array: its shape and its items. *)
Record ndarray : Type := Ndarray {
  shape0 : nat;
  shape1 : nat;
  item : nat → nat → Qc
}.

Record asset : Type := Asset {
  asset_id : option string;
  asset_x : Qc;
  asset_y : Qc
}.

Record segment : Type := Segment {
  segment_type : string;
  segment_path : list point;
  segment_asset_id : option string;
  segment_width : Qc
}.

Record road : Type := Road {
  road_type : string;
  centerline : list point;
  right_of_way : list point;
  road_width : Qc;
  road_length : Qc
}.

Record network : Type := Network {
  roads : list road;
  total_length : Qc;
  entry_point : point;
  warning : option string
}.

(** The fields set in [__init__]. *)
Definition max_grade : Qc := num 8.
Definition min_width_access : Qc := num 20.
Definition min_width_secondary : Qc := num 12.
Definition min_turning_radius : Qc := num 25.
Definition avoid_slope_above : Qc := num 15.

Definition FEET_TO_DEGREES : Qc := Q2Qc (1 # 364000).

(** ** The priority queue

    [heapq] keeps the entries in a binary heap; what the search observes is
    that [heappop] removes and returns the least entry in the order of
    Python tuples.  The queue is modelled by the list of its entries. *)

Definition entry : Type := weight * point.

Definition point_ltb (a b : point) : bool :=
  bool_decide (a.1 < b.1) || (bool_decide (a.1 = b.1) && bool_decide (a.2 < b.2)).

Definition entry_ltb (a b : entry) : bool :=
  weight_ltb a.1 b.1 || (bool_decide (a.1 = b.1) && point_ltb a.2 b.2).

Fixpoint least (m : entry) (l : list entry) : entry :=
  match l with
  | [] => m
  | e :: l => least (if entry_ltb e m then e else m) l
  end.

Fixpoint remove_first (m : entry) (l : list entry) : list entry :=
  match l with
  | [] => []
  | e :: l => if bool_decide (e = m) then l else e :: remove_first m l
  end.

Definition heappop (open_set : list entry) : option (entry * list entry) :=
  match open_set with
  | [] => None
  | e :: l => let m := least e l in Some (m, remove_first m open_set)
  end.

Definition heappush (open_set : list entry) (e : entry) : list entry :=
  open_set ++ [e].

(** ** The search *)

Record state : Type := State {
  open_set : list entry;
  came_from : gmap point point;
  g_score : gmap point weight;
  f_score : gmap point weight;
  visited : gset point;
  iterations : Z
}.

Inductive step_result : Type :=
  | Continue (s : state)
  | Reached (current : point) (s : state)
  | Error.

Inductive search_result : Type :=
  | GoalReached (current : point) (s : state)
  | Exhausted (s : state).

Definition max_iterations : Z := 10000.

(** [while current in came_from: ...] followed by [path.reverse()]. *)
Fixpoint reconstruct (fuel : nat) (came_from : gmap point point)
    (current : point) (path : list point) : outcome (list point) :=
  match fuel with
  | O => Timeout
  | S fuel =>
      match came_from !! current with
      | Some previous => reconstruct fuel came_from previous (path ++ [previous])
      | None => Done (reverse path)
      end
  end.

Section Generator.
(** Shapely: containment of a point in a polygon and the centroid of a
    polygon; numpy: the square root. *)
Context {Polygon : Type}.
Variable contains : Polygon → point → bool.
Variable centroid : Polygon → point.
Variable sqrt : Qc → Qc.

Definition calculate_grade (point1 point2 : Qc * Qc * Qc) : Qc :=
  let '(x1, y1, z1) := point1 in
  let '(x2, y2, z2) := point2 in
  let horizontal_dist := sqrt ((x2 - x1) * (x2 - x1) + (y2 - y1) * (y2 - y1)) in
  if bool_decide (horizontal_dist = 0) then 0
  else
    let vertical_change := z2 - z1 in
    vertical_change / horizontal_dist * num 100.

Definition get_elevation_at_point (p : point) (dem : ndarray)
    (bounds : Qc * Qc * Qc * Qc) (resolution : Qc) : option Qc :=
  let '(minx, miny, maxx, maxy) := bounds in
  let '(x, y) := p in
  qi ← div (y - miny) resolution;
  qj ← div (x - minx) resolution;
  let i := Py.int (this qi) in
  let j := Py.int (this qj) in
  if bool_decide (i < 0)%Z || bool_decide (Z.of_nat (shape0 dem) ≤ i)%Z
     || bool_decide (j < 0)%Z || bool_decide (Z.of_nat (shape1 dem) ≤ j)%Z
  then Some 0
  else Some (item dem (Z.to_nat i) (Z.to_nat j)).

Definition heuristic (a b : point) : Qc :=
  sqrt ((a.1 - b.1) * (a.1 - b.1) + (a.2 - b.2) * (a.2 - b.2)).

Definition grid_size_of (resolution : Qc) : Qc :=
  if bool_decide (Q2Qc (1 # 1000) < resolution) then resolution * FEET_TO_DEGREES
  else resolution.

Section Search.
Variable property_boundary : Polygon.
Variable exclusion_zones : list Polygon.
Variable dem : option ndarray.
Variable bounds : option (Qc * Qc * Qc * Qc).
Variable resolution : Qc.
Variable goal : point.

Definition grid_size : Qc := grid_size_of resolution.

Definition terrain_cost (grade : Qc) : Qc :=
  if bool_decide (max_grade < Qcabs grade) then num 10
  else if bool_decide (avoid_slope_above < Qcabs grade) then num 5
  else 1 + Qcabs grade / num 10.

(** The nested function [cost]; [None] when it raises. *)
Definition cost (current next_point : point) : option weight :=
  let distance := heuristic current next_point in
  if existsb (λ zone, contains zone next_point) exclusion_zones then Some Infinite
  else
    match dem, bounds with
    | Some dem, Some bounds =>
        elev_current ← get_elevation_at_point current dem bounds resolution;
        elev_next ← get_elevation_at_point next_point dem bounds resolution;
        let grade :=
          calculate_grade (current, elev_current) (next_point, elev_next) in
        Some (Finite (distance * terrain_cost grade))
    | _, _ => Some (Finite (distance * 1))
    end.

Definition goal_threshold : Qc := Qcmax (grid_size * num 2) (Q2Qc (1 # 10000)).

(** The pairs [(dx, dy)] that get past [if dx == 0 and dy == 0: continue]. *)
Definition offsets : list (Qc * Qc) :=
  dx ← [- grid_size; 0; grid_size];
  dy ← [- grid_size; 0; grid_size];
  if bool_decide (dx = 0) && bool_decide (dy = 0) then [] else [(dx, dy)].

(** The body of the two [for] loops for one pair [(dx, dy)]. *)
Definition relax (current : point) (d : Qc * Qc) (s : state) : option state :=
  let neighbor := (current.1 + d.1, current.2 + d.2) in
  if negb (contains property_boundary neighbor) then Some s
  else
    g_current ← g_score s !! current;
    step_cost ← cost current neighbor;
    let tentative_g := weight_add g_current step_cost in
    let better :=
      match g_score s !! neighbor with
      | None => true
      | Some g_neighbor => weight_ltb tentative_g g_neighbor
      end in
    if better then
      let f := weight_add tentative_g (Finite (heuristic neighbor goal)) in
      Some (State (heappush (open_set s) (f, neighbor))
                  (<[neighbor := current]> (came_from s))
                  (<[neighbor := tentative_g]> (g_score s))
                  (<[neighbor := f]> (f_score s))
                  (visited s)
                  (iterations s))
    else Some s.

(** One iteration of the [while] loop. *)
Definition loop_body (s : state) : step_result :=
  let iterations := (iterations s + 1)%Z in
  match heappop (open_set s) with
  | None => Error
  | Some ((current_f, current), rest) =>
      if bool_decide (current ∈ visited s)
      then Continue (State rest (came_from s) (g_score s) (f_score s) (visited s)
                           iterations)
      else
        let s := State rest (came_from s) (g_score s) (f_score s)
                       ({[current]} ∪ visited s) iterations in
        if bool_decide (heuristic current goal < goal_threshold)
        then Reached current s
        else
          match Py.for_each offsets (relax current) s with
          | Some s => Continue s
          | None => Error
          end
  end.

(** [while open_set and iterations < max_iterations: ...] *)
Fixpoint search (fuel : nat) (s : state) : outcome search_result :=
  match fuel with
  | O => Timeout
  | S fuel =>
      match open_set s with
      | [] => Done (Exhausted s)
      | _ :: _ =>
          if bool_decide (iterations s < max_iterations)%Z then
            match loop_body s with
            | Continue s => search fuel s
            | Reached current s => Done (GoalReached current s)
            | Error => Raised
            end
          else Done (Exhausted s)
      end
  end.

End Search.

(** The point the search starts from, or aims at: the centroid stands in
    for a point outside the boundary. *)
Definition snap (property_boundary : Polygon) (p : point) : point :=
  if negb (contains property_boundary p) then centroid property_boundary else p.

Definition initial (start goal : point) : state :=
  State [(Finite 0, start)] ∅ {[start := Finite 0]}
        {[start := Finite (heuristic start goal)]} ∅ 0.

Definition a_star_pathfinding (fuel : nat) (start goal : point)
    (property_boundary : Polygon) (exclusion_zones : list Polygon)
    (dem : option ndarray) (bounds : option (Qc * Qc * Qc * Qc)) (resolution : Qc)
  : outcome (option (list point)) :=
  let start := snap property_boundary start in
  let goal := snap property_boundary goal in
  match search property_boundary exclusion_zones dem bounds resolution goal
          fuel (initial start goal) with
  | Done (GoalReached current s) =>
      match reconstruct fuel (came_from s) current [goal] with
      | Done path => Done (Some path)
      | Raised => Raised
      | Timeout => Timeout
      end
  | Done (Exhausted s) => Done None
  | Raised => Raised
  | Timeout => Timeout
  end.

(** ** The network *)

(** [_optimize_road_network]: segments whose path was seen are dropped. *)
Fixpoint dedup (seen_paths : list (list point)) (segments : list segment)
  : list segment :=
  match segments with
  | [] => []
  | segment :: rest =>
      let path_key := segment_path segment in
      if bool_decide (path_key ∈ seen_paths) then dedup seen_paths rest
      else segment :: dedup (path_key :: seen_paths) rest
  end.

Definition _optimize_road_network (segments : list segment) : list segment :=
  dedup [] segments.

(** The first loop of [generate_road_network].  [road_network] is the list
    the second loop fills; the first loop reads its length. *)
Fixpoint find_paths (fuel : nat) (entry_point : point) (assets : list asset)
    (property_boundary : Polygon) (exclusion_zones : list Polygon)
    (dem : option ndarray) (bounds : option (Qc * Qc * Qc * Qc)) (resolution : Qc)
    (road_network : list road) (road_segments : list segment)
  : outcome (list segment) :=
  match assets with
  | [] => Done road_segments
  | asset :: rest =>
      let asset_location := (asset_x asset, asset_y asset) in
      match a_star_pathfinding fuel entry_point asset_location property_boundary
              exclusion_zones dem bounds resolution with
      | Done path =>
          let road_segments :=
            match path with
            | Some (p :: ps) =>
                road_segments ++
                [ Segment
                    (if bool_decide (length road_network = 0%nat)
                     then "access" else "secondary")
                    (p :: ps)
                    (asset_id asset)
                    (if bool_decide (length road_network = 0%nat)
                     then min_width_access else min_width_secondary) ]
            | _ => road_segments
            end in
          find_paths fuel entry_point rest property_boundary exclusion_zones
            dem bounds resolution road_network road_segments
      | Raised => Raised
      | Timeout => Timeout
      end
  end.

(** Shapely on line strings: validity, the repair by [buffer(0)] read back
    as coordinates ([None] when that raises), the outline of the buffer
    around a line (empty when it fails), and the length. *)
Variable line_is_valid : list point → bool.
Variable line_repaired : list point → option (list point).
Variable line_buffer : list point → Qc → list point.
Variable line_length : list point → Qc.

(** The body of the second loop: the road built from a segment, if any. *)
Definition build_road (segment : segment) : option road :=
  let path := segment_path segment in
  let width := segment_width segment in
  if bool_decide (length path < 2)%nat then None
  else
    centerline ← (if line_is_valid path then Some path else line_repaired path);
    let width_deg := width * FEET_TO_DEGREES in
    let right_of_way_coords := line_buffer centerline (width_deg / num 2) in
    Some (Road (segment_type segment) centerline right_of_way_coords width
               (line_length centerline)).

Definition generate_road_network (fuel : nat) (entry_point : point)
    (assets : list asset) (property_boundary : Polygon)
    (exclusion_zones : list Polygon)
    (dem : option ndarray) (bounds : option (Qc * Qc * Qc * Qc)) (resolution : Qc)
  : outcome network :=
  let road_network : list road := [] in
  match find_paths fuel entry_point assets property_boundary exclusion_zones
          dem bounds resolution road_network [] with
  | Done road_segments =>
      let optimized_segments := _optimize_road_network road_segments in
      let road_network := omap build_road optimized_segments in
      match road_network with
      | [] =>
          Done (Network [] 0 entry_point
                  (Some "No roads could be generated. Check that entry point and assets are within property boundary."))
      | _ =>
          Done (Network road_network (foldr Qcplus 0 (road_length <$> road_network))
                  entry_point None)
      end
  | Raised => Raised
  | Timeout => Timeout
  end.

End Generator.
End Roads.

(* ===================================================================== *)
(** * services/asset_placer.py: placement *)
(* ===================================================================== *)

Module Placer.
#[local] Open Scope Q_scope.

(** ** What the process can see besides the arguments *)

(** A template of [asset_templates.yaml]. *)
Record asset_type : Type := AssetType {
  type_name : option string;
  dim_length : option Q;
  dim_width : option Q;
  attributes : list (string * string)
}.

(** A parsed YAML file, as far as the placer reads it: the three distances
    of [constraints.yaml] and the list under ['asset_types'].  A key that
    is missing is [None]. *)
Record yaml : Type := Yaml {
  boundary_buffer_distance : option Q;
  exclusion_buffer_distance : option Q;
  min_asset_spacing : option Q;
  asset_types : option (list asset_type)
}.

(** The state of the process and its surroundings: the files of the
    configuration directory, the wall clock, the expiring cache and the
    rate-limit store. *)
Record world : Type := World {
  config_dir : gmap string yaml;
  clock : Z;
  cache_store : gmap string Cache.entry;
  rate_limit_store : gmap string RateLimit.entry
}.

(** [ConfigLoader.load_config]: a missing file raises. *)
Definition load_config (w : world) (filename : string) : option yaml :=
  config_dir w !! filename.

Definition get_asset_templates (w : world) : option yaml :=
  load_config w "asset_templates.yaml".

Definition get_constraints (w : world) : option yaml :=
  load_config w "constraints.yaml".

(** [ConfigLoader.get_asset_type]: the outer [None] is the exception, the
    inner one the answer [None]. *)
Definition get_asset_type (w : world) (asset_name : option string)
  : option (option asset_type) :=
  templates ← get_asset_templates w;
  let asset_types := default [] (asset_types templates) in
  Some (List.find (λ asset_type, bool_decide (type_name asset_type = asset_name))
                  asset_types).

(** ** Arguments and results *)

Record requirement : Type := Requirement {
  req_type : option string;
  req_count : option Z
}.

Record terrain : Type := TerrainData {
  slope : option (list (list Q));
  aspect : option (list (list Q));
  dem : option (list (list Q));
  terrain_bounds : option (Q * Q * Q * Q);
  dem_resolution : option Q
}.

Record placed : Type := Placed {
  placed_type : option string;
  placed_x : Q;
  placed_y : Q;
  placed_score : Q;
  placed_dimensions : option Q * option Q;
  placed_attributes : list (string * string)
}.

Record constraint_config : Type := ConstraintConfig {
  buffer_boundary : Q;
  buffer_exclusion : Q;
  min_spacing : Q
}.

Inductive violation : Type :=
  | BeyondBoundary
  | ExclusionBuffer
  | TooClose (distance : Q).

(** [sort(key=lambda x: x[1], reverse=True)]: by decreasing score, ties in
    their original order. *)
Fixpoint insert_by_score (c : Q * Q * Q) (sorted : list (Q * Q * Q))
  : list (Q * Q * Q) :=
  match sorted with
  | [] => [c]
  | c' :: rest =>
      if Py.leb c'.2 c.2 then c :: c' :: rest else c' :: insert_by_score c rest
  end.

Definition sort_by_score (scored : list (Q * Q * Q)) : list (Q * Q * Q) :=
  foldr insert_by_score [] scored.

Section Geometry.
(** Shapely, as in candidate generation, and in addition: the rectangle
    [box], containment and intersection of two geometries, the distance of
    two points and the centroid.  [None] is a raised exception. *)
Context {Polygon : Type}.
Variable buffer : Polygon → Q → option Polygon.
Variable is_empty : Polygon → bool.
Variable is_valid : Polygon → bool.
Variable contains : Polygon → Q * Q → option bool.
Variable bounds : Polygon → option (Q * Q * Q * Q).
Variable unary_union : list Polygon → option Polygon.
Variable sqrt : Q → Q.
Variable box : Q → Q → Q → Q → Polygon.
Variable covers : Polygon → Polygon → bool.
Variable intersects : Polygon → Polygon → option bool.
Variable distance : Q * Q → Q * Q → Q.
Variable centroid : Polygon → option (Q * Q).

(** The [try] / [except] around one exclusion zone: the grown zone is
    tested, and the zone itself when that raises. *)
Definition zone_hit (zone asset_footprint : Polygon) (buffer_exclusion_deg : Q)
  : option bool :=
  match buffer zone buffer_exclusion_deg with
  | Some buffered_zone =>
      match intersects buffered_zone asset_footprint with
      | Some hit => Some hit
      | None => intersects zone asset_footprint
      end
  | None => intersects zone asset_footprint
  end.

Definition check_constraints (location : Q * Q) (asset_type : asset_type)
    (property_boundary : Polygon) (exclusion_zones : list Polygon)
    (placed_assets : list placed) (constraints : constraint_config)
  : option (bool * list violation) :=
  let '(x, y) := location in
  let length_ft := default (0:Q) (dim_length asset_type) in
  let width_ft := default (0:Q) (dim_width asset_type) in
  let length_deg := length_ft * Py.FEET_TO_DEGREES in
  let width_deg := width_ft * Py.FEET_TO_DEGREES in
  let half_length := length_deg / 2 in
  let half_width := width_deg / 2 in
  let asset_footprint :=
    box (x - half_length) (y - half_width) (x + half_length) (y + half_width) in
  let buffer_boundary_deg := buffer_boundary constraints * Py.FEET_TO_DEGREES in
  let buffered_boundary :=
    match buffer property_boundary (- buffer_boundary_deg) with
    | Some buffered => if is_empty buffered then property_boundary else buffered
    | None => property_boundary
    end in
  let violations :=
    if covers buffered_boundary asset_footprint then [] else [BeyondBoundary] in
  let buffer_exclusion_deg := buffer_exclusion constraints * Py.FEET_TO_DEGREES in
  violations ← Py.for_each exclusion_zones (λ zone violations,
    hit ← zone_hit zone asset_footprint buffer_exclusion_deg;
    Some (if hit : bool then violations ++ [ExclusionBuffer] else violations))
    violations;
  let min_spacing_deg := min_spacing constraints * Py.FEET_TO_DEGREES in
  let violations :=
    foldl (λ violations placed,
      let d := distance (x, y) (placed_x placed, placed_y placed) in
      if Py.ltb d min_spacing_deg then violations ++ [TooClose d] else violations)
    violations placed_assets in
  Some (bool_decide (length violations = 0%nat), violations).

(** The weights used when none are passed. *)
Definition weight_terrain_suitability : Q := 4 # 10.
Definition weight_distance_to_entry : Q := 2 # 10.
Definition weight_constraint_compliance : Q := 3 # 10.
Definition weight_spacing_optimization : Q := 1 # 10.

Definition Qmin (a b : Q) : Q := if Py.ltb b a then b else a.

Definition calculate_location_score (location : Q * Q) (asset_type : asset_type)
    (property_boundary : Polygon) (entry_point : Q * Q)
    (terrain_data : option terrain) : option Q :=
  terrain_score ←
    match terrain_data with
    | Some t =>
        match slope t, aspect t, dem t, terrain_bounds t with
        | Some slope_arr, Some aspect_arr, Some dem_arr, Some bounds =>
            Terrain.get_terrain_suitability_score location slope_arr aspect_arr
              dem_arr bounds (default (10:Q) (dem_resolution t))
        | _, _, _, _ => Some (1 # 2)
        end
    | None => Some (1 # 2)
    end;
  '(minx, miny, maxx, maxy) ← bounds property_boundary;
  let max_distance := maxx - minx in
  let d := distance location entry_point in
  ratio ← Py.div d max_distance;
  let distance_score := 1 - Qmin ratio 1 in
  Some (0 + weight_terrain_suitability * terrain_score
          + weight_distance_to_entry * distance_score
          + weight_constraint_compliance * 1
          + weight_spacing_optimization * (1 # 2)).

(** The candidates of one requirement that pass the constraints, each with
    its score. *)
Fixpoint score_candidates (candidates : list (Q * Q)) (asset_type : asset_type)
    (property_boundary : Polygon) (exclusion_zones : list Polygon)
    (placed_assets : list placed) (constraints : constraint_config)
    (entry_point : Q * Q) (terrain_data : option terrain)
  : option (list (Q * Q * Q)) :=
  match candidates with
  | [] => Some []
  | candidate :: rest =>
      checked ← check_constraints candidate asset_type property_boundary
                   exclusion_zones placed_assets constraints;
      scored ←
        (if checked.1 : bool then
           score ← calculate_location_score candidate asset_type property_boundary
                     entry_point terrain_data;
           Some [(candidate, score)]
         else Some []);
      others ← score_candidates rest asset_type property_boundary exclusion_zones
                 placed_assets constraints entry_point terrain_data;
      Some (scored ++ others)
  end.

(** A template is skipped when it is missing or an empty mapping. *)
Definition usable (found : option asset_type) : option asset_type :=
  match found with
  | Some t =>
      match type_name t, dim_length t, dim_width t, attributes t with
      | None, None, None, [] => None
      | _, _, _, _ => Some t
      end
  | None => None
  end.

(** The body of the loop over the requirements. *)
Definition place_requirement (w : world) (fuel : nat) (property_boundary : Polygon)
    (exclusion_zones : list Polygon) (entry_point : Q * Q)
    (terrain_data : option terrain) (constraints : constraint_config)
    (req : requirement) (placed_assets : list placed) : outcome (list placed) :=
  let asset_name := req_type req in
  let count := default 1%Z (req_count req) in
  match get_asset_type w asset_name with
  | None => Raised
  | Some found =>
      match usable found with
      | None => Done placed_assets
      | Some asset_type =>
          match Candidates.generate_candidate_locations buffer is_empty is_valid
                  contains bounds unary_union sqrt fuel property_boundary
                  exclusion_zones 10 (buffer_boundary constraints)
                  (buffer_exclusion constraints) with
          | Done candidates =>
              let candidates :=
                match candidates with
                | [] =>
                    match centroid property_boundary with
                    | Some center => Some [center]
                    | None => None
                    end
                | _ => Some candidates
                end in
              match candidates with
              | None => Done placed_assets
              | Some candidates =>
                  match score_candidates candidates asset_type property_boundary
                          exclusion_zones placed_assets constraints entry_point
                          terrain_data with
                  | None => Raised
                  | Some scored_candidates =>
                      let scored_candidates := sort_by_score scored_candidates in
                      Done (placed_assets ++
                            ((λ c : Q * Q * Q,
                                Placed asset_name c.1.1 c.1.2 c.2
                                  (dim_length asset_type, dim_width asset_type)
                                  (attributes asset_type))
                             <$> take (Z.to_nat count) scored_candidates))
                  end
              end
          | Raised => Raised
          | Timeout => Timeout
          end
      end
  end.

Fixpoint place_all (w : world) (fuel : nat) (property_boundary : Polygon)
    (exclusion_zones : list Polygon) (entry_point : Q * Q)
    (terrain_data : option terrain) (constraints : constraint_config)
    (asset_requirements : list requirement) (placed_assets : list placed)
  : outcome (list placed) :=
  match asset_requirements with
  | [] => Done placed_assets
  | req :: rest =>
      match place_requirement w fuel property_boundary exclusion_zones entry_point
              terrain_data constraints req placed_assets with
      | Done placed_assets =>
          place_all w fuel property_boundary exclusion_zones entry_point
            terrain_data constraints rest placed_assets
      | Raised => Raised
      | Timeout => Timeout
      end
  end.

Definition place_assets (w : world) (fuel : nat) (property_boundary : Polygon)
    (exclusion_zones : list Polygon) (asset_requirements : list requirement)
    (entry_point : Q * Q) (terrain_data : option terrain)
  : outcome (list placed) :=
  match get_constraints w with
  | None => Raised
  | Some constraints =>
      let constraint_config :=
        ConstraintConfig (default (50:Q) (boundary_buffer_distance constraints))
                         (default (100:Q) (exclusion_buffer_distance constraints))
                         (default (50:Q) (min_asset_spacing constraints)) in
      place_all w fuel property_boundary exclusion_zones entry_point terrain_data
        constraint_config asset_requirements []
  end.

End Geometry.
End Placer.

(* ===================================================================== *)
(** * Facts about utils/cache.py *)
(* ===================================================================== *)

Module CacheFacts.
Import Cache.

Lemma get_cached_none_iff (now : Z) (key : string) (c : gmap string entry) :
  (get_cached now key c).1 = PyNone ↔
    c !! key = None ∨
    ∃ e, c !! key = Some e ∧ (expires_at e ≤ now ∨ value e = PyNone).
Proof.
  unfold get_cached. destruct (c !! key) as [e|] eqn:He.
  - case_bool_decide; simpl; split.
    + intros Hv. right. exists e. auto.
    + intros [?|(e' & [= <-] & [?|?])]; [done|lia|done].
    + intros _. right. exists e. split; [done|left; lia].
    + done.
  - simpl. split; auto.
Qed.

(** [set_cached] touches no other key: nothing is evicted to make room. *)
Lemma set_cached_other now key v ttl c k' :
  k' ≠ key → set_cached now key v ttl c !! k' = c !! k'.
Proof. intros Hne. unfold set_cached. by rewrite lookup_insert_ne. Qed.

Lemma get_cached_other now key c k' :
  k' ≠ key → (get_cached now key c).2 !! k' = c !! k'.
Proof.
  intros Hne. unfold get_cached. destruct (c !! key) as [e|]; [|done].
  case_bool_decide; simpl; [done|]. by rewrite lookup_delete_ne.
Qed.

Section Decorator.
Context {Args : Type}.
Variable generate_cache_key : string → Args → string.
Variable func : Args → pyobj.
Variable func_name : string.
Variable ttl : Z.
Variable key_prefix : string.

#[local] Abbreviation wrapper := (wrapper generate_cache_key func func_name ttl key_prefix).
#[local] Abbreviation call_many := (call_many generate_cache_key func func_name ttl key_prefix).
#[local] Abbreviation cache_key := (cache_key generate_cache_key func_name key_prefix).
#[local] Abbreviation only_none := (only_none generate_cache_key func_name key_prefix).

Lemma wrapper_none_executes now args w :
  func args = PyNone → only_none args w →
  let '(r, w') := wrapper now args w in
  r = PyNone ∧ calls w' = args :: calls w ∧
  store w' !! cache_key args =
    Some (Entry PyNone (now + timedelta_seconds ttl) now) ∧
  only_none args w'.
Proof.
  intros Hf Hw. unfold wrapper.
  destruct (get_cached now (cache_key args) (store w)) as [cv c1] eqn:Hg.
  assert (cv = PyNone) as ->.
  { change cv with (cv, c1).1. rewrite <-Hg. apply get_cached_none_iff.
    destruct (store w !! cache_key args) as [e|] eqn:He; [|by left].
    right. exists e. split; [done|]. right. by apply Hw. }
  simpl. rewrite Hf. unfold set_cached. rewrite lookup_insert_eq.
  repeat split; try done.
  intros e. unfold only_none. simpl. rewrite lookup_insert_eq. by intros [= <-].
Qed.

Lemma call_many_none_executes nows args w :
  func args = PyNone → only_none args w →
  (call_many nows args w).1 = replicate (length nows) PyNone ∧
  calls (call_many nows args w).2 = replicate (length nows) args ++ calls w.
Proof.
  intros Hf. revert w. induction nows as [|now rest IH]; intros w Hw; [done|].
  simpl. pose proof (wrapper_none_executes now args w Hf Hw) as Hstep.
  destruct (wrapper now args w) as [r w1]. destruct Hstep as (-> & Hc & _ & Hw1).
  specialize (IH w1 Hw1). destruct (call_many rest args w1) as [rs w2].
  simpl in *. destruct IH as [-> ->]. split; [done|].
  rewrite Hc, (cons_middle args), app_assoc, <-replicate_cons_app. done.
Qed.

(** By contrast a proper result is executed once and then replayed. *)
Lemma wrapper_hit_replays now now' args w :
  func args ≠ PyNone → store w !! cache_key args = None →
  now' < now + timedelta_seconds ttl →
  let w1 := (wrapper now args w).2 in
  wrapper now' args w1 = (func args, w1).
Proof.
  intros Hf Hw Ht. simpl.
  assert (wrapper now args w =
          (func args, World (set_cached now (cache_key args) (func args) ttl (store w))
                            (args :: calls w))) as ->.
  { unfold Cache.wrapper, get_cached. rewrite Hw. done. }
  unfold Cache.wrapper, get_cached, set_cached. simpl.
  rewrite lookup_insert_eq. simpl. rewrite bool_decide_true by done.
  by destruct (func args).
Qed.

End Decorator.

(** C10. A stored [None] cannot be told from a miss: [get_cached] answers
    [None] exactly when the key is absent, expired, or bound to [None];
    hence, for arguments on which the wrapped function returns [None], every
    call through the [cached] decorator runs the function again and stores
    its result again. *)
Theorem cached_none_is_a_miss {Args : Type}
    (generate_cache_key : string → Args → string) (func : Args → pyobj)
    (func_name : string) (ttl : Z) (key_prefix : string)
    (args : Args) (w : world Args) :
  func args = PyNone →
  only_none generate_cache_key func_name key_prefix args w →
  (∀ now key c,
     (get_cached now key c).1 = PyNone ↔
       c !! key = None ∨
       ∃ e, c !! key = Some e ∧ (expires_at e ≤ now ∨ value e = PyNone)) ∧
  (∀ now,
     let '(r, w') := wrapper generate_cache_key func func_name ttl key_prefix now args w in
     r = PyNone ∧ calls w' = args :: calls w ∧
     store w' !! cache_key generate_cache_key func_name key_prefix args =
       Some (Entry PyNone (now + timedelta_seconds ttl) now)) ∧
  (∀ nows,
     let '(rs, w') := call_many generate_cache_key func func_name ttl key_prefix nows args w in
     rs = replicate (length nows) PyNone ∧
     calls w' = replicate (length nows) args ++ calls w).
Proof.
  intros Hf Hw. split; [|split].
  - intros. apply get_cached_none_iff.
  - intros now.
    pose proof (wrapper_none_executes generate_cache_key func func_name ttl
                  key_prefix now args w Hf Hw) as H.
    destruct (wrapper _ _ _ _ _ now args w). tauto.
  - intros nows.
    pose proof (call_many_none_executes generate_cache_key func func_name ttl
                  key_prefix nows args w Hf Hw) as H.
    by destruct (call_many _ _ _ _ _ nows args w).
Qed.

Lemma cached_none_is_a_miss_witness :
  let gen := λ (p : string) (a : Z), p +:+ "#" +:+ (if bool_decide (a = 0) then "0" else "n") in
  let f := λ _ : Z, PyNone in
  let '(rs, w') := call_many gen f "lookup" 3600 "cache" [0; 1; 2] 7 (World ∅ []) in
  rs = [PyNone; PyNone; PyNone] ∧ calls w' = [7; 7; 7].
Proof.
  intros gen f.
  pose proof (cached_none_is_a_miss gen f "lookup" 3600 "cache" 7 (World ∅ [])
                eq_refl) as H.
  assert (only_none gen "lookup" "cache" 7 (World ∅ [])) as Hw.
  { intros e. simpl. by rewrite lookup_empty. }
  destruct (H Hw) as (_ & _ & H3). exact (H3 [0; 1; 2]).
Defined.

End CacheFacts.

(* ===================================================================== *)
(** * Facts about middleware/rate_limit.py *)
(* ===================================================================== *)

Module RateLimitFacts.
Import RateLimit.

Lemma prune_prune now now' window ts :
  now ≤ now' → prune now' window (prune now window ts) = prune now' window ts.
Proof.
  intros Hle. unfold prune. apply list_filter_filter_l. intros t. simpl. lia.
Qed.

Lemma filter_length_mono {A} (P Q : A → Prop) `{∀ x, Decision (P x)}
    `{∀ x, Decision (Q x)} (l : list A) :
  (∀ x, x ∈ l → P x → Q x) → (length (filter P l) ≤ length (filter Q l))%nat.
Proof.
  induction l as [|x l IH]; intros HPQ; [done|].
  rewrite !filter_cons.
  assert (length (filter P l) ≤ length (filter Q l))%nat as Hl.
  { apply IH. intros y Hy. apply HPQ. by right. }
  destruct (decide (P x)) as [HP|HP], (decide (Q x)) as [HQ|HQ]; simpl; try lia.
  exfalso. apply HQ, HPQ; [by left|done].
Qed.

Lemma Forall_filter_keep {A} (P Q : A → Prop) `{∀ x, Decision (P x)} (l : list A) :
  Forall Q l → Forall Q (filter P l).
Proof.
  rewrite !Forall_forall. intros HQ x Hx.
  apply list_elem_of_filter in Hx as [_ Hx]. by apply HQ.
Qed.

Lemma filter_none {A} (P : A → Prop) `{∀ x, Decision (P x)} (l : list A) :
  Forall (λ x, ¬ P x) l → filter P l = [].
Proof.
  induction 1 as [|x l Hx _ IH]; [done|].
  rewrite filter_cons. by destruct (decide (P x)).
Qed.

Lemma check_other_key now r st key :
  rate_key r ≠ key → (check_rate_limit now r st).2 !! key = st !! key.
Proof.
  intros Hne. unfold check_rate_limit.
  destruct (limit_config (url_path r)) as [cfg|]; [|done].
  case_bool_decide; simpl; by rewrite lookup_insert_ne.
Qed.

(** The verdict and the stored list after a throttled call. *)
Lemma check_limited now r cfg st :
  limit_config (url_path r) = Some cfg →
  let reqs := prune now (window_seconds cfg) (stored (rate_key r) st) in
  let '(ok, st') := check_rate_limit now r st in
  (ok = false ↔ (max_requests cfg ≤ length reqs)%nat) ∧
  stored (rate_key r) st' = if ok then reqs ++ [now] else reqs.
Proof.
  intros Hcfg. unfold check_rate_limit, stored, prune. rewrite Hcfg.
  destruct (st !! rate_key r) as [e|]; simpl;
    case_bool_decide; simpl; rewrite lookup_insert_eq; simpl;
    (split; [|done]); split; (done || lia).
Qed.

Section OneClient.
Variable r0 : request.
Variable cfg : limit.
Hypothesis Hcfg : limit_config (url_path r0) = Some cfg.
Hypothesis Hwindow : 0 < window_seconds cfg.

#[local] Abbreviation W := (timedelta_seconds (window_seconds cfg)).

(** What links the store to the calls let through so far, when the last
    call happened at [T]. *)
Definition tracks (T : Z) (prev : list Z) (st : gmap string entry) : Prop :=
  (∀ now, T ≤ now →
     prune now (window_seconds cfg) (stored (rate_key r0) st) =
     prune now (window_seconds cfg) prev) ∧
  Forall (λ t, t ≤ T) prev.

(** No interval shorter than the window holds more than the limit. *)
Definition bounded (ts : list Z) : Prop :=
  ∀ lo hi, hi - lo < W → (length (in_window lo hi ts) ≤ max_requests cfg)%nat.

Lemma tracks_weaken T T' prev st :
  T ≤ T' → tracks T prev st → tracks T' prev st.
Proof.
  intros Hle [Hp Hall]. split.
  - intros now Hnow. apply Hp. lia.
  - eapply Forall_impl; [done|]. simpl. lia.
Qed.

Lemma bounded_snoc prev now :
  Forall (λ t, t ≤ now) prev →
  (length (prune now (window_seconds cfg) prev) < max_requests cfg)%nat →
  bounded prev → bounded (prev ++ [now]).
Proof.
  intros Hall Hlen Hb lo hi Hspan. unfold in_window.
  rewrite filter_app, length_app, filter_cons, filter_nil.
  destruct (decide (lo ≤ now ∧ now ≤ hi)) as [[Hlo Hhi]|Hout]; simpl.
  - assert (length (filter (λ t : Z, (lo ≤ t ∧ t ≤ hi)%Z) prev)
            ≤ length (prune now (window_seconds cfg) prev))%nat; [|lia].
    apply filter_length_mono. intros t _ [? ?]. lia.
  - specialize (Hb lo hi Hspan). unfold in_window in Hb. lia.
Qed.

Lemma admitted_bounded calls : ∀ T prev st,
  Sorted Z.le (T :: calls.*1) →
  (∀ c, c ∈ calls → rate_key c.2 = rate_key r0 → c.2 = r0) →
  tracks T prev st → bounded prev →
  bounded (prev ++ admitted r0 calls st).
Proof.
  induction calls as [|[now r] rest IH]; intros T prev st Hs Hkeys Htr Hb.
  { simpl. by rewrite app_nil_r. }
  simpl in Hs. apply Sorted_inv in Hs as [Hs Hhd].
  apply HdRel_inv in Hhd.
  apply (tracks_weaken T now) in Htr; [|done]. destruct Htr as [Hp Hall].
  assert (∀ c, c ∈ rest → rate_key c.2 = rate_key r0 → c.2 = r0) as Hkeys'.
  { intros c Hc. apply Hkeys. by right. }
  simpl. destruct (check_rate_limit now r st) as [ok st1] eqn:Hchk.
  destruct (decide (r = r0)) as [->|Hne].
  - pose proof (check_limited now r0 cfg st Hcfg) as Hl. rewrite Hchk in Hl.
    simpl in Hl. destruct Hl as [Hok Hst].
    rewrite (Hp now) in Hok, Hst by lia.
    rewrite bool_decide_true by done. destruct ok; simpl.
    + rewrite cons_middle, (assoc_L (++)). apply (IH now); try done.
      * split.
        -- intros now' Hnow'. rewrite Hst. unfold prune at 1 3.
           rewrite !filter_app. f_equal. fold (prune now' (window_seconds cfg)
             (prune now (window_seconds cfg) prev)).
           by apply prune_prune.
        -- apply Forall_app. split; [done|]. constructor; [lia|done].
      * apply bounded_snoc; [done| |done].
        destruct (decide (max_requests cfg ≤ length (prune now (window_seconds cfg) prev))%nat)
          as [Hge|]; [|lia].
        apply Hok in Hge. done.
    + apply (IH now); try done. split; [|done].
      intros now' Hnow'. rewrite Hst. by apply prune_prune.
  - replace (ok && bool_decide (r = r0)) with false
      by (rewrite bool_decide_false by done; by destruct ok).
    simpl. apply (IH now); try done. split; [|done].
    intros now' Hnow'. unfold stored.
    replace st1 with (check_rate_limit now r st).2 by (by rewrite Hchk).
    rewrite check_other_key; [by apply Hp|].
    intros Heq. apply Hne. apply (Hkeys (now, r)); [by left|done].
Qed.

Lemma admitted_from_empty calls :
  Sorted Z.le calls.*1 →
  (∀ c, c ∈ calls → rate_key c.2 = rate_key r0 → c.2 = r0) →
  bounded (admitted r0 calls ∅).
Proof.
  intros Hs Hkeys. destruct calls as [|[t r] rest] eqn:Hcalls.
  { intros lo hi _. simpl. lia. }
  rewrite <-Hcalls in *. change (admitted r0 calls ∅) with ([] ++ admitted r0 calls ∅).
  apply (admitted_bounded calls t).
  - constructor; [done|]. rewrite Hcalls. simpl. by constructor.
  - done.
  - split; [done|constructor].
  - intros lo hi _. simpl. lia.
Qed.

(** Run invariants, established call by call. *)
Lemma run_invariant (P : gmap string entry → Prop) calls st :
  (∀ now r st, (now, r) ∈ calls → P st → P (check_rate_limit now r st).2) →
  P st → P (run calls st).2.
Proof.
  revert st. induction calls as [|[now r] rest IH]; intros st Hstep HP; [done|].
  simpl. destruct (check_rate_limit now r st) as [ok st1] eqn:Hchk.
  specialize (IH st1). destruct (run rest st1) as [oks st2]. simpl in *.
  apply IH.
  - intros now' r' st' Hin. apply Hstep. by right.
  - replace st1 with (check_rate_limit now r st).2 by (by rewrite Hchk).
    apply Hstep; [by left|done].
Qed.

Lemma stored_after_check now r st :
  (rate_key r = rate_key r0 → r = r0) →
  ∃ ok : bool, stored (rate_key r0) (check_rate_limit now r st).2 =
        if ok then prune now (window_seconds cfg) (stored (rate_key r0) st) ++ [now]
        else if decide (r = r0) then prune now (window_seconds cfg) (stored (rate_key r0) st)
        else stored (rate_key r0) st.
Proof.
  intros Hkey. destruct (decide (r = r0)) as [->|Hne].
  - pose proof (check_limited now r0 cfg st Hcfg) as Hl.
    destruct (check_rate_limit now r0 st) as [ok st1]. simpl in *.
    destruct Hl as [_ ->]. exists ok. by destruct ok.
  - exists false. unfold stored. rewrite check_other_key; [done|]. naive_solver.
Qed.

Lemma stored_from_calls calls :
  (∀ c, c ∈ calls → rate_key c.2 = rate_key r0 → c.2 = r0) →
  Forall (λ t, t ∈ calls.*1) (stored (rate_key r0) (run calls ∅).2).
Proof.
  intros Hkeys.
  apply (run_invariant (λ st, Forall (λ t, t ∈ calls.*1) (stored (rate_key r0) st))).
  - intros now r st Hin HP.
    destruct (stored_after_check now r st) as [ok Hst].
    { apply (Hkeys (now, r) Hin). }
    rewrite Hst. destruct ok; [|destruct (decide (r = r0))].
    + apply Forall_app. split.
      * unfold prune. by apply Forall_filter_keep.
      * constructor; [|done]. apply (list_elem_of_fmap_2 fst _ (now, r)) in Hin. done.
    + unfold prune. by apply Forall_filter_keep.
    + done.
  - unfold stored. rewrite lookup_empty. constructor.
Qed.

Lemma stored_length calls :
  (∀ c, c ∈ calls → rate_key c.2 = rate_key r0 → c.2 = r0) →
  (0 < max_requests cfg)%nat →
  (length (stored (rate_key r0) (run calls ∅).2) ≤ max_requests cfg)%nat.
Proof.
  intros Hkeys Hpos.
  apply (run_invariant
           (λ st, (length (stored (rate_key r0) st) ≤ max_requests cfg)%nat)).
  - intros now r st Hin HP.
    pose proof (length_filter (λ req_time : Z,
      (now - timedelta_seconds (window_seconds cfg) < req_time)%Z)
      (stored (rate_key r0) st)) as Hf. fold (prune now (window_seconds cfg)
      (stored (rate_key r0) st)) in Hf.
    destruct (decide (r = r0)) as [->|Hne].
    + pose proof (check_limited now r0 cfg st Hcfg) as Hl.
      destruct (check_rate_limit now r0 st) as [ok st1]. simpl in *.
      destruct Hl as [Hok ->]. destruct ok; [|lia].
      rewrite length_app. simpl.
      destruct (decide (max_requests cfg ≤
        length (prune now (window_seconds cfg) (stored (rate_key r0) st)))%nat) as [Hge|]; [|lia].
      by apply Hok in Hge.
    + unfold stored. rewrite check_other_key; [done|].
      intros Heq. apply Hne, (Hkeys (now, r) Hin). done.
  - unfold stored. rewrite lookup_empty. simpl. lia.
Qed.

End OneClient.

(** C5. Calls of one client to a path governed by the '/upload' rule (5 per
    60 s), interleaved with any other traffic and taken in chronological
    order from a fresh store: (1) no time interval shorter than 60 seconds
    contains more than 5 admitted calls; (2) a call is rejected exactly when
    the timestamps that survive pruning already number 5; (3) a call made
    once 60 seconds have passed since every earlier call is admitted, and so
    is a call made once the oldest timestamp still stored is 60 seconds old. *)
Theorem upload_rate_limit (r0 : request) (calls : list (Z * request)) :
  limit_config (url_path r0) = Some (Limit 5 60) →
  Sorted Z.le calls.*1 →
  (∀ c, c ∈ calls → rate_key c.2 = rate_key r0 → c.2 = r0) →
  (∀ lo hi, hi - lo < timedelta_seconds 60 →
     (length (in_window lo hi (admitted r0 calls ∅)) ≤ 5)%nat) ∧
  (∀ now st,
     (check_rate_limit now r0 st).1 = false ↔
     (5 ≤ length (prune now 60 (stored (rate_key r0) st)))%nat) ∧
  (∀ now,
     Forall (λ t, t + timedelta_seconds 60 ≤ now) calls.*1 →
     (check_rate_limit now r0 (run calls ∅).2).1 = true) ∧
  (∀ now oldest,
     head (stored (rate_key r0) (run calls ∅).2) = Some oldest →
     oldest + timedelta_seconds 60 ≤ now →
     (check_rate_limit now r0 (run calls ∅).2).1 = true).
Proof.
  intros Hcfg Hs Hkeys.
  assert (∀ now st, (check_rate_limit now r0 st).1 = false ↔
     (5 ≤ length (prune now 60 (stored (rate_key r0) st)))%nat) as Hrej.
  { intros now st. pose proof (check_limited now r0 _ st Hcfg) as Hl.
    destruct (check_rate_limit now r0 st). simpl in *. tauto. }
  assert (∀ now st, (length (prune now 60 (stored (rate_key r0) st)) < 5)%nat →
     (check_rate_limit now r0 st).1 = true) as Hadm.
  { intros now st Hlt. destruct ((check_rate_limit now r0 st).1) eqn:E; [done|].
    apply Hrej in E. lia. }
  split; [|split; [|split]].
  - apply (admitted_from_empty r0 (Limit 5 60) Hcfg calls Hs Hkeys).
  - done.
  - intros now Hold. apply Hadm.
    pose proof (stored_from_calls r0 (Limit 5 60) Hcfg calls Hkeys) as Hst.
    replace (prune now 60 (stored (rate_key r0) (run calls ∅).2)) with (@nil Z);
      [simpl; lia|].
    symmetry. unfold prune. apply filter_none.
    rewrite Forall_forall in Hst, Hold |- *.
    intros t Ht. specialize (Hold t (Hst t Ht)). simpl in *. lia.
  - intros now oldest Hhead Hold. apply Hadm.
    pose proof (stored_length r0 (Limit 5 60) Hcfg calls Hkeys) as Hlen.
    simpl in Hlen. specialize (Hlen ltac:(lia)).
    destruct (stored (rate_key r0) (run calls ∅).2) as [|t ts]; [done|].
    injection Hhead as ->. unfold prune. rewrite filter_cons.
    destruct (decide _) as [Hin|_]; [simpl in *; lia|].
    pose proof (length_filter (λ req_time : Z,
      (now - timedelta_seconds 60 < req_time)%Z) ts). simpl in *. lia.
Qed.

Definition upload_client : request := Request "/api/upload" (Some "10.0.0.1").
Definition other_client : request := Request "/api/upload" (Some "10.0.0.2").

(** Six calls within six seconds, a stranger in between, and a seventh call
    a minute later. *)
Definition burst : list (Z * request) :=
  [ (0, upload_client); (1000000, upload_client); (1500000, other_client);
    (2000000, upload_client); (3000000, upload_client); (4000000, upload_client);
    (5000000, upload_client); (61000000, upload_client) ].

Example burst_verdicts :
  (run burst ∅).1 = [true; true; true; true; true; true; false; true].
Proof. vm_compute. reflexivity. Qed.

(** The bound is about intervals shorter than the window: five calls at
    instant 0 and one exactly 60 s later are all admitted. *)
Example closed_minute_holds_six :
  admitted upload_client
    [ (0, upload_client); (0, upload_client); (0, upload_client);
      (0, upload_client); (0, upload_client); (60000000, upload_client) ] ∅
  = [0; 0; 0; 0; 0; 60000000].
Proof. vm_compute. reflexivity. Qed.

Lemma upload_rate_limit_witness :
  (∀ lo hi, hi - lo < timedelta_seconds 60 →
     (length (in_window lo hi (admitted upload_client burst ∅)) ≤ 5)%nat) ∧
  (∀ now st,
     (check_rate_limit now upload_client st).1 = false ↔
     (5 ≤ length (prune now 60 (stored (rate_key upload_client) st)))%nat) ∧
  (∀ now,
     Forall (λ t, t + timedelta_seconds 60 ≤ now) burst.*1 →
     (check_rate_limit now upload_client (run burst ∅).2).1 = true) ∧
  (∀ now oldest,
     head (stored (rate_key upload_client) (run burst ∅).2) = Some oldest →
     oldest + timedelta_seconds 60 ≤ now →
     (check_rate_limit now upload_client (run burst ∅).2).1 = true).
Proof.
  apply (upload_rate_limit upload_client burst).
  - reflexivity.
  - simpl. repeat (constructor; [|try (constructor; lia)]). constructor.
  - intros c Hc. unfold burst in Hc.
    repeat (apply elem_of_cons in Hc as [->|Hc]); try reflexivity;
      try (intros Hk; vm_compute in Hk; discriminate Hk).
    by apply elem_of_nil in Hc.
Defined.

End RateLimitFacts.

(* ===================================================================== *)
(** * Facts about handlers/optimize.py *)
(* ===================================================================== *)

Module OptimizeFacts.
Import Optimize.

Section DictFacts.
Context {V : Type}.
Implicit Types d : list (string * V).

Lemma set_length k v d :
  length (Dict.set k v d) = if Dict.mem k d then length d else S (length d).
Proof.
  induction d as [|[k' v'] d IH]; [done|]. simpl.
  destruct (String.eqb k k'); [done|]. simpl. rewrite IH. by destruct (Dict.mem k d).
Qed.

Lemma set_length_le k v d : (length (Dict.set k v d) ≤ S (length d))%nat.
Proof. rewrite set_length. destruct (Dict.mem k d); lia. Qed.

(** A key that is not in the dictionary is appended at the end. *)
Lemma set_fresh k v d : Dict.mem k d = false → Dict.set k v d = d ++ [(k, v)].
Proof.
  induction d as [|[k' v'] d IH]; [done|]. simpl.
  destruct (String.eqb k k'); [done|]. intros Hm. by rewrite IH.
Qed.

Lemma del_first_key d k : Dict.first_key d = Some k → Dict.del k d = tail d.
Proof.
  destruct d as [|[k' v'] d]; [done|]. simpl. intros [= ->].
  by rewrite String.eqb_refl.
Qed.

Lemma mem_get k d : Dict.mem k d = bool_decide (is_Some (Dict.get k d)).
Proof.
  induction d as [|[k' v'] d IH]; simpl.
  - done.
  - by destruct (String.eqb k k').
Qed.

End DictFacts.

Section Handler.
Context {Req Resp : Type}.
Variable _get_request_hash : Req → string.
Variable process : Req → option Resp.

#[local] Abbreviation state := (@state Resp).
#[local] Abbreviation optimize_layout := (optimize_layout _get_request_hash process).
#[local] Abbreviation serve := (serve _get_request_hash process).

(** What [cache_result] does, case by case. *)
Lemma cache_result_spec h (result : Resp) results :
  cache_result h result results =
    if bool_decide (10 < length (Dict.set h result results))%nat
    then tail (Dict.set h result results)
    else Dict.set h result results.
Proof.
  unfold cache_result. case_bool_decide; [|done].
  destruct (Dict.set h result results) as [|[k v] d] eqn:E; [done|].
  simpl. by rewrite String.eqb_refl.
Qed.

Lemma cache_result_bounded h (result : Resp) results :
  (length results ≤ 10)%nat → (length (cache_result h result results) ≤ 10)%nat.
Proof.
  intros Hlen. rewrite cache_result_spec.
  pose proof (set_length_le h result results).
  case_bool_decide; [|lia].
  destruct (Dict.set h result results); simpl in *; lia.
Qed.

(** A full cache and a new fingerprint: the oldest entry leaves, the new
    one queues up last, everything else keeps its place. *)
Lemma cache_result_fifo h (result : Resp) oldest results :
  length (oldest :: results) = 10%nat →
  Dict.mem h (oldest :: results) = false →
  cache_result h result (oldest :: results) = results ++ [(h, result)].
Proof.
  intros Hlen Hm. rewrite cache_result_spec, set_fresh by done.
  rewrite bool_decide_true; [done|]. rewrite length_app. simpl in *. lia.
Qed.

(** Below the cap, or on an overwrite, nothing is evicted. *)
Lemma cache_result_no_eviction h (result : Resp) results :
  (length results < 10)%nat ∨ ((length results ≤ 10)%nat ∧ Dict.mem h results = true) →
  cache_result h result results = Dict.set h result results.
Proof.
  intros Hcase. rewrite cache_result_spec. rewrite bool_decide_false; [done|].
  rewrite set_length. destruct Hcase as [?|[? ->]]; [destruct (Dict.mem h results)|]; lia.
Qed.

Definition bounded (st : state) : Prop := (length (_request_results st) ≤ 10)%nat.

Lemma step_bounded st st' : step st st' → bounded st → bounded st'.
Proof.
  unfold bounded. intros Hstep Hb. destruct Hstep as [h st|h result st|h st]; simpl.
  - unfold begin_request. destruct (Dict.get h (_request_results st)); [done|].
    by case_bool_decide.
  - by apply cache_result_bounded.
  - done.
Qed.

Lemma optimize_layout_bounded request st :
  bounded st → bounded (optimize_layout request st).2.
Proof.
  intros Hb. unfold Optimize.optimize_layout.
  pose proof (step_bounded st _ (step_begin (_get_request_hash request) st) Hb) as Hb1.
  destruct (begin_request (_get_request_hash request) st) as [[early|] st1]; simpl in *;
    [done|].
  destruct (process request) as [result|]; simpl.
  - by apply cache_result_bounded.
  - done.
Qed.

Lemma serve_bounded requests : ∀ st, bounded st → bounded (serve requests st).2.
Proof.
  induction requests as [|r rest IH]; intros st Hb; [done|]. simpl.
  pose proof (optimize_layout_bounded r st Hb) as Hb1.
  destruct (optimize_layout r st) as [a st1]. specialize (IH st1 Hb1).
  by destruct (serve rest st1).
Qed.

(** The handler inserts only fingerprints that are not cached yet. *)
Lemma optimize_layout_inserts_fresh request st result :
  (optimize_layout request st).1 = Http200 result →
  Dict.get (_get_request_hash request) (_request_results st) = Some result ∧
    (optimize_layout request st).2 = st
  ∨ Dict.mem (_get_request_hash request) (_request_results st) = false ∧
    process request = Some result ∧
    _request_results (optimize_layout request st).2 =
      cache_result (_get_request_hash request) result (_request_results st).
Proof.
  unfold Optimize.optimize_layout, begin_request.
  destruct (Dict.get _ (_request_results st)) as [cached|] eqn:Hget; simpl.
  { intros [= ->]. by left. }
  assert (Dict.mem (_get_request_hash request) (_request_results st) = false) as Hm.
  { rewrite mem_get, Hget. apply bool_decide_false. by intros [? ?]. }
  case_bool_decide; simpl; [done|].
  destruct (process request) as [r|]; simpl; [|done].
  intros [= ->]. by right.
Qed.

End Handler.

(** C6. After every insert the completed-result cache holds at most 10
    entries, along any sequence of requests and along any interleaving of
    the lock-guarded blocks; an insert that would exceed 10 entries drops
    exactly the first entry in insertion order, the others keep their
    order; the other stores have no such rule: in the expiring cache of
    utils/cache.py an insert or a lookup leaves every other key as it was,
    whatever the size, and so does a call of the rate limiter in its
    store. *)
Theorem result_cache_bounded {Req Resp : Type}
    (_get_request_hash : Req → string) (process : Req → option Resp) :
  (∀ requests,
     (length (_request_results (serve _get_request_hash process requests initial).2)
        ≤ 10)%nat) ∧
  (∀ st : @state Resp, rtc step initial st → (length (_request_results st) ≤ 10)%nat) ∧
  (∀ h result (results : list (string * Resp)),
     cache_result h result results =
       if bool_decide (10 < length (Dict.set h result results))%nat
       then tail (Dict.set h result results)
       else Dict.set h result results) ∧
  (∀ h result oldest (results : list (string * Resp)),
     length (oldest :: results) = 10%nat →
     Dict.mem h (oldest :: results) = false →
     cache_result h result (oldest :: results) = results ++ [(h, result)]) ∧
  (∀ now key v ttl (c : gmap string Cache.entry) k',
     k' ≠ key → Cache.set_cached now key v ttl c !! k' = c !! k') ∧
  (∀ now key (c : gmap string Cache.entry) k',
     k' ≠ key → (Cache.get_cached now key c).2 !! k' = c !! k') ∧
  (∀ now r (st : gmap string RateLimit.entry) key,
     RateLimit.rate_key r ≠ key →
     (RateLimit.check_rate_limit now r st).2 !! key = st !! key).
Proof.
  split; [|split; [|split; [|split; [|split; [|split]]]]].
  - intros requests. apply serve_bounded. unfold bounded. simpl. lia.
  - apply (rtc_ind_r (λ st : @state Resp, bounded st) initial).
    + unfold bounded. simpl. lia.
    + intros st st' _ Hstep Hb. by eapply step_bounded.
  - apply cache_result_spec.
  - apply cache_result_fifo.
  - intros. by apply CacheFacts.set_cached_other.
  - intros. by apply CacheFacts.get_cached_other.
  - intros. by apply RateLimitFacts.check_other_key.
Qed.

(** Twelve different requests: the two oldest results are gone. *)
Definition digits : list string :=
  ["0"; "1"; "2"; "3"; "4"; "5"; "6"; "7"; "8"; "9"; "10"; "11"].

Example twelve_requests :
  (_request_results (serve (λ h : string, h) (λ h, Some h) digits initial).2).*1
  = ["2"; "3"; "4"; "5"; "6"; "7"; "8"; "9"; "10"; "11"].
Proof. vm_compute. reflexivity. Qed.

Lemma result_cache_bounded_witness :
  (length (_request_results
     (serve (λ h : string, h) (λ h, Some h) digits initial).2) ≤ 10)%nat ∧
  (length (_request_results
     (finish_success "a" "r" (begin_request (Resp:=string) "a" initial).2)) ≤ 10)%nat.
Proof.
  destruct (result_cache_bounded (λ h : string, h) (λ h : string, Some h))
    as (Hserve & Hreach & _).
  split; [apply Hserve|]. apply Hreach.
  eapply rtc_l; [apply (step_begin "a")|].
  eapply rtc_l; [apply (step_success "a" "r")|]. apply rtc_refl.
Defined.

End OptimizeFacts.

(* ===================================================================== *)
(** * Facts about the numeric helpers *)
(* ===================================================================== *)

Module PyFacts.
#[local] Open Scope Q_scope.

Lemma ltb_lt a b : Py.ltb a b = true ↔ a < b.
Proof.
  unfold Py.ltb. rewrite negb_true_iff, <-not_true_iff_false, Qle_bool_iff.
  split; [apply Qnot_le_lt|apply Qlt_not_le].
Qed.

Lemma ltb_ge a b : Py.ltb a b = false ↔ b <= a.
Proof. unfold Py.ltb. by rewrite negb_false_iff, Qle_bool_iff. Qed.

Lemma leb_le a b : Py.leb a b = true ↔ a <= b.
Proof. apply Qle_bool_iff. Qed.

Lemma div_Some a b : ¬ b == 0 → Py.div a b = Some (a / b).
Proof.
  intros Hb. unfold Py.div. destruct (Qeq_bool b 0) eqn:E; [|done].
  by apply Qeq_bool_iff in E.
Qed.

Lemma div_None a b : b == 0 → Py.div a b = None.
Proof.
  intros Hb. unfold Py.div. apply Qeq_bool_iff in Hb. by rewrite Hb.
Qed.

Lemma range_elem a b k : k ∈ Py.range a b ↔ (a ≤ k < b)%Z.
Proof.
  unfold Py.range. rewrite list_elem_of_fmap. split.
  - intros (n & -> & Hn). apply elem_of_seq in Hn. lia.
  - intros Hk. exists (Z.to_nat (k - a)). split; [lia|]. apply elem_of_seq. lia.
Qed.

Lemma for_each_nil {A S} (body : A → S → option S) s : Py.for_each [] body s = Some s.
Proof. done. Qed.

(** A loop whose body keeps an invariant and never raises. *)
Lemma for_each_invariant {A S} (P : S → Prop) (xs : list A)
    (body : A → S → option S) (s : S) :
  (∀ x s, x ∈ xs → P s → ∃ s', body x s = Some s' ∧ P s') →
  P s → ∃ s', Py.for_each xs body s = Some s' ∧ P s'.
Proof.
  revert s. induction xs as [|x xs IH]; intros s Hbody HP; [by exists s|].
  simpl. destruct (Hbody x s) as (s1 & -> & HP1); [by left|done|]. simpl.
  apply IH; [|done]. intros y s' Hy. apply Hbody. by right.
Qed.

End PyFacts.

Module RasterFacts.
#[local] Open Scope Q_scope.

Lemma get_lt (r : list (list Q)) i j :
  Raster.rectangular r → (i < (Raster.shape r).1)%nat → (j < (Raster.shape r).2)%nat →
  is_Some (Raster.get r i j).
Proof.
  intros Hrect Hi Hj. unfold Raster.get.
  destruct (lookup_lt_is_Some_2 r i Hi) as [row Hrow]. rewrite Hrow. simpl.
  apply lookup_lt_is_Some_2.
  unfold Raster.rectangular in Hrect. rewrite Forall_forall in Hrect.
  rewrite (Hrect row); [done|]. by eapply list_elem_of_lookup_2.
Qed.

Lemma sum_zeros n m : Raster.sum (replicate n (replicate m 0)) = 0.
Proof.
  unfold Raster.sum. induction n as [|n IH]; [done|]. simpl.
  rewrite foldr_app, IH. clear IH. by induction m as [|m IH]; [|simpl; rewrite IH].
Qed.

Lemma get_zip_with (f : Q → Q → Q) (a b : list (list Q)) i j :
  Raster.get (zip_with (zip_with f) a b) i j =
    (x ← Raster.get a i j; y ← Raster.get b i j; Some (f x y)).
Proof.
  unfold Raster.get. rewrite lookup_zip_with.
  destruct (a !! i) as [ra|]; simpl; [|done].
  destruct (b !! i) as [rb|]; simpl.
  - rewrite lookup_zip_with. by destruct (ra !! j), (rb !! j).
  - by destruct (ra !! j).
Qed.

Lemma get_cells (r : list (list Q)) i j v :
  Raster.get r i j = Some v → v ∈ Raster.cells r.
Proof.
  unfold Raster.get, Raster.cells. destruct (r !! i) as [row|] eqn:Hrow; [|done].
  simpl. intros Hv. apply list_elem_of_In, in_concat. exists row.
  split; apply list_elem_of_In; by eapply list_elem_of_lookup_2.
Qed.

End RasterFacts.

(* ===================================================================== *)
(** * Facts about services/cutfill_calculator.py *)
(* ===================================================================== *)

Module CutFillFacts.
Import CutFill.
#[local] Open Scope Q_scope.

(** The proposed grid holds, at every cell of the DEM, an equal elevation. *)
Definition agree (dem proposed_dem : list (list Q)) : Prop :=
  ∀ i j e, Raster.get dem i j = Some e →
    ∃ v, Raster.get proposed_dem i j = Some v ∧ v == e.

Lemma cell_cut_fill_same e v : v == e → cell_cut_fill e v = (0, 0).
Proof.
  intros Heq. unfold cell_cut_fill.
  assert (Py.ltb v e = false) as -> by (apply PyFacts.ltb_ge; lra).
  assert (Py.ltb e v = false) as -> by (apply PyFacts.ltb_ge; lra). done.
Qed.

Lemma cell_cut_fill_nonneg e v :
  0 <= (cell_cut_fill e v).1 ∧ 0 <= (cell_cut_fill e v).2.
Proof.
  unfold cell_cut_fill.
  destruct (Py.ltb v e) eqn:E1; [apply PyFacts.ltb_lt in E1; simpl; lra|].
  destruct (Py.ltb e v) eqn:E2; [apply PyFacts.ltb_lt in E2; simpl; lra|].
  simpl. lra.
Qed.

(** Baseline only: the proposed grid is the baseline itself. *)
Lemma create_proposed_dem_baseline grid_resolution d baseline dem_shape bounds :
  given d = false →
  _create_proposed_dem grid_resolution (Grades d (Some baseline) [] []) dem_shape bounds
  = Some baseline.
Proof.
  intros Hd. unfold _create_proposed_dem. destruct bounds as [[[minx miny] maxx] maxy].
  simpl. by rewrite Hd.
Qed.

Section Masked.
Context {Polygon : Type}.
Variable grid_resolution : Q.
Variable is_empty : Polygon → bool.
Variable contains : Polygon → Q * Q → bool.
Variable area : Polygon → Q.

#[local] Abbreviation calculate_volumes :=
  (calculate_volumes grid_resolution is_empty contains area).

Lemma volumes_of_equal_grids dem proposed_grades bounds property_boundary proposed_dem :
  Raster.rectangular dem →
  _create_proposed_dem grid_resolution proposed_grades (Raster.shape dem) bounds
    = Some proposed_dem →
  agree dem proposed_dem →
  ∃ r, calculate_volumes dem proposed_grades bounds property_boundary = Some r ∧
       cut_map r = Raster.zeros (Raster.shape dem) ∧
       fill_map r = Raster.zeros (Raster.shape dem) ∧
       cut_volume_ft3 r == 0 ∧ fill_volume_ft3 r == 0 ∧ net_volume_ft3 r == 0 ∧
       cut_volume_yd3 r == 0 ∧ fill_volume_yd3 r == 0 ∧ net_volume_yd3 r == 0.
Proof.
  intros Hrect Hprop Hagree. unfold CutFill.calculate_volumes.
  rewrite Hprop. cbn [mbind option_bind].
  assert (mapM (λ i, mapM (cell_volumes grid_resolution is_empty contains dem
                             proposed_dem bounds property_boundary i)
                          (seq 0 (Raster.shape dem).2))
               (seq 0 (Raster.shape dem).1)
          = Some (replicate (Raster.shape dem).1
                            (replicate (Raster.shape dem).2 (0, 0)))) as Hcells.
  { apply mapM_Some. apply Forall2_replicate_r; [by rewrite length_seq|].
    apply Forall_forall. intros i Hi. apply elem_of_seq in Hi.
    apply mapM_Some. apply Forall2_replicate_r; [by rewrite length_seq|].
    apply Forall_forall. intros j Hj. apply elem_of_seq in Hj.
    unfold flip, cell_volumes. destruct bounds as [[[minx miny] maxx] maxy].
    destruct (RasterFacts.get_lt dem i j Hrect) as [e He]; [lia..|].
    destruct (Hagree i j e He) as (v & Hv & Hve). rewrite He, Hv. simpl.
    rewrite (cell_cut_fill_same e v Hve).
    by destruct (masking is_empty property_boundary); [destruct (negb _)|]. }
  rewrite Hcells. cbn [mbind option_bind]. eexists. split; [done|]. simpl.
  rewrite !fmap_replicate. unfold Raster.zeros. simpl.
  rewrite !RasterFacts.sum_zeros.
  repeat split; unfold Qdiv; ring.
Qed.

(** Whatever the grids, the maps written by [calculate_volumes] hold no
    negative depth. *)
Lemma volumes_maps_nonneg dem proposed_grades bounds property_boundary r :
  calculate_volumes dem proposed_grades bounds property_boundary = Some r →
  Forall (λ cut, 0 <= cut) (Raster.cells (cut_map r)) ∧
  Forall (λ fill, 0 <= fill) (Raster.cells (fill_map r)).
Proof.
  unfold CutFill.calculate_volumes.
  destruct (_create_proposed_dem _ _ _ _) as [proposed_dem|]; [|done].
  cbn [mbind option_bind].
  destruct (mapM _ _) as [cells|] eqn:Hcells; [|done].
  cbn [mbind option_bind]. intros [= <-]. simpl.
  assert (Forall (Forall (λ c : Q * Q, 0 <= c.1 ∧ 0 <= c.2)) cells) as Hnn.
  { apply mapM_Some_1 in Hcells.
    eapply Forall2_Forall_r; [exact Hcells|].
    apply Forall_forall. intros i _ row Hrow. apply mapM_Some_1 in Hrow.
    eapply Forall2_Forall_r; [exact Hrow|].
    apply Forall_forall. intros j _ c Hc. unfold cell_volumes in Hc.
    destruct bounds as [[[minx miny] maxx] maxy].
    destruct (Raster.get dem i j) as [e|]; [|done].
    destruct (Raster.get proposed_dem i j) as [v|]; [|done]. simpl in Hc.
    pose proof (cell_cut_fill_nonneg e v).
    destruct (masking is_empty property_boundary); [destruct (negb _)|];
      injection Hc as <-; simpl; (done || lra). }
  unfold Raster.cells. split; apply Forall_concat, Forall_fmap;
    (eapply Forall_impl; [exact Hnn|]); intros row Hrow; apply Forall_fmap;
    (eapply Forall_impl; [exact Hrow|]); simpl; tauto.
Qed.

End Masked.

(** C7. When the proposed grid equals the existing DEM at every cell, cut,
    fill and net volume are 0, in cubic feet and in cubic yards, with or
    without a boundary mask. *)
Theorem cut_fill_identity {Polygon : Type} (grid_resolution : Q)
    (is_empty : Polygon → bool) (contains : Polygon → Q * Q → bool)
    (area : Polygon → Q)
    (dem : list (list Q)) (proposed_grades : grades) (bounds : Q * Q * Q * Q)
    (property_boundary : option Polygon) (proposed_dem : list (list Q)) :
  Raster.rectangular dem →
  _create_proposed_dem grid_resolution proposed_grades (Raster.shape dem) bounds
    = Some proposed_dem →
  agree dem proposed_dem →
  ∃ r, calculate_volumes grid_resolution is_empty contains area
         dem proposed_grades bounds property_boundary = Some r ∧
       cut_volume_ft3 r == 0 ∧ fill_volume_ft3 r == 0 ∧ net_volume_ft3 r == 0 ∧
       cut_volume_yd3 r == 0 ∧ fill_volume_yd3 r == 0 ∧ net_volume_yd3 r == 0.
Proof.
  intros Hrect Hprop Hagree.
  destruct (volumes_of_equal_grids grid_resolution is_empty contains area
              dem proposed_grades bounds property_boundary proposed_dem
              Hrect Hprop Hagree) as (r & Hr & _ & _ & H).
  by exists r.
Qed.

(** The instance named in the claim: the existing DEM handed in as
    baseline, no default elevation, no pads, no roads. *)
Lemma cut_fill_identity_baseline {Polygon : Type} (grid_resolution : Q)
    (is_empty : Polygon → bool) (contains : Polygon → Q * Q → bool)
    (area : Polygon → Q) (dem : list (list Q)) (bounds : Q * Q * Q * Q)
    (property_boundary : option Polygon) :
  Raster.rectangular dem →
  ∃ r, calculate_volumes grid_resolution is_empty contains area
         dem (Grades None (Some dem) [] []) bounds property_boundary = Some r ∧
       cut_volume_ft3 r == 0 ∧ fill_volume_ft3 r == 0 ∧ net_volume_ft3 r == 0 ∧
       cut_volume_yd3 r == 0 ∧ fill_volume_yd3 r == 0 ∧ net_volume_yd3 r == 0.
Proof.
  intros Hrect.
  destruct (volumes_of_equal_grids grid_resolution is_empty contains area
              dem (Grades None (Some dem) [] []) bounds property_boundary dem Hrect)
    as (r & Hr & _ & _ & H).
  - by apply create_proposed_dem_baseline.
  - intros i j e He. exists e. split; [done|reflexivity].
  - by exists r.
Qed.

Definition sample_dem : list (list Q) := [[100; 101]; [102; 103 # 2]].

Lemma cut_fill_identity_witness :
  ∃ r, calculate_volumes 10 (λ _ : unit, false) (λ _ _, true) (λ _, 1)
         sample_dem (Grades None (Some sample_dem) [] []) (0, 0, 1, 1) (Some ())
       = Some r ∧
       cut_volume_ft3 r == 0 ∧ fill_volume_ft3 r == 0 ∧ net_volume_ft3 r == 0 ∧
       cut_volume_yd3 r == 0 ∧ fill_volume_yd3 r == 0 ∧ net_volume_yd3 r == 0.
Proof.
  apply (cut_fill_identity 10 (λ _ : unit, false) (λ _ _, true) (λ _, 1)
           sample_dem (Grades None (Some sample_dem) [] []) (0, 0, 1, 1) (Some ())
           sample_dem).
  - repeat constructor.
  - reflexivity.
  - intros i j e He. exists e. split; [exact He|reflexivity].
Defined.

(** Spec example: one 10 ft cell lowered from 100 to 90. *)
Example single_cell_cut :
  (λ r, (cut_volume_ft3 r, fill_volume_ft3 r, cut_map r)) <$>
    calculate_volumes 10 (λ _ : unit, false) (λ _ _, true) (λ _, 1)
      [[100]] (Grades (Some 90) None [] []) (0, 0, 1, 1) None
  = Some (1000, 0, [[10]]).
Proof. vm_compute. reflexivity. Qed.

End CutFillFacts.

(* ===================================================================== *)
(** * Facts about generate_visualization_map *)
(* ===================================================================== *)

Module VisualizationFacts.
Import CutFill.
#[local] Open Scope Q_scope.

Lemma classify_values cut fill :
  classify cut fill ∈ [0; 1; 2; 3].
Proof.
  unfold classify.
  destruct (Py.ltb (Qabs (cut - fill)) (1 # 10)), (Py.ltb 0 fill), (Py.ltb 0 cut);
    set_solver.
Qed.

Lemma classify_both_zero cut fill : cut == 0 → fill == 0 → classify cut fill = 3.
Proof.
  intros Hc Hf. unfold classify.
  assert (Py.ltb (Qabs (cut - fill)) (1 # 10) = true) as ->; [|done].
  apply PyFacts.ltb_lt. rewrite Hc, Hf. reflexivity.
Qed.

Lemma classify_nonneg cut fill : 0 <= cut → 0 <= fill → ¬ classify cut fill == 0.
Proof.
  intros Hc Hf. unfold classify.
  destruct (Py.ltb (Qabs (cut - fill)) (1 # 10)) eqn:Hbal; [done|].
  destruct (Py.ltb 0 fill) eqn:Hfill; [done|].
  destruct (Py.ltb 0 cut) eqn:Hcut; [done|].
  apply PyFacts.ltb_ge in Hbal, Hfill, Hcut.
  assert (cut == 0) as Hc0 by lra. assert (fill == 0) as Hf0 by lra.
  rewrite Hc0, Hf0 in Hbal. by apply Qle_not_lt in Hbal.
Qed.

(** A cell is labelled 0 only if a depth is negative. *)
Lemma classify_zero_only_if_negative cut fill :
  classify cut fill == 0 → cut < 0 ∨ fill < 0.
Proof.
  intros Hz. destruct (Qlt_le_dec cut 0) as [?|Hc]; [by left|].
  destruct (Qlt_le_dec fill 0) as [?|Hf]; [by right|].
  by destruct (classify_nonneg cut fill Hc Hf).
Qed.

Lemma visualization_cell cut_map fill_map viz i j :
  generate_visualization_map cut_map fill_map = Some viz →
  Raster.get viz i j =
    (cut ← Raster.get cut_map i j; fill ← Raster.get fill_map i j;
     Some (classify cut fill)).
Proof.
  unfold generate_visualization_map. case_bool_decide; [|done].
  intros [= <-]. apply RasterFacts.get_zip_with.
Qed.

(** C9, as the code has it. For cut and fill rasters of one shape the map
    is produced; every cell whose cut and fill depth are both 0 is
    labelled 3; and if no depth is negative, which is what
    [calculate_volumes] writes, no cell of the map is 0. *)
Theorem visualization_never_unchanged (cut_map fill_map : list (list Q)) :
  length <$> cut_map = length <$> fill_map →
  ∃ viz, generate_visualization_map cut_map fill_map = Some viz ∧
    (∀ i j cut fill,
       Raster.get cut_map i j = Some cut → Raster.get fill_map i j = Some fill →
       cut == 0 → fill == 0 → Raster.get viz i j = Some 3) ∧
    (Forall (λ cut, 0 <= cut) (Raster.cells cut_map) →
     Forall (λ fill, 0 <= fill) (Raster.cells fill_map) →
     ∀ i j v, Raster.get viz i j = Some v → ¬ v == 0).
Proof.
  intros Hshape.
  assert (generate_visualization_map cut_map fill_map
          = Some (zip_with (zip_with classify) cut_map fill_map)) as Hviz.
  { unfold generate_visualization_map. by rewrite bool_decide_true. }
  eexists. split; [exact Hviz|]. split.
  - intros i j cut fill Hc Hf Hc0 Hf0.
    rewrite (visualization_cell _ _ _ i j Hviz), Hc, Hf. simpl.
    by rewrite classify_both_zero.
  - intros Hcut Hfill i j v.
    rewrite (visualization_cell _ _ _ i j Hviz).
    destruct (Raster.get cut_map i j) as [cut|] eqn:Hc; [|done].
    destruct (Raster.get fill_map i j) as [fill|] eqn:Hf; [|done].
    simpl. intros [= <-]. apply classify_nonneg.
    + rewrite Forall_forall in Hcut. by eapply Hcut, RasterFacts.get_cells.
    + rewrite Forall_forall in Hfill. by eapply Hfill, RasterFacts.get_cells.
Qed.

Lemma visualization_never_unchanged_witness :
  ∃ viz, generate_visualization_map [[0; 5]; [0; 2]] [[0; 0]; [3; 2]] = Some viz ∧
    (∀ i j cut fill,
       Raster.get [[0; 5]; [0; 2]] i j = Some cut →
       Raster.get [[0; 0]; [3; 2]] i j = Some fill →
       cut == 0 → fill == 0 → Raster.get viz i j = Some 3) ∧
    (Forall (λ cut, 0 <= cut) (Raster.cells [[0; 5]; [0; 2]]) →
     Forall (λ fill, 0 <= fill) (Raster.cells [[0; 0]; [3; 2]]) →
     ∀ i j v, Raster.get viz i j = Some v → ¬ v == 0).
Proof.
  apply (visualization_never_unchanged [[0; 5]; [0; 2]] [[0; 0]; [3; 2]]).
  reflexivity.
Defined.

Example visualization_sample :
  generate_visualization_map [[0; 5]; [0; 2]] [[0; 0]; [3; 2]]
  = Some [[3; 1]; [2; 3]].
Proof. vm_compute. reflexivity. Qed.

(** C9 as stated, for every pair of rasters, fails: a negative depth that
    is not within 0.1 of the other one leaves the cell at 0. *)
Lemma visualization_zero_for_negative_depth :
  generate_visualization_map [[-1]] [[0]] = Some [[0]] ∧
  ¬ (∀ cut_map fill_map viz,
       generate_visualization_map cut_map fill_map = Some viz →
       ∀ i j v, Raster.get viz i j = Some v → ¬ v == 0).
Proof.
  split; [vm_compute; reflexivity|].
  intros Hclaim.
  apply (Hclaim [[-1]] [[0]] [[0]] eq_refl 0%nat 0%nat 0 eq_refl). reflexivity.
Qed.

End VisualizationFacts.

(* ===================================================================== *)
(** * Facts about get_terrain_suitability_score *)
(* ===================================================================== *)

Module TerrainFacts.
Import Terrain.
#[local] Open Scope Q_scope.

(** Slope and aspect rasters on one grid, with slopes that are not negative
    and aspects between 0 and 360 degrees. *)
Definition valid_rasters (slope aspect : list (list Q)) : Prop :=
  Raster.rectangular slope ∧
  length <$> aspect = length <$> slope ∧
  Forall (λ s, 0 <= s) (Raster.cells slope) ∧
  Forall (λ a, 0 <= a <= 360) (Raster.cells aspect).

(** The scores in the words of the specification. *)
Definition spec_slope_score (slope : Q) : Q :=
  if Py.leb slope 15 then 1 - slope / 15 else 0.

Definition wrap_180 (diff : Q) : Q :=
  if Py.leb diff 180 then diff else 360 - diff.

Definition spec_aspect_score (aspect : Q) : Q :=
  1 - wrap_180 (Qabs (aspect - 180)) / 180.

(** The grid cell under a point: none when the point is outside the
    bounding box or its indices fall outside the raster. *)
Definition grid_cell (point : Q * Q) (slope : list (list Q))
    (bounds : Q * Q * Q * Q) (resolution : Q) : option (nat * nat) :=
  let '(minx, miny, maxx, maxy) := bounds in
  let '(x, y) := point in
  if in_bounds point bounds then
    let i := Py.int ((y - miny) / resolution) in
    let j := Py.int ((x - minx) / resolution) in
    if bool_decide (0 ≤ i < Z.of_nat (Raster.shape slope).1)%Z
       && bool_decide (0 ≤ j < Z.of_nat (Raster.shape slope).2)%Z
    then Some (Z.to_nat i, Z.to_nat j) else None
  else None.

Lemma slope_score_spec s : slope_score s = spec_slope_score s.
Proof.
  unfold slope_score, spec_slope_score, Py.ltb, Py.leb.
  by destruct (Qle_bool s 15).
Qed.

Lemma aspect_score_spec a : aspect_score a = spec_aspect_score a.
Proof.
  unfold aspect_score, spec_aspect_score, wrap_180, Py.ltb, Py.leb.
  by destruct (Qle_bool (Qabs (a - 180)) 180).
Qed.

Lemma slope_score_range s : 0 <= s → 0 <= slope_score s <= 1.
Proof.
  intros Hs. unfold slope_score. destruct (Py.ltb 15 s) eqn:E; [lra|].
  apply PyFacts.ltb_ge in E. unfold Qdiv. change (/ 15) with (1 # 15). lra.
Qed.

Lemma slope_score_steep s : 15 < s → slope_score s = 0.
Proof. intros Hs. unfold slope_score. apply PyFacts.ltb_lt in Hs. by rewrite Hs. Qed.

Lemma aspect_score_range a : 0 <= a <= 360 → 0 <= aspect_score a <= 1.
Proof.
  intros Ha. unfold aspect_score.
  assert (0 <= Qabs (a - 180) <= 180) as Hd.
  { split; [apply Qabs_nonneg|]. apply Qabs_Qle_condition. lra. }
  destruct (Py.ltb 180 (Qabs (a - 180))) eqn:E.
  - apply PyFacts.ltb_lt in E. lra.
  - unfold Qdiv. change (/ 180) with (1 # 180). lra.
Qed.

Lemma aspect_get slope aspect i j s :
  length <$> aspect = length <$> slope →
  Raster.get slope i j = Some s → is_Some (Raster.get aspect i j).
Proof.
  intros Hshape. unfold Raster.get.
  destruct (slope !! i) as [row|] eqn:Hrow; [|done]. simpl. intros Hs.
  assert ((length <$> aspect) !! i = Some (length row)) as Hlen.
  { by rewrite Hshape, list_lookup_fmap, Hrow. }
  rewrite list_lookup_fmap in Hlen.
  destruct (aspect !! i) as [row'|]; simpl in *; [|done].
  injection Hlen as Hlen. apply lookup_lt_is_Some_2. rewrite Hlen.
  by eapply lookup_lt_Some.
Qed.

(** C3. On valid rasters and a grid step that is not 0 the score is
    returned and lies in [0, 1]; it is exactly 0 when the point has no grid
    cell; otherwise it is 0.8 * slope score + 0.2 * aspect score for the
    slope and aspect of that cell, and at most 0.2 when that slope exceeds
    15. *)
Theorem suitability_score_range (point : Q * Q) (slope aspect dem : list (list Q))
    (bounds : Q * Q * Q * Q) (resolution : Q) :
  valid_rasters slope aspect → ¬ resolution == 0 →
  ∃ score,
    get_terrain_suitability_score point slope aspect dem bounds resolution = Some score ∧
    0 <= score <= 1 ∧
    match grid_cell point slope bounds resolution with
    | None => score = 0
    | Some (i, j) =>
        ∃ s a, Raster.get slope i j = Some s ∧ Raster.get aspect i j = Some a ∧
               score == (8 # 10) * spec_slope_score s + (2 # 10) * spec_aspect_score a ∧
               (15 < s → score <= 2 # 10)
    end.
Proof.
  intros (Hrect & Hshape & Hslope & Haspect) Hres.
  unfold get_terrain_suitability_score, grid_cell.
  destruct bounds as [[[minx miny] maxx] maxy], point as [x y].
  destruct (in_bounds (x, y) (minx, miny, maxx, maxy)); simpl.
  2:{ exists 0. repeat split; lra || done. }
  rewrite !PyFacts.div_Some by done. simpl.
  set (i := Py.int ((y - miny) / resolution)).
  set (j := Py.int ((x - minx) / resolution)).
  destruct (decide (0 ≤ i < Z.of_nat (length slope))%Z) as [Hi|Hi];
  destruct (decide (0 ≤ j < Z.of_nat (Raster.shape slope).2)%Z) as [Hj|Hj].
  all: simpl in Hj.
  2-4: (repeat case_bool_decide; simpl; try lia; exists 0; repeat split; lra || done).
  repeat (rewrite (bool_decide_false (_ < 0)%Z) by lia).
  repeat (rewrite (bool_decide_false (_ ≤ _)%Z) by lia).
  rewrite !bool_decide_true by done. simpl.
  destruct (RasterFacts.get_lt slope (Z.to_nat i) (Z.to_nat j) Hrect) as [s Hs];
    [simpl; lia..|].
  destruct (aspect_get slope aspect _ _ s Hshape Hs) as [a Ha].
  rewrite Hs, Ha. simpl.
  assert (0 <= s) as Hs0.
  { rewrite Forall_forall in Hslope. by eapply Hslope, RasterFacts.get_cells. }
  assert (0 <= a <= 360) as Ha0.
  { rewrite Forall_forall in Haspect. by eapply Haspect, RasterFacts.get_cells. }
  pose proof (slope_score_range s Hs0) as Hss.
  pose proof (aspect_score_range a Ha0) as Has.
  eexists. split; [done|]. split; [lra|].
  exists s, a. repeat split; try done.
  - rewrite <-slope_score_spec, <-aspect_score_spec. reflexivity.
  - intros Hsteep. rewrite (slope_score_steep s Hsteep). lra.
Qed.

Definition slope_grid : list (list Q) := [[0; 20]; [3; 15]].
Definition aspect_grid : list (list Q) := [[180; 0]; [90; 360]].

Example score_flat_south :
  get_terrain_suitability_score (5, 5) slope_grid aspect_grid [] (0, 0, 20, 20) 10
  = Some (270000 # 270000).
Proof. vm_compute. reflexivity. Qed.

Example score_steep_north :
  get_terrain_suitability_score (15, 5) slope_grid aspect_grid [] (0, 0, 20, 20) 10
  = Some (0 # 18000).
Proof. vm_compute. reflexivity. Qed.

(** A grid step of 0 makes the index computation divide by zero. *)
Example score_zero_resolution :
  get_terrain_suitability_score (15, 5) slope_grid aspect_grid [] (0, 0, 20, 20) 0
  = None.
Proof. vm_compute. reflexivity. Qed.

Lemma suitability_score_range_witness :
  ∃ score,
    get_terrain_suitability_score (5, 15) slope_grid aspect_grid [] (0, 0, 20, 20) 10
      = Some score ∧
    0 <= score <= 1 ∧
    match grid_cell (5, 15) slope_grid (0, 0, 20, 20) 10 with
    | None => score = 0
    | Some (i, j) =>
        ∃ s a, Raster.get slope_grid i j = Some s ∧ Raster.get aspect_grid i j = Some a ∧
               score == (8 # 10) * spec_slope_score s + (2 # 10) * spec_aspect_score a ∧
               (15 < s → score <= 2 # 10)
    end.
Proof.
  apply (suitability_score_range (5, 15) slope_grid aspect_grid [] (0, 0, 20, 20) 10).
  - split; [repeat constructor|]. split; [reflexivity|].
    split; repeat constructor; by vm_compute.
  - by vm_compute.
Defined.

End TerrainFacts.

(* ===================================================================== *)
(** * Facts about generate_candidate_locations *)
(* ===================================================================== *)

Module CandidatesFacts.
Import Candidates.
#[local] Open Scope Q_scope.

Section Geometry.
Context {Polygon : Type}.
Variable buffer : Polygon → Q → option Polygon.
Variable is_empty : Polygon → bool.
Variable is_valid : Polygon → bool.
Variable contains : Polygon → Q * Q → option bool.
Variable bounds : Polygon → option (Q * Q * Q * Q).
Variable unary_union : list Polygon → option Polygon.
Variable sqrt : Q → Q.

#[local] Abbreviation accepted := (accepted contains).
#[local] Abbreviation walk_column := (walk_column contains).
#[local] Abbreviation walk_grid := (walk_grid contains).

(** Inside the boundary and outside the exclusion union, if there is one. *)
Definition placeable (boundary : Polygon) (exclusion : option Polygon)
    (point : Q * Q) : Prop :=
  contains boundary point = Some true ∧
  match exclusion with
  | Some union => contains union point = Some false
  | None => True
  end.

Lemma accepted_placeable boundary exclusion point :
  accepted boundary exclusion point = true → placeable boundary exclusion point.
Proof.
  unfold Candidates.accepted, placeable.
  destruct (contains boundary point) as [[]|]; try done.
  destruct exclusion as [union|]; [|done].
  destruct (contains union point) as [[]|]; done.
Qed.

Section Walk.
Variable boundary : Polygon.
Variable exclusion : option Polygon.
Variables miny maxx maxy res : Q.

(** What holds of the list between two iterations. *)
Definition collecting (candidates : list (Q * Q)) : Prop :=
  Forall (placeable boundary exclusion) candidates ∧
  (Z.of_nat (length candidates) < MAX_CANDIDATES)%Z.

Definition collected (candidates : list (Q * Q)) : Prop :=
  Forall (placeable boundary exclusion) candidates ∧
  (Z.of_nat (length candidates) ≤ MAX_CANDIDATES)%Z.

Lemma walk_column_collects fuel : ∀ x y candidates returned candidates',
  collecting candidates →
  walk_column fuel boundary exclusion maxy res x y candidates
    = Done (returned, candidates') →
  if returned then collected candidates' ∧
                   Z.of_nat (length candidates') = MAX_CANDIDATES
  else collecting candidates'.
Proof.
  induction fuel as [|fuel IH]; intros x y candidates returned candidates' Hc; [done|].
  simpl. destruct (Py.leb y maxy).
  2:{ by intros [= <- <-]. }
  destruct (accepted boundary exclusion (x, y)) eqn:Hacc.
  2:{ by apply IH. }
  assert (Forall (placeable boundary exclusion) (candidates ++ [(x, y)])) as Hall.
  { destruct Hc. apply Forall_app. split; [done|].
    constructor; [by apply accepted_placeable|done]. }
  assert (length (candidates ++ [(x, y)]) = S (length candidates)) as Hlen.
  { rewrite length_app. simpl. lia. }
  case_bool_decide as Hfull.
  - intros [= <- <-]. destruct Hc as [_ Hlt]. unfold collected.
    rewrite Hlen in *. repeat split; [done|lia..].
  - apply IH. split; [done|lia].
Qed.

Lemma walk_grid_collects fuel : ∀ x candidates candidates',
  collecting candidates →
  walk_grid fuel boundary exclusion miny maxx maxy res x candidates = Done candidates' →
  collected candidates'.
Proof.
  induction fuel as [|fuel IH]; intros x candidates candidates' Hc; [done|].
  cbn [Candidates.walk_grid]. destruct (Py.leb x maxx).
  2:{ intros [= <-]. destruct Hc. split; [done|lia]. }
  destruct (walk_column (S fuel) boundary exclusion maxy res x miny candidates)
    as [[returned column]| |] eqn:Hcol; [|done..].
  pose proof (walk_column_collects _ _ _ _ _ _ Hc Hcol) as Hinv.
  destruct returned.
  - intros [= <-]. by destruct Hinv.
  - by apply IH.
Qed.

(** Termination of the walk: enough steps to cover the box. *)
Lemma walk_column_terminates n : ∀ fuel x y candidates,
  (n < fuel)%nat → maxy - y < inject_Z (Z.of_nat n) * res →
  ∃ r, walk_column fuel boundary exclusion maxy res x y candidates = Done r.
Proof.
  induction n as [|n IH]; intros fuel x y candidates Hfuel Hdist;
    (destruct fuel as [|fuel]; [lia|]); simpl.
  - assert (Py.leb y maxy = false) as ->.
    { apply not_true_iff_false. rewrite PyFacts.leb_le.
      change (inject_Z (Z.of_nat 0)) with 0 in Hdist. intros Hle. lra. }
    by eexists.
  - destruct (Py.leb y maxy); [|by eexists].
    assert (maxy - (y + res) < inject_Z (Z.of_nat n) * res) as Hnext.
    { rewrite Nat2Z.inj_succ, <-Z.add_1_r, inject_Z_plus in Hdist.
      change (inject_Z 1) with 1 in Hdist. lra. }
    destruct (accepted boundary exclusion (x, y)).
    + case_bool_decide; [by eexists|]. apply IH; [lia|done].
    + apply IH; [lia|done].
Qed.

Lemma walk_grid_terminates ny nx : ∀ fuel x candidates,
  (nx + ny < fuel)%nat →
  maxy - miny < inject_Z (Z.of_nat ny) * res →
  maxx - x < inject_Z (Z.of_nat nx) * res →
  ∃ r, walk_grid fuel boundary exclusion miny maxx maxy res x candidates = Done r.
Proof.
  induction nx as [|nx IH]; intros fuel x candidates Hfuel Hy Hx;
    (destruct fuel as [|fuel]; [lia|]); cbn [Candidates.walk_grid].
  - assert (Py.leb x maxx = false) as ->.
    { apply not_true_iff_false. rewrite PyFacts.leb_le.
      change (inject_Z (Z.of_nat 0)) with 0 in Hx. intros Hle. lra. }
    by eexists.
  - destruct (Py.leb x maxx); [|by eexists].
    destruct (walk_column_terminates ny (S fuel) x miny candidates) as [[returned column] ->];
      [lia|done|].
    destruct returned; [by eexists|].
    apply IH; [lia|done|].
    rewrite Nat2Z.inj_succ, <-Z.add_1_r, inject_Z_plus in Hx.
    change (inject_Z 1) with 1 in Hx. lra.
Qed.

(** A larger bound does not change a result. *)
Lemma walk_column_more_fuel fuel : ∀ x y candidates r,
  walk_column fuel boundary exclusion maxy res x y candidates = Done r →
  walk_column (S fuel) boundary exclusion maxy res x y candidates = Done r.
Proof.
  induction fuel as [|fuel IH]; intros x y candidates r; [done|]. intros H.
  change (walk_column (S (S fuel)) boundary exclusion maxy res x y candidates) with
    (if Py.leb y maxy then
       if accepted boundary exclusion (x, y) then
         if bool_decide (MAX_CANDIDATES ≤ Z.of_nat (length (candidates ++ [(x, y)])))%Z
         then Done (true, candidates ++ [(x, y)])
         else walk_column (S fuel) boundary exclusion maxy res x (y + res)
                (candidates ++ [(x, y)])
       else walk_column (S fuel) boundary exclusion maxy res x (y + res) candidates
     else Done (false, candidates)).
  simpl in H. destruct (Py.leb y maxy); [|done].
  destruct (accepted boundary exclusion (x, y)); [|by apply IH].
  destruct (bool_decide _); [done|by apply IH].
Qed.

Lemma walk_grid_more_fuel fuel : ∀ x candidates r,
  walk_grid fuel boundary exclusion miny maxx maxy res x candidates = Done r →
  walk_grid (S fuel) boundary exclusion miny maxx maxy res x candidates = Done r.
Proof.
  induction fuel as [|fuel IH]; intros x candidates r; [done|]. intros H.
  change (walk_grid (S (S fuel)) boundary exclusion miny maxx maxy res x candidates) with
    (if Py.leb x maxx then
       match walk_column (S (S fuel)) boundary exclusion maxy res x miny candidates with
       | Done (true, candidates) => Done candidates
       | Done (false, candidates) =>
           walk_grid (S fuel) boundary exclusion miny maxx maxy res (x + res) candidates
       | Raised => Raised
       | Timeout => Timeout
       end
     else Done candidates).
  cbn [Candidates.walk_grid] in H. destruct (Py.leb x maxx); [|done].
  destruct (walk_column (S fuel) boundary exclusion maxy res x miny candidates)
    as [[returned column]| |] eqn:Hcol; [|done..].
  rewrite (walk_column_more_fuel _ _ _ _ _ Hcol).
  destruct returned; [done|by apply IH].
Qed.

(** With a positive step, some number of steps covers any distance. *)
Lemma steps_cover (distance : Q) :
  0 < res → ∃ n : nat, distance < inject_Z (Z.of_nat n) * res.
Proof.
  intros Hres.
  exists (Z.to_nat (Qfloor (distance / res) + 1)).
  pose proof (Qlt_floor (distance / res)) as Hfl.
  assert (inject_Z (Qfloor (distance / res) + 1)
          <= inject_Z (Z.of_nat (Z.to_nat (Qfloor (distance / res) + 1)))) as Hle.
  { rewrite <-Zle_Qle. lia. }
  assert (distance == distance / res * res) as Hd by (field; lra).
  rewrite Hd at 1. apply Qmult_lt_compat_r; [done|]. lra.
Qed.

End Walk.

#[local] Abbreviation generate_candidate_locations :=
  (generate_candidate_locations buffer is_empty is_valid contains bounds unary_union sqrt).
#[local] Abbreviation buffered_boundary := (buffered_boundary buffer is_empty is_valid).
#[local] Abbreviation exclusion_union := (exclusion_union buffer unary_union).

Lemma candidates_collected fuel property_boundary exclusion_zones
    grid_resolution buffer_boundary buffer_exclusion candidates :
  generate_candidate_locations fuel property_boundary exclusion_zones
    grid_resolution buffer_boundary buffer_exclusion = Done candidates →
  collected
    (buffered_boundary property_boundary (buffer_boundary * Py.FEET_TO_DEGREES))
    (exclusion_union exclusion_zones (buffer_exclusion * Py.FEET_TO_DEGREES))
    candidates.
Proof.
  unfold Candidates.generate_candidate_locations.
  destruct (match bounds _ with Some box => Some box | None => _ end)
    as [[[[minx miny] maxx] maxy]|]; [|done].
  destruct (adjusted_resolution _ _ _) as [res|]; [|done].
  apply walk_grid_collects. split; [constructor|done].
Qed.

Lemma candidates_fuel_le fuel fuel' property_boundary exclusion_zones
    grid_resolution buffer_boundary buffer_exclusion candidates :
  (fuel ≤ fuel')%nat →
  generate_candidate_locations fuel property_boundary exclusion_zones
    grid_resolution buffer_boundary buffer_exclusion = Done candidates →
  generate_candidate_locations fuel' property_boundary exclusion_zones
    grid_resolution buffer_boundary buffer_exclusion = Done candidates.
Proof.
  induction 1 as [|fuel' _ IH]; [done|]. intros Hrun. specialize (IH Hrun).
  revert IH. unfold Candidates.generate_candidate_locations.
  destruct (match bounds _ with Some box => Some box | None => _ end)
    as [[[[minx miny] maxx] maxy]|]; [|done].
  destruct (adjusted_resolution _ _ _) as [res|]; [|done].
  apply walk_grid_more_fuel.
Qed.

Lemma adjusted_resolution_positive box res :
  (∀ q, 0 < q → 0 < sqrt q) → 0 < res →
  ∃ res', adjusted_resolution sqrt box res = Some res' ∧ 0 < res'.
Proof.
  intros Hsqrt Hres. unfold adjusted_resolution.
  destruct box as [[[minx miny] maxx] maxy].
  rewrite !PyFacts.div_Some by lra. simpl.
  case_bool_decide as Hest; [|by eexists].
  eexists. split; [done|]. apply Qmult_lt_0_compat; [done|].
  apply Hsqrt. apply Qlt_shift_div_l; [done|].
  rewrite Qmult_0_l. replace 0 with (inject_Z 0) by done. rewrite <-Zlt_Qlt.
  unfold MAX_CANDIDATES in Hest. lia.
Qed.

Lemma candidates_returned property_boundary exclusion_zones
    grid_resolution buffer_boundary buffer_exclusion :
  (∀ q, 0 < q → 0 < sqrt q) → 0 < grid_resolution →
  is_Some (bounds property_boundary) →
  ∃ fuel candidates,
    generate_candidate_locations fuel property_boundary exclusion_zones
      grid_resolution buffer_boundary buffer_exclusion = Done candidates.
Proof.
  intros Hsqrt Hres [box Hbox]. unfold Candidates.generate_candidate_locations.
  assert (∃ b, match bounds (buffered_boundary property_boundary
                               (buffer_boundary * Py.FEET_TO_DEGREES)) with
               | Some box => Some box
               | None => bounds property_boundary
               end = Some b) as [[[[minx miny] maxx] maxy] ->].
  { destruct (bounds (buffered_boundary _ _)); by eexists. }
  destruct (adjusted_resolution_positive (minx, miny, maxx, maxy)
              (grid_resolution * Py.FEET_TO_DEGREES) Hsqrt) as (res & -> & Hpos).
  { unfold Py.FEET_TO_DEGREES. lra. }
  destruct (steps_cover res (maxy - miny) Hpos) as [ny Hy].
  destruct (steps_cover res (maxx - minx) Hpos) as [nx Hx].
  exists (S (nx + ny)).
  apply (walk_grid_terminates _ _ miny maxx maxy res ny nx); [lia|done|done].
Qed.

Lemma walk_column_stops_at_limit fuel boundary exclusion maxy res x y candidates :
  Py.leb y maxy = true → accepted boundary exclusion (x, y) = true →
  (Z.of_nat (length candidates) + 1 = MAX_CANDIDATES)%Z →
  walk_column (S fuel) boundary exclusion maxy res x y candidates
    = Done (true, candidates ++ [(x, y)]).
Proof.
  intros Hy Hacc Hlen. simpl. rewrite Hy, Hacc, bool_decide_true; [done|].
  rewrite length_app. simpl. lia.
Qed.

End Geometry.

(** C2. Every candidate returned lies inside the buffered boundary (or its
    fallback) and outside the union of the buffered exclusion zones, when
    there is one; the returned list has at most 10,000 entries; the walk
    returns at the very point that makes the list reach 10,000; and for a
    positive grid resolution the function does return. *)
Theorem candidates_contained {Polygon : Type}
    (buffer : Polygon → Q → option Polygon) (is_empty is_valid : Polygon → bool)
    (contains : Polygon → Q * Q → option bool)
    (bounds : Polygon → option (Q * Q * Q * Q))
    (unary_union : list Polygon → option Polygon) (sqrt : Q → Q)
    (property_boundary : Polygon) (exclusion_zones : list Polygon)
    (grid_resolution buffer_boundary buffer_exclusion : Q) :
  let boundary :=
    buffered_boundary buffer is_empty is_valid property_boundary
      (buffer_boundary * Py.FEET_TO_DEGREES) in
  let exclusion :=
    exclusion_union buffer unary_union exclusion_zones
      (buffer_exclusion * Py.FEET_TO_DEGREES) in
  (∀ fuel candidates,
     generate_candidate_locations buffer is_empty is_valid contains bounds
       unary_union sqrt fuel property_boundary exclusion_zones
       grid_resolution buffer_boundary buffer_exclusion = Done candidates →
     Forall (placeable contains boundary exclusion) candidates ∧
     (Z.of_nat (length candidates) ≤ 10000)%Z) ∧
  (∀ fuel maxy res x y candidates,
     Py.leb y maxy = true → accepted contains boundary exclusion (x, y) = true →
     (Z.of_nat (length candidates) + 1 = 10000)%Z →
     walk_column contains (S fuel) boundary exclusion maxy res x y candidates
       = Done (true, candidates ++ [(x, y)])) ∧
  ((∀ q, 0 < q → 0 < sqrt q) → 0 < grid_resolution →
   is_Some (bounds property_boundary) →
   ∃ fuel candidates,
     generate_candidate_locations buffer is_empty is_valid contains bounds
       unary_union sqrt fuel property_boundary exclusion_zones
       grid_resolution buffer_boundary buffer_exclusion = Done candidates).
Proof.
  intros boundary exclusion. split; [|split].
  - intros fuel candidates Hrun.
    by apply (candidates_collected buffer is_empty is_valid contains bounds
                unary_union sqrt) in Hrun.
  - intros. by apply walk_column_stops_at_limit.
  - apply candidates_returned.
Qed.

End CandidatesFacts.

(** A small geometry kernel of axis-parallel rectangles
    [(minx, miny, maxx, maxy)], for running the services. *)
Module Boxes.
#[local] Open Scope Q_scope.

Definition box : Type := Q * Q * Q * Q.

Definition buffer (b : box) (d : Q) : option box :=
  let '(minx, miny, maxx, maxy) := b in
  Some (minx - d, miny - d, maxx + d, maxy + d).

Definition is_empty (b : box) : bool :=
  let '(minx, miny, maxx, maxy) := b in Py.leb maxx minx || Py.leb maxy miny.

Definition is_valid (b : box) : bool := true.

Definition inside (b : box) (p : Q * Q) : bool :=
  let '(minx, miny, maxx, maxy) := b in
  Py.ltb minx p.1 && Py.ltb p.1 maxx && Py.ltb miny p.2 && Py.ltb p.2 maxy.

Definition contains (b : box) (p : Q * Q) : option bool := Some (inside b p).

Definition bounds (b : box) : option (Q * Q * Q * Q) := Some b.

(** Enough for a single zone. *)
Definition unary_union (bs : list box) : option box := head bs.

Definition sqrt (q : Q) : Q := q.

Definition make (minx miny maxx maxy : Q) : box := (minx, miny, maxx, maxy).

(** [outer] contains [inner], borders included. *)
Definition covers (outer inner : box) : bool :=
  let '(ominx, ominy, omaxx, omaxy) := outer in
  let '(iminx, iminy, imaxx, imaxy) := inner in
  Py.leb ominx iminx && Py.leb ominy iminy && Py.leb imaxx omaxx && Py.leb imaxy omaxy.

Definition intersects (a b : box) : option bool :=
  let '(aminx, aminy, amaxx, amaxy) := a in
  let '(bminx, bminy, bmaxx, bmaxy) := b in
  Some (Py.leb aminx bmaxx && Py.leb bminx amaxx
        && Py.leb aminy bmaxy && Py.leb bminy amaxy).

(** The distance along the axes, which needs no square root. *)
Definition distance (p q : Q * Q) : Q := Qabs (p.1 - q.1) + Qabs (p.2 - q.2).

Definition centroid (b : box) : option (Q * Q) :=
  let '(minx, miny, maxx, maxy) := b in Some ((minx + maxx) / 2, (miny + maxy) / 2).

Definition feet (q : Q) : Q := q * Py.FEET_TO_DEGREES.

(** A 40 ft square lot with a 10 ft square pond in its north-east. *)
Definition lot : box := (0, 0, feet 40, feet 40).
Definition pond : box := (feet 22, feet 22, feet 32, feet 32).

End Boxes.

Module CandidatesExamples.
Import Candidates CandidatesFacts Boxes.
#[local] Open Scope Q_scope.

#[local] Abbreviation run_lot fuel :=
  (generate_candidate_locations buffer is_empty is_valid contains bounds
     unary_union sqrt fuel lot [pond] 10 4 2).

(** Grid points at 14, 24 and 34 ft; the one next to the pond is left out. *)
Example lot_has_eight_candidates :
  ∃ candidates, run_lot 10 = Done candidates ∧ length candidates = 8%nat.
Proof. eexists. split; [vm_compute; reflexivity|reflexivity]. Qed.

Example lot_needs_fuel : run_lot 3 = Timeout.
Proof. vm_compute. reflexivity. Qed.

Lemma candidates_contained_witness :
  ∃ candidates, run_lot 10 = Done candidates ∧
    Forall (placeable contains
              (buffered_boundary buffer is_empty is_valid lot (4 * Py.FEET_TO_DEGREES))
              (exclusion_union buffer unary_union [pond] (2 * Py.FEET_TO_DEGREES)))
           candidates ∧
    (Z.of_nat (length candidates) ≤ 10000)%Z.
Proof.
  eexists. split; [vm_compute; reflexivity|].
  refine (proj1 (candidates_contained buffer is_empty is_valid contains bounds
                   unary_union sqrt lot [pond] 10 4 2) 10%nat _ _).
  vm_compute. reflexivity.
Defined.

End CandidatesExamples.

(* ===================================================================== *)
(** * Facts about services/road_generator.py *)
(* ===================================================================== *)

Module RoadsFacts.
Import Roads.
#[local] Open Scope Qc_scope.

(** ** Costs *)

Definition weight_le (a b : weight) : Prop :=
  match a, b with
  | Finite x, Finite y => x <= y
  | _, Infinite => True
  | Infinite, Finite _ => False
  end.

Definition nonneg (c : weight) : Prop :=
  match c with
  | Finite q => 0 <= q
  | Infinite => True
  end.

Lemma weight_le_trans a b c : weight_le a b → weight_le b c → weight_le a c.
Proof.
  destruct a, b, c; simpl; try done. apply Qcle_trans.
Qed.

Lemma weight_ltb_le a b : weight_ltb a b = true → weight_le a b.
Proof.
  destruct a, b; simpl; try done. intros H. apply bool_decide_eq_true in H.
  by apply Qclt_le_weak.
Qed.

Lemma weight_ltb_not_ge a b : weight_ltb a b = true → ¬ weight_le b a.
Proof.
  destruct a, b; simpl; try done; [|tauto]. intros H. apply bool_decide_eq_true in H.
  by apply Qclt_not_le.
Qed.

Lemma weight_le_add g c : nonneg c → weight_le g (weight_add g c).
Proof.
  destruct g as [x|], c as [y|]; simpl; try done. intros Hy.
  rewrite <-(Qcplus_0_r x) at 1. by apply Qcplus_le_mono_l.
Qed.

Lemma Qcabs_nonneg q : 0 <= Qcabs q.
Proof.
  unfold Qcabs. case_bool_decide as Hq.
  - apply Qclt_le_weak, Qcopp_le_compat in Hq. exact Hq.
  - by apply Qcnot_lt_le.
Qed.

(** ** The priority queue *)

Lemma least_in m l : least m l = m ∨ least m l ∈ l.
Proof.
  revert m. induction l as [|e l IH]; intros m; [by left|]. simpl.
  destruct (IH (if entry_ltb e m then e else m)) as [->|Hin].
  - destruct (entry_ltb e m); [right; by left|by left].
  - right. by right.
Qed.

Lemma remove_first_subset m l e : e ∈ remove_first m l → e ∈ l.
Proof.
  induction l as [|x l IH]; [done|]. simpl. case_bool_decide.
  - by right.
  - intros [->|Hin]%elem_of_cons; [by left|right; by apply IH].
Qed.

Lemma heappop_Some open_set :
  open_set ≠ [] → is_Some (heappop open_set).
Proof. destruct open_set; [done|]. by eexists. Qed.

Lemma heappop_elem open_set m rest :
  heappop open_set = Some (m, rest) →
  m ∈ open_set ∧ ∀ e, e ∈ rest → e ∈ open_set.
Proof.
  destruct open_set as [|e l]; [done|]. unfold heappop. intros [= <- <-]. split.
  - destruct (least_in e l) as [->|Hin]; [by left|by right].
  - intros x Hx. exact (remove_first_subset (least e l) (e :: l) x Hx).
Qed.

(** ** Back-pointers *)

(** Following [came_from] from a point ends at a point without entry. *)
Inductive rooted (came_from : gmap point point) : point → Prop :=
  | rooted_root n : came_from !! n = None → rooted came_from n
  | rooted_step n p :
      came_from !! n = Some p → rooted came_from p → rooted came_from n.

Lemma reconstruct_terminates came_from current :
  rooted came_from current →
  ∃ N, ∀ fuel path, (N ≤ fuel)%nat →
    ∃ result, reconstruct fuel came_from current path = Done result.
Proof.
  induction 1 as [n Hn|n p Hn _ [N IH]].
  - exists 1%nat. intros [|fuel] path Hfuel; [lia|]. simpl. rewrite Hn. by eexists.
  - exists (S N). intros [|fuel] path Hfuel; [lia|]. simpl. rewrite Hn.
    apply IH. lia.
Qed.

Lemma reconstruct_more_fuel fuel : ∀ came_from current path result,
  reconstruct fuel came_from current path = Done result →
  reconstruct (S fuel) came_from current path = Done result.
Proof.
  induction fuel as [|fuel IH]; intros came_from current path result; [done|].
  intros H. simpl in H. change (reconstruct (S (S fuel)) came_from current path)
    with (match came_from !! current with
          | Some previous => reconstruct (S fuel) came_from previous (path ++ [previous])
          | None => Done (reverse path)
          end).
  destruct (came_from !! current); [by apply IH|done].
Qed.

Lemma reconstruct_fuel_le fuel fuel' came_from current path result :
  (fuel ≤ fuel')%nat →
  reconstruct fuel came_from current path = Done result →
  reconstruct fuel' came_from current path = Done result.
Proof.
  induction 1 as [|fuel' _ IH]; [done|]. intros H.
  by apply reconstruct_more_fuel, IH.
Qed.

Section Generator.
Context {Polygon : Type}.
Variable contains : Polygon → point → bool.
Variable centroid : Polygon → point.
Variable sqrt : Qc → Qc.
Hypothesis sqrt_nonneg : ∀ q, 0 <= sqrt q.

Section Search.
Variable property_boundary : Polygon.
Variable exclusion_zones : list Polygon.
Variable dem : option ndarray.
Variable bounds : option (Qc * Qc * Qc * Qc).
Variable resolution : Qc.
Variable goal : point.

#[local] Abbreviation heuristic := (heuristic sqrt).
#[local] Abbreviation cost :=
  (cost contains sqrt exclusion_zones dem bounds resolution).
#[local] Abbreviation relax :=
  (relax contains sqrt property_boundary exclusion_zones dem bounds resolution goal).
#[local] Abbreviation loop_body :=
  (loop_body contains sqrt property_boundary exclusion_zones dem bounds resolution goal).
#[local] Abbreviation search :=
  (search contains sqrt property_boundary exclusion_zones dem bounds resolution goal).
#[local] Abbreviation offsets := (offsets resolution).
#[local] Abbreviation goal_threshold := (goal_threshold resolution).

Lemma terrain_cost_nonneg grade : 0 <= terrain_cost grade.
Proof.
  unfold terrain_cost. repeat case_bool_decide; try done.
  apply Qcplus_nonneg_nonneg; [done|].
  apply Qcmult_nonneg_nonneg; [apply Qcabs_nonneg|done].
Qed.

Lemma get_elevation_Some p d b :
  resolution ≠ 0 → is_Some (get_elevation_at_point p d b resolution).
Proof.
  intros Hres. unfold get_elevation_at_point, div.
  destruct b as [[[minx miny] maxx] maxy], p as [x y].
  rewrite !bool_decide_false by done. simpl. by destruct (_ || _).
Qed.

(** The step weight is computed without error and is not negative. *)
Lemma cost_nonneg current next_point :
  resolution ≠ 0 → ∃ c, cost current next_point = Some c ∧ nonneg c.
Proof.
  intros Hres. unfold Roads.cost.
  destruct (existsb _ _); [by exists Infinite|].
  destruct dem as [d|], bounds as [b|];
    try (eexists; split; [done|]; simpl;
         apply Qcmult_nonneg_nonneg; [apply sqrt_nonneg|done]).
  destruct (get_elevation_Some current d b Hres) as [e1 ->].
  destruct (get_elevation_Some next_point d b Hres) as [e2 ->]. simpl.
  eexists. split; [done|]. simpl.
  apply Qcmult_nonneg_nonneg; [apply sqrt_nonneg|apply terrain_cost_nonneg].
Qed.

(** With a grid step of 0 every pair [(dx, dy)] is skipped. *)
Lemma offsets_resolution d : d ∈ offsets → resolution ≠ 0.
Proof.
  intros Hd ->. vm_compute in Hd. by apply elem_of_nil in Hd.
Qed.

(** What the search keeps true of its state. *)
Record invariant (s : state) : Prop := Invariant {
  inv_open : ∀ e, e ∈ open_set s → is_Some (g_score s !! e.2);
  inv_scores : ∀ n p, came_from s !! n = Some p →
    ∃ gn gp, g_score s !! n = Some gn ∧ g_score s !! p = Some gp ∧ weight_le gp gn;
  inv_rooted : ∀ n, rooted (came_from s) n;
  inv_visited : ∀ n, n ∈ visited s → ¬ heuristic n goal < goal_threshold
}.

(** Redirecting [n] to [c] keeps the chains finite, because the scores
    along the chain from [c] are at most the new score [t] of [n]. *)
Lemma redirect_rooted (came_from : gmap point point) (g_score : gmap point weight)
    (n c : point) (t : weight) :
  (∀ m p, came_from !! m = Some p →
     ∃ gm gp, g_score !! m = Some gm ∧ g_score !! p = Some gp ∧ weight_le gp gm) →
  (∀ m, rooted came_from m) →
  (∀ gn, g_score !! n = Some gn → ¬ weight_le gn t) →
  (∃ gc, g_score !! c = Some gc ∧ weight_le gc t) →
  ∀ m, rooted (<[n := c]> came_from) m.
Proof.
  intros Hscores Hrooted Hn (gc & Hgc & Hct).
  assert (∀ y, rooted came_from y →
            ∀ gy, g_score !! y = Some gy → weight_le gy t →
            rooted (<[n := c]> came_from) y) as Hchain.
  { induction 1 as [y Hy|y p Hy _ IH]; intros gy Hgy Hle.
    - apply rooted_root. rewrite lookup_insert_ne; [done|].
      intros ->. by apply (Hn gy).
    - assert (n ≠ y) as Hne by (intros ->; by apply (Hn gy)).
      destruct (Hscores y p Hy) as (gy' & gp & Hgy' & Hgp & Hpy).
      assert (gy' = gy) as -> by congruence.
      apply (rooted_step _ y p); [by rewrite lookup_insert_ne|].
      apply (IH gp Hgp). by eapply weight_le_trans. }
  assert (rooted (<[n := c]> came_from) n) as Hnew.
  { apply (rooted_step _ n c); [by rewrite lookup_insert_eq|].
    by apply (Hchain c (Hrooted c) gc). }
  intros m. induction (Hrooted m) as [y Hy|y p Hy _ IH].
  - destruct (decide (n = y)) as [<-|Hne]; [done|].
    apply rooted_root. by rewrite lookup_insert_ne.
  - destruct (decide (n = y)) as [<-|Hne]; [done|].
    apply (rooted_step _ y p); [by rewrite lookup_insert_ne|done].
Qed.

Lemma relax_invariant current d s :
  d ∈ offsets → is_Some (g_score s !! current) → invariant s →
  ∃ s', relax current d s = Some s' ∧ invariant s' ∧
        is_Some (g_score s' !! current) ∧
        iterations s' = iterations s ∧ visited s' = visited s.
Proof.
  intros Hd [gc Hgc] Hinv. unfold Roads.relax.
  set (neighbor := (current.1 + d.1, current.2 + d.2)).
  destruct (negb (contains property_boundary neighbor)); [by exists s|].
  rewrite Hgc. simpl.
  destruct (cost_nonneg current neighbor (offsets_resolution d Hd))
    as (w & -> & Hw). simpl.
  pose proof (weight_le_add gc w Hw) as Hct.
  set (t := weight_add gc w) in *.
  destruct (match g_score s !! neighbor with
            | Some g_neighbor => weight_ltb t g_neighbor
            | None => true
            end) eqn:Hbetter; [|by exists s].
  assert (∀ gn, g_score s !! neighbor = Some gn → ¬ weight_le gn t) as Hn.
  { intros gn Hgn. rewrite Hgn in Hbetter. by apply weight_ltb_not_ge. }
  assert (∀ gn, g_score s !! neighbor = Some gn → weight_le t gn) as Hn'.
  { intros gn Hgn. rewrite Hgn in Hbetter. by apply weight_ltb_le. }
  assert (neighbor ≠ current) as Hne.
  { intros Heq. apply (Hn gc); [by rewrite Heq|done]. }
  destruct Hinv as [Hopen Hscores Hrooted Hvisited].
  eexists. split; [done|]. split; [|split; [|done]].
  - split; simpl.
    + intros e [He|He]%elem_of_app.
      * apply lookup_insert_is_Some'. right. by apply Hopen.
      * apply list_elem_of_singleton in He as ->. simpl.
        apply lookup_insert_is_Some'. by left.
    + intros m p Hmp. destruct (decide (neighbor = m)) as [<-|Hm].
      * rewrite lookup_insert_eq in Hmp. injection Hmp as <-.
        exists t, gc. rewrite lookup_insert_eq, lookup_insert_ne by done. done.
      * rewrite lookup_insert_ne in Hmp by done.
        destruct (Hscores m p Hmp) as (gm & gp & Hgm & Hgp & Hle).
        rewrite (lookup_insert_ne _ neighbor m) by done.
        destruct (decide (neighbor = p)) as [<-|Hp].
        -- exists gm, t. rewrite lookup_insert_eq. repeat split; [done|].
           eapply weight_le_trans; [by apply Hn'|done].
        -- exists gm, gp. by rewrite lookup_insert_ne.
    + apply (redirect_rooted _ (g_score s) _ _ t); try done. by exists gc.
    + done.
  - simpl. apply lookup_insert_is_Some'. right. by eexists.
Qed.

(** One iteration: no error, the invariant is kept, the counter moves by
    one, and a reached point is within the tolerance of the goal. *)
Lemma loop_body_invariant s :
  invariant s → open_set s ≠ [] →
  match loop_body s with
  | Continue s' => invariant s' ∧ iterations s' = (iterations s + 1)%Z
  | Reached current s' =>
      rooted (came_from s') current ∧ heuristic current goal < goal_threshold ∧
      iterations s' = (iterations s + 1)%Z
  | Error => False
  end.
Proof.
  intros Hinv Hopen. unfold Roads.loop_body.
  destruct (heappop_Some (open_set s) Hopen) as [[[current_f current] rest] Hpop].
  rewrite Hpop. destruct (heappop_elem _ _ _ Hpop) as [Hin Hrest].
  destruct Hinv as [Hop Hscores Hrooted Hvisited].
  assert (is_Some (g_score s !! current)) as Hcur by (by apply (Hop _ Hin)).
  case_bool_decide as Hseen.
  { split; [|done]. split; simpl; try done. intros e He. by apply Hop, Hrest. }
  case_bool_decide as Hgoal; [done|].
  set (s1 := State rest (came_from s) (g_score s) (f_score s)
                   ({[current]} ∪ visited s) (iterations s + 1)).
  assert (invariant s1) as Hinv1.
  { split; simpl; try done.
    - intros e He. by apply Hop, Hrest.
    - intros n [->%elem_of_singleton|Hn]%elem_of_union; [done|by apply Hvisited]. }
  destruct (PyFacts.for_each_invariant
              (λ s', invariant s' ∧ is_Some (g_score s' !! current) ∧
                     iterations s' = iterations s1 ∧ visited s' = visited s1)
              offsets (relax current) s1) as (s' & -> & Hinv' & _ & Hit & _).
  - intros d s' Hd (Hi & Hc & Hit & Hv).
    destruct (relax_invariant current d s' Hd Hc Hi) as (s'' & -> & ? & ? & Hit' & Hv').
    exists s''. split; [done|]. split; [done|]. split; [done|].
    split; [by rewrite Hit'|by rewrite Hv'].
  - done.
  - by rewrite Hit.
Qed.

(** The loop stops before its counter passes [max_iterations]. *)
Lemma search_terminates fuel : ∀ s,
  invariant s → (0 ≤ iterations s ≤ max_iterations)%Z →
  (Z.to_nat (max_iterations - iterations s) < fuel)%nat →
  ∃ r, search fuel s = Done r ∧
    match r with
    | GoalReached current s' =>
        rooted (came_from s') current ∧ heuristic current goal < goal_threshold ∧
        (iterations s < iterations s' ≤ max_iterations)%Z
    | Exhausted s' =>
        invariant s' ∧ (iterations s ≤ iterations s' ≤ max_iterations)%Z ∧
        (open_set s' = [] ∨ iterations s' = max_iterations)
    end.
Proof.
  induction fuel as [|fuel IH]; intros s Hinv Hit Hfuel; [lia|]. simpl.
  destruct (open_set s) as [|e l] eqn:Hopen.
  { exists (Exhausted s). split; [done|]. split; [done|]. split; [lia|by left]. }
  case_bool_decide as Hlt.
  2:{ exists (Exhausted s). split; [done|]. split; [done|]. split; [lia|right; lia]. }
  pose proof (loop_body_invariant s Hinv) as Hbody. rewrite Hopen in Hbody.
  specialize (Hbody ltac:(done)).
  destruct (loop_body s) as [s'|current s'|]; [| |done].
  - destruct Hbody as [Hinv' Hit'].
    destruct (IH s' Hinv') as (r & -> & Hr); [lia|lia|].
    exists r. split; [done|]. rewrite Hit' in Hr.
    destruct r as [c s''|s'']; [destruct Hr as (? & ? & ?)|destruct Hr as (? & ? & ?)];
      (split; [done|]); (split; [done || lia|]); done || lia.
  - destruct Hbody as (? & ? & Hit'). eexists. split; [done|].
    split; [done|]. split; [done|]. lia.
Qed.

Lemma search_more_fuel fuel : ∀ s r,
  search fuel s = Done r → search (S fuel) s = Done r.
Proof.
  induction fuel as [|fuel IH]; intros s r; [done|]. intros H.
  change (search (S (S fuel)) s) with
    (match open_set s with
     | [] => Done (Exhausted s)
     | _ :: _ =>
         if bool_decide (iterations s < max_iterations)%Z then
           match loop_body s with
           | Continue s => search (S fuel) s
           | Reached current s => Done (GoalReached current s)
           | Error => Raised
           end
         else Done (Exhausted s)
     end).
  simpl in H. destruct (open_set s); [done|].
  destruct (bool_decide _); [|done].
  destruct (loop_body s); [by apply IH|done|done].
Qed.

Lemma search_fuel_le fuel fuel' s r :
  (fuel ≤ fuel')%nat → search fuel s = Done r → search fuel' s = Done r.
Proof.
  induction 1 as [|fuel' _ IH]; [done|]. intros H. by apply search_more_fuel, IH.
Qed.

End Search.

Lemma initial_invariant resolution start goal :
  invariant resolution goal (initial sqrt start goal).
Proof.
  split; simpl.
  - intros e ->%list_elem_of_singleton. simpl. rewrite lookup_singleton_eq. by eexists.
  - intros n p. by rewrite lookup_empty.
  - intros n. apply rooted_root. by rewrite lookup_empty.
  - intros n. by rewrite elem_of_empty.
Qed.

(** ** The network *)

Definition labelled_access (segment : segment) : Prop :=
  segment_type segment = "access" ∧ segment_width segment = min_width_access.

(** [road_network] is still empty while the paths are searched, so the test
    [len(road_network) == 0] succeeds for every asset. *)
Lemma find_paths_access fuel entry_point property_boundary exclusion_zones
    dem bounds resolution assets : ∀ road_segments result,
  find_paths contains centroid sqrt fuel entry_point assets property_boundary
    exclusion_zones dem bounds resolution [] road_segments = Done result →
  Forall labelled_access road_segments → Forall labelled_access result.
Proof.
  induction assets as [|asset rest IH]; intros road_segments result; simpl.
  { by intros [= <-]. }
  destruct (a_star_pathfinding _ _ _ _ _ _ _ _ _ _ _) as [path| |]; [|done..].
  intros Hrun Hall. apply (IH _ _ Hrun).
  destruct path as [[|p ps]|]; try done.
  apply Forall_app. split; [done|]. by repeat constructor.
Qed.

Lemma dedup_sublist seen segments : dedup seen segments ⊆ segments.
Proof.
  revert seen. induction segments as [|segment rest IH]; intros seen; [done|].
  simpl. case_bool_decide.
  - intros x Hx. right. by apply (IH seen).
  - intros x [->|Hx]%elem_of_cons; [by left|]. right.
    by apply (IH (segment_path segment :: seen) x).
Qed.

Section Lines.
Variable line_is_valid : list point → bool.
Variable line_repaired : list point → option (list point).
Variable line_buffer : list point → Qc → list point.
Variable line_length : list point → Qc.

Lemma build_road_label segment road :
  build_road line_is_valid line_repaired line_buffer line_length segment = Some road →
  road_type road = segment_type segment ∧ road_width road = segment_width segment.
Proof.
  unfold build_road. case_bool_decide; [done|].
  destruct (if line_is_valid _ then _ else _); [|done]. by intros [= <-].
Qed.

Lemma network_all_access fuel entry_point assets property_boundary exclusion_zones
    dem bounds resolution network :
  generate_road_network contains centroid sqrt line_is_valid line_repaired
    line_buffer line_length fuel entry_point assets property_boundary
    exclusion_zones dem bounds resolution = Done network →
  Forall (λ road, road_type road = "access" ∧ road_width road = min_width_access)
         (roads network).
Proof.
  unfold generate_road_network.
  destruct (find_paths _ _ _ _ _ _ _ _ _ _ _ _ _) as [segments| |] eqn:Hpaths; [|done..].
  apply find_paths_access in Hpaths; [|constructor].
  set (built := omap _ _).
  assert (Forall (λ road, road_type road = "access" ∧
                          road_width road = min_width_access) built) as Hall.
  { apply Forall_forall. intros road Hroad.
    apply list_elem_of_omap in Hroad as (segment & Hseg & Hbuild).
    apply build_road_label in Hbuild as [-> ->].
    apply dedup_sublist in Hseg. rewrite Forall_forall in Hpaths.
    by apply Hpaths. }
  destruct built; intros [= <-]; [constructor|done].
Qed.

End Lines.
End Generator.

(** C4. For every input the search loop ends within 10,000 iterations, and
    the call returns: when the loop ends without a node within the
    tolerance of the goal - the open set ran empty or the counter reached
    10,000 - the answer is [None]; otherwise it is the path rebuilt from
    the back-pointers, whose chain is finite.  Nothing is raised. *)
Theorem a_star_terminates {Polygon : Type}
    (contains : Polygon → point → bool) (centroid : Polygon → point)
    (sqrt : Qc → Qc) (start goal : point) (property_boundary : Polygon)
    (exclusion_zones : list Polygon) (dem : option ndarray)
    (bounds : option (Qc * Qc * Qc * Qc)) (resolution : Qc) :
  (∀ q, 0 <= sqrt q) →
  let start' := snap contains centroid property_boundary start in
  let goal' := snap contains centroid property_boundary goal in
  ∃ (r : search_result) (result : option (list point)) (N : nat),
    search contains sqrt property_boundary exclusion_zones dem bounds resolution
      goal' (S (Z.to_nat max_iterations)) (initial sqrt start' goal') = Done r ∧
    (∀ fuel, (N ≤ fuel)%nat →
       a_star_pathfinding contains centroid sqrt fuel start goal property_boundary
         exclusion_zones dem bounds resolution = Done result) ∧
    match r with
    | GoalReached current s =>
        (iterations s ≤ 10000)%Z ∧
        heuristic sqrt current goal' < goal_threshold resolution ∧
        is_Some result
    | Exhausted s =>
        (iterations s ≤ 10000)%Z ∧
        (open_set s = [] ∨ iterations s = 10000%Z) ∧
        (∀ n, n ∈ visited s → ¬ heuristic sqrt n goal' < goal_threshold resolution) ∧
        result = None
    end.
Proof.
  intros Hsqrt start' goal'.
  destruct (search_terminates contains sqrt Hsqrt property_boundary exclusion_zones
              dem bounds resolution goal' (S (Z.to_nat max_iterations))
              (initial sqrt start' goal'))
    as (r & Hsearch & Hr).
  { apply initial_invariant. }
  { simpl. unfold max_iterations. lia. }
  { simpl. lia. }
  exists r. destruct r as [current s|s].
  - destruct Hr as (Hrooted & Hgoal & Hit).
    destruct (reconstruct_terminates _ _ Hrooted) as [N1 HN1].
    destruct (HN1 N1 [goal'] ltac:(lia)) as [path Hpath].
    exists (Some path), (S (Z.to_nat max_iterations) `max` N1)%nat.
    split; [done|]. split.
    + intros fuel Hfuel. unfold a_star_pathfinding. fold start' goal'.
      assert (S (Z.to_nat max_iterations) ≤ fuel)%nat as Hf1 by lia.
      assert (N1 ≤ fuel)%nat as Hf2 by lia.
      rewrite (search_fuel_le contains sqrt property_boundary exclusion_zones dem
                 bounds resolution goal' _ fuel _ _ Hf1 Hsearch).
      by rewrite (reconstruct_fuel_le N1 fuel _ _ _ _ Hf2 Hpath).
    + unfold max_iterations in Hit. split; [lia|]. split; [done|by eexists].
  - destruct Hr as (Hinv & Hit & Hend).
    exists None, (S (Z.to_nat max_iterations)). split; [done|]. split.
    + intros fuel Hfuel. unfold a_star_pathfinding. fold start' goal'.
      by rewrite (search_fuel_le contains sqrt property_boundary exclusion_zones dem
                    bounds resolution goal' _ fuel _ _ Hfuel Hsearch).
    + unfold max_iterations in *. split; [lia|]. split; [done|].
      split; [apply Hinv|done].
Qed.

End RoadsFacts.

(** Rectangles with canonical rational corners, and a square root that is
    exact to six decimals, for running the road generator. *)
Module QcBoxes.
Import Roads.
#[local] Open Scope Qc_scope.

Definition box : Type := Qc * Qc * Qc * Qc.

Definition inside (p : point) (b : box) : bool :=
  let '(minx, miny, maxx, maxy) := b in
  bool_decide (minx < p.1) && bool_decide (p.1 < maxx)
  && bool_decide (miny < p.2) && bool_decide (p.2 < maxy).

(** A region is a union of rectangles. *)
Definition contains (region : list box) (p : point) : bool :=
  existsb (inside p) region.

Definition centroid (region : list box) : point :=
  match region with
  | (minx, miny, maxx, maxy) :: _ => ((minx + maxx) / num 2, (miny + maxy) / num 2)
  | [] => (0, 0)
  end.

Definition sqrt (q : Qc) : Qc :=
  Q2Qc (Z.sqrt (Qnum (this q) * 1000000000000 / Z.pos (Qden (this q))) # 1000000).

Lemma sqrt_nonneg q : 0 <= sqrt q.
Proof.
  unfold sqrt, Qcle. simpl. rewrite !Qred_correct. unfold Qle. simpl.
  pose proof (Z.sqrt_nonneg (Qnum (this q) * 1000000000000 / Z.pos (Qden (this q)))).
  lia.
Qed.

Definition line_is_valid (path : list point) : bool := true.
Definition line_repaired (path : list point) : option (list point) := Some path.
Definition line_buffer (path : list point) (distance : Qc) : list point := path.
Definition line_length (path : list point) : Qc :=
  foldr Qcplus 0 (zip_with (Roads.heuristic sqrt) path (tail path)).

Definition unit_square : list box := [(0, 0, 1, 1)].
Definition two_islands : list box := [(0, 0, 1, 1); (num 5, num 5, num 6, num 6)].
Definition centre : point := (Q2Qc (1 # 2), Q2Qc (1 # 2)).
Definition north : asset := Asset (Some "north") (Q2Qc (1 # 2)) (Q2Qc (9 # 10)).
Definition east : asset := Asset (Some "east") (Q2Qc (9 # 10)) (Q2Qc (1 # 2)).

(** 36,400 ft make a grid step of a tenth of a degree. *)
Definition coarse : Qc := num 36400.

End QcBoxes.

Module RoadsExamples.
Import Roads RoadsFacts QcBoxes.
#[local] Open Scope Qc_scope.

(** The coordinates of a computed path, as plain fractions. *)
Definition coordinates (result : outcome (option (list point)))
  : outcome (option (list (Q * Q))) :=
  match result with
  | Done path =>
      Done ((λ l : list point, (λ p : point, (this p.1, this p.2)) <$> l) <$> path)
  | Raised => Raised
  | Timeout => Timeout
  end.

Example path_to_north :
  coordinates
    (a_star_pathfinding contains centroid sqrt 100 centre
       (asset_x north, asset_y north) unit_square [] None None coarse)
  = Done (Some [ (1 # 2, 1 # 2); (1 # 2, 3 # 5); (1 # 2, 7 # 10); (1 # 2, 9 # 10) ])%Q.
Proof. vm_compute. reflexivity. Qed.

(** A goal on another island: the open set runs empty and the answer is
    [None]. *)
Example no_path_between_islands :
  coordinates
    (a_star_pathfinding contains centroid sqrt 100 centre
       (Q2Qc (11 # 2), Q2Qc (11 # 2)) two_islands [] None None (num 109200))
  = Done None.
Proof. vm_compute. reflexivity. Qed.

Lemma a_star_terminates_witness :
  ∃ (r : search_result) (result : option (list point)) (N : nat),
    search contains sqrt unit_square [] None None coarse
      (snap contains centroid unit_square (asset_x north, asset_y north))
      (S (Z.to_nat max_iterations))
      (initial sqrt (snap contains centroid unit_square centre)
         (snap contains centroid unit_square (asset_x north, asset_y north)))
      = Done r ∧
    (∀ fuel, (N ≤ fuel)%nat →
       a_star_pathfinding contains centroid sqrt fuel centre
         (asset_x north, asset_y north) unit_square [] None None coarse
       = Done result) ∧
    match r with
    | GoalReached current s =>
        (iterations s ≤ 10000)%Z ∧
        heuristic sqrt current
          (snap contains centroid unit_square (asset_x north, asset_y north))
          < goal_threshold coarse ∧
        is_Some result
    | Exhausted s =>
        (iterations s ≤ 10000)%Z ∧
        (open_set s = [] ∨ iterations s = 10000%Z) ∧
        (∀ n, n ∈ visited s →
           ¬ heuristic sqrt n
               (snap contains centroid unit_square (asset_x north, asset_y north))
             < goal_threshold coarse) ∧
        result = None
    end.
Proof.
  apply (a_star_terminates contains centroid sqrt centre
           (asset_x north, asset_y north) unit_square [] None None coarse).
  exact sqrt_nonneg.
Defined.

(** C1, on the code: two assets, two paths found, and both roads come out
    as "access" roads of width 20. *)
Lemma second_road_is_access :
  (λ network, (λ road, (road_type road, this (road_width road))) <$> roads network) <$>
    (match generate_road_network contains centroid sqrt line_is_valid line_repaired
             line_buffer line_length 100 centre [north; east] unit_square []
             None None coarse with
     | Done network => Some network
     | _ => None
     end)
  = Some [("access", 20%Q); ("access", 20%Q)].
Proof. vm_compute. reflexivity. Qed.

End RoadsExamples.

(* ===================================================================== *)
(** * Facts about place_assets *)
(* ===================================================================== *)

Module PlacerFacts.
Import Placer.
#[local] Open Scope Q_scope.

(** ** The ranking *)

Lemma insert_by_score_perm c sorted : insert_by_score c sorted ≡ₚ c :: sorted.
Proof.
  induction sorted as [|c' rest IH]; [done|]. simpl.
  destruct (Py.leb c'.2 c.2); [done|]. rewrite IH. apply Permutation_swap.
Qed.

Lemma sort_by_score_perm scored : sort_by_score scored ≡ₚ scored.
Proof.
  induction scored as [|c rest IH]; [done|]. simpl.
  by rewrite insert_by_score_perm, IH.
Qed.

(** Scores never increase along the ranking. *)
Definition ranked (a b : Q * Q * Q) : Prop := b.2 <= a.2.

Lemma insert_by_score_sorted c sorted :
  Sorted ranked sorted → Sorted ranked (insert_by_score c sorted).
Proof.
  induction 1 as [|c' rest Hs IH Hhd]; simpl; [by repeat constructor|].
  destruct (Py.leb c'.2 c.2) eqn:Hle.
  - apply PyFacts.leb_le in Hle. by repeat constructor.
  - constructor; [done|].
    assert (c.2 <= c'.2) as Hc.
    { apply Qlt_le_weak, Qnot_le_lt. rewrite <-PyFacts.leb_le. by rewrite Hle. }
    destruct rest as [|c'' rest]; simpl; [by constructor|].
    destruct (Py.leb c''.2 c.2); constructor; [done|]. by inversion Hhd.
Qed.

Lemma sort_by_score_sorted scored : Sorted ranked (sort_by_score scored).
Proof.
  induction scored as [|c rest IH]; [constructor|]. by apply insert_by_score_sorted.
Qed.

Section Geometry.
Context {Polygon : Type}.
Variable buffer : Polygon → Q → option Polygon.
Variable is_empty : Polygon → bool.
Variable is_valid : Polygon → bool.
Variable contains : Polygon → Q * Q → option bool.
Variable bounds : Polygon → option (Q * Q * Q * Q).
Variable unary_union : list Polygon → option Polygon.
Variable sqrt : Q → Q.
Variable box : Q → Q → Q → Q → Polygon.
Variable covers : Polygon → Polygon → bool.
Variable intersects : Polygon → Polygon → option bool.
Variable distance : Q * Q → Q * Q → Q.
Variable centroid : Polygon → option (Q * Q).

#[local] Abbreviation place_requirement :=
  (place_requirement buffer is_empty is_valid contains bounds unary_union sqrt
     box covers intersects distance centroid).
#[local] Abbreviation place_all :=
  (place_all buffer is_empty is_valid contains bounds unary_union sqrt
     box covers intersects distance centroid).
#[local] Abbreviation place_assets :=
  (place_assets buffer is_empty is_valid contains bounds unary_union sqrt
     box covers intersects distance centroid).

(** A larger bound on the grid walk does not change a result. *)
Lemma place_requirement_fuel_le w fuel fuel' property_boundary exclusion_zones
    entry_point terrain_data constraints req placed_assets result :
  (fuel ≤ fuel')%nat →
  place_requirement w fuel property_boundary exclusion_zones entry_point
    terrain_data constraints req placed_assets = Done result →
  place_requirement w fuel' property_boundary exclusion_zones entry_point
    terrain_data constraints req placed_assets = Done result.
Proof.
  intros Hle. unfold Placer.place_requirement.
  destruct (get_asset_type w (req_type req)) as [found|]; [|done].
  destruct (usable found) as [asset_type|]; [|done].
  destruct (Candidates.generate_candidate_locations _ _ _ _ _ _ _ fuel _ _ _ _ _)
    as [candidates| |] eqn:Hgen; [|done..].
  by rewrite (CandidatesFacts.candidates_fuel_le _ _ _ _ _ _ _ _ _ _ _ _ _ _ _ Hle Hgen).
Qed.

Lemma place_all_fuel_le w fuel fuel' property_boundary exclusion_zones entry_point
    terrain_data constraints asset_requirements : ∀ placed_assets result,
  (fuel ≤ fuel')%nat →
  place_all w fuel property_boundary exclusion_zones entry_point terrain_data
    constraints asset_requirements placed_assets = Done result →
  place_all w fuel' property_boundary exclusion_zones entry_point terrain_data
    constraints asset_requirements placed_assets = Done result.
Proof.
  induction asset_requirements as [|req rest IH]; intros placed_assets result Hle;
    [done|]. simpl.
  destruct (place_requirement w fuel _ _ _ _ _ _ _) as [placed'| |] eqn:Hreq; [|done..].
  rewrite (place_requirement_fuel_le _ _ _ _ _ _ _ _ _ _ _ Hle Hreq). by apply IH.
Qed.

Lemma place_assets_fuel_le w fuel fuel' property_boundary exclusion_zones
    asset_requirements entry_point terrain_data result :
  (fuel ≤ fuel')%nat →
  place_assets w fuel property_boundary exclusion_zones asset_requirements
    entry_point terrain_data = Done result →
  place_assets w fuel' property_boundary exclusion_zones asset_requirements
    entry_point terrain_data = Done result.
Proof.
  intros Hle. unfold Placer.place_assets. destruct (get_constraints w); [|done].
  by apply place_all_fuel_le.
Qed.

End Geometry.

End PlacerFacts.

Module PlacerExamples.
Import Placer PlacerFacts Boxes.
#[local] Open Scope Q_scope.

Definition tank : asset_type :=
  AssetType (Some "tank") (Some 6) (Some 4) [("material", "steel")]%string.
Definition shed : asset_type := AssetType (Some "shed") (Some 2) (Some 2) [].

Definition constraints_yaml : yaml := Yaml (Some 4) (Some 2) (Some 12) None.
Definition asset_templates_yaml : yaml := Yaml None None None (Some [tank; shed]).

(** A configuration directory with the two files the placer reads. *)
Definition morning : world :=
  World {[ "constraints.yaml"%string := constraints_yaml;
           "asset_templates.yaml"%string := asset_templates_yaml ]}
        0 ∅ ∅.

Definition wanted : list requirement :=
  [ Requirement (Some "tank"%string) (Some 2%Z);
    Requirement (Some "silo"%string) None;
    Requirement (Some "shed"%string) (Some 1%Z) ].

#[local] Abbreviation place w :=
  (place_assets buffer is_empty is_valid contains bounds unary_union sqrt make
     covers intersects distance centroid w 10 lot [pond] wanted (feet 0, feet 20) None).

(** Type, position in feet and score of each placement. *)
Definition summary (result : outcome (list placed))
  : outcome (list (option string * Q * Q * Q)) :=
  match result with
  | Done l =>
      Done ((λ p : placed,
               (placed_type p, Qred (placed_x p / Py.FEET_TO_DEGREES),
                Qred (placed_y p / Py.FEET_TO_DEGREES), Qred (placed_score p))) <$> l)
  | Raised => Raised
  | Timeout => Timeout
  end.

(** Two tanks, no silo (no such template), one shed; the shed ties with
    another candidate on score and the earlier grid point wins. *)
Example morning_layout :
  summary (place morning)
  = Done [ (Some "tank"%string, 14, 24, 33 # 50);
           (Some "tank"%string, 14, 14, 13 # 20);
           (Some "shed"%string, 34, 14, 11 # 20) ].
Proof. vm_compute. reflexivity. Qed.

End PlacerExamples.

(* ===================================================================== *)
(** * Laws of the expiring cache *)
(* ===================================================================== *)

Module CacheLaws.
Import Cache.

Lemma get_cached_set_cached now now' key v ttl c :
  get_cached now' key (set_cached now key v ttl c) =
    if bool_decide (now' < now + timedelta_seconds ttl)
    then (v, set_cached now key v ttl c)
    else (PyNone, delete key c).
Proof.
  unfold get_cached, set_cached. rewrite lookup_insert_eq. simpl.
  case_bool_decide; [done|]. by rewrite delete_insert_eq.
Qed.

(** X1. What [set_cached] stores under a key is what [get_cached] returns
    for that key at every instant before the expiry, and the store is left
    as it is; from the expiry on the answer is [None] and the entry is
    removed from the store. *)
Theorem set_then_get (now now' : Z) (key : string) (v : pyobj) (ttl : Z)
    (c : gmap string entry) :
  get_cached now' key (set_cached now key v ttl c) =
    if bool_decide (now' < now + timedelta_seconds ttl)
    then (v, set_cached now key v ttl c)
    else (PyNone, delete key c).
Proof. apply get_cached_set_cached. Qed.

(** X2. [clear_cache(prefix)] removes exactly the keys that start with the
    prefix and leaves the entries of all other keys untouched; without a
    prefix, or with the empty one, nothing is left. *)
Theorem clear_cache_prefix (c : gmap string entry) :
  clear_cache None c = ∅ ∧
  clear_cache (Some "") c = ∅ ∧
  ∀ p k, clear_cache (Some p) c !! k = if String.prefix p k then None else c !! k.
Proof.
  split; [done|]. split; [done|]. intros p k. unfold clear_cache.
  destruct (String.eqb_spec p "") as [->|Hp].
  { rewrite lookup_empty. by destruct k. }
  rewrite map_lookup_filter. destruct (c !! k) as [e|]; simpl.
  - destruct (String.prefix p k) eqn:E.
    + by rewrite option_guard_False.
    + by rewrite option_guard_True.
  - by destruct (String.prefix p k).
Qed.

(** X3. The statistics add up: the number of entries is the number of
    expired ones plus the number of active ones, and the active ones are
    exactly the entries whose expiry is still ahead. *)
Theorem cache_stats_partition (now : Z) (c : gmap string entry) :
  let '(total_entries, expired_entries, active_entries) := get_cache_stats now c in
  total_entries = size c ∧
  total_entries = (expired_entries + active_entries)%nat ∧
  active_entries = size (filter (λ kv : string * entry, now < expires_at kv.2) c).
Proof.
  unfold get_cache_stats.
  set (expired := filter (λ kv : string * entry, expires_at kv.2 ≤ now) c).
  set (active := filter (λ kv : string * entry, now < expires_at kv.2) c).
  assert (active = filter (λ kv : string * entry, ¬ expires_at kv.2 ≤ now) c) as Hact.
  { apply map_filter_ext. intros k e _. simpl. lia. }
  assert (size c = (size expired + size active)%nat) as Hsize.
  { rewrite <-(map_filter_union_complement
                 (λ kv : string * entry, expires_at kv.2 ≤ now) c) at 1.
    rewrite map_size_disj_union; [by rewrite Hact|].
    apply map_disjoint_filter_complement. }
  split; [done|]. split; lia.
Qed.

Section Decorator.
Context {Args : Type}.
Variable generate_cache_key : string → Args → string.
Variable func : Args → pyobj.
Variable func_name : string.
Variable ttl : Z.
Variable key_prefix : string.

#[local] Abbreviation wrapper := (wrapper generate_cache_key func func_name ttl key_prefix).
#[local] Abbreviation call_many := (call_many generate_cache_key func func_name ttl key_prefix).
#[local] Abbreviation cache_key := (cache_key generate_cache_key func_name key_prefix).

Lemma wrapper_miss now args w :
  store w !! cache_key args = None →
  wrapper now args w =
    (func args, World (set_cached now (cache_key args) (func args) ttl (store w))
                      (args :: calls w)).
Proof. intros Hw. unfold Cache.wrapper, get_cached. by rewrite Hw. Qed.

Lemma wrapper_hit now now' args v cs c :
  v ≠ PyNone → now' < now + timedelta_seconds ttl →
  wrapper now' args (World (set_cached now (cache_key args) v ttl c) cs)
  = (v, World (set_cached now (cache_key args) v ttl c) cs).
Proof.
  intros Hv Ht. unfold Cache.wrapper. simpl. rewrite get_cached_set_cached.
  rewrite bool_decide_true by done. by destruct v.
Qed.

Lemma call_many_hits now nows args v cs c :
  v ≠ PyNone → Forall (λ t, t < now + timedelta_seconds ttl) nows →
  call_many nows args (World (set_cached now (cache_key args) v ttl c) cs)
  = (replicate (length nows) v, World (set_cached now (cache_key args) v ttl c) cs).
Proof.
  intros Hv. induction 1 as [|t rest Ht _ IH]; [done|].
  simpl. rewrite wrapper_hit by done. by rewrite IH.
Qed.

End Decorator.

(** X4. A function wrapped by [cached] whose result is not [None] runs once
    for a series of calls with the same arguments made before the entry
    expires: every call returns that result, the body is executed for the
    first call only, and the store holds the entry written then.  The first
    call at or after the expiry runs the body again. *)
Theorem cached_runs_once {Args : Type}
    (generate_cache_key : string → Args → string) (func : Args → pyobj)
    (func_name : string) (ttl : Z) (key_prefix : string)
    (args : Args) (w : world Args) (now : Z) (nows : list Z) :
  func args ≠ PyNone →
  store w !! cache_key generate_cache_key func_name key_prefix args = None →
  Forall (λ t, t < now + timedelta_seconds ttl) nows →
  let key := cache_key generate_cache_key func_name key_prefix args in
  let w1 := World (set_cached now key (func args) ttl (store w)) (args :: calls w) in
  call_many generate_cache_key func func_name ttl key_prefix (now :: nows) args w
    = (replicate (S (length nows)) (func args), w1) ∧
  ∀ later, now + timedelta_seconds ttl ≤ later →
    wrapper generate_cache_key func func_name ttl key_prefix later args w1
    = (func args,
       World (set_cached later key (func args) ttl (store w)) (args :: args :: calls w)).
Proof.
  intros Hf Hw Hnows key w1. split.
  - cbn [Cache.call_many]. rewrite wrapper_miss by done.
    fold key. fold w1. unfold w1.
    by rewrite (call_many_hits generate_cache_key func func_name ttl key_prefix
                  now nows args (func args)).
  - intros later Hlater. unfold Cache.wrapper, w1. simpl. fold key.
    rewrite get_cached_set_cached. rewrite bool_decide_false by lia. simpl.
    unfold set_cached. by rewrite insert_delete_eq.
Qed.

(** A lookup that answers a length, asked four times within the hour. *)
Lemma cached_runs_once_witness :
  let gen := λ (p : string) (a : string), p +:+ "#" +:+ a in
  let f := λ a : string, PyInt (Z.of_nat (String.length a)) in
  call_many gen f "measure" 3600 "cache" [0; 10; 20; 3599999999] "lot" (World ∅ [])
  = ([PyInt 3; PyInt 3; PyInt 3; PyInt 3],
     World (set_cached 0 "cache:measure#lot" (PyInt 3) 3600 ∅) ["lot"]).
Proof.
  intros gen f.
  refine (proj1 (cached_runs_once gen f "measure" 3600 "cache" "lot" (World ∅ [])
                   0 [10; 20; 3599999999] _ _ _)).
  - done.
  - done.
  - repeat constructor; unfold timedelta_seconds; lia.
Defined.

End CacheLaws.

(* ===================================================================== *)
(** * Laws of the rate limiter *)
(* ===================================================================== *)

Module RateLimitLaws.
Import RateLimit.

(** Every rule of the table allows at least one request in a window of a
    minute. *)
Lemma limit_config_rule path cfg :
  limit_config path = Some cfg → (0 < max_requests cfg)%nat ∧ window_seconds cfg = 60.
Proof.
  unfold limit_config. destruct (List.find _ RATE_LIMITS) as [rule|] eqn:Hfind; [|done].
  simpl. intros [= <-]. apply find_some in Hfind as [Hin _].
  unfold RATE_LIMITS in Hin. simpl in Hin.
  destruct Hin as [<-|[<-|[<-|[<-|[]]]]]; simpl; split; (lia || done).
Qed.

Lemma info_limited now r st :
  limited (get_rate_limit_info now r st).1 = negb (check_rate_limit now r st).1.
Proof.
  unfold get_rate_limit_info, check_rate_limit.
  destruct (limit_config (url_path r)) as [cfg|] eqn:Hcfg; [|done].
  apply limit_config_rule in Hcfg as [Hmax _].
  destruct (st !! rate_key r) as [e|]; simpl.
  - repeat case_bool_decide; simpl; (done || lia).
  - rewrite bool_decide_false; [done|]. simpl. lia.
Qed.

Lemma info_remaining now r cfg st :
  limit_config (url_path r) = Some cfg →
  remaining (get_rate_limit_info now r st).1 =
    Some (Z.max 0 (Z.of_nat (max_requests cfg)
                   - Z.of_nat (length (prune now (window_seconds cfg)
                                         (stored (rate_key r) st))))).
Proof.
  intros Hcfg. unfold get_rate_limit_info, stored, prune. rewrite Hcfg.
  destruct (st !! rate_key r) as [e|]; simpl; [done|]. f_equal. lia.
Qed.

Lemma check_after_info now now' r st :
  now ≤ now' →
  check_rate_limit now' r (get_rate_limit_info now r st).2 = check_rate_limit now' r st.
Proof.
  intros Hle. unfold get_rate_limit_info, check_rate_limit.
  destruct (limit_config (url_path r)) as [cfg|] eqn:Hcfg; [|done].
  destruct (st !! rate_key r) as [e|] eqn:He; simpl; [|by rewrite He].
  rewrite lookup_insert_eq. simpl.
  pose proof (RateLimitFacts.prune_prune now now' (window_seconds cfg) (requests e) Hle)
    as Hprune. unfold prune in Hprune. rewrite Hprune.
  case_bool_decide; by rewrite insert_insert_eq.
Qed.

(** X5. [get_rate_limit_info] reports what [check_rate_limit] would decide
    at the same instant: [limited] is set exactly when the request would be
    rejected, and for a throttled path [remaining] is the limit less the
    number of timestamps that survive pruning, and never below 0. *)
Theorem info_agrees_with_check (now : Z) (r : request) (st : gmap string entry) :
  limited (get_rate_limit_info now r st).1 = negb (check_rate_limit now r st).1 ∧
  ∀ cfg, limit_config (url_path r) = Some cfg →
    remaining (get_rate_limit_info now r st).1 =
      Some (Z.max 0 (Z.of_nat (max_requests cfg)
                     - Z.of_nat (length (prune now (window_seconds cfg)
                                           (stored (rate_key r) st))))).
Proof. split; [apply info_limited|]. intros cfg. apply info_remaining. Qed.

(** X6. Asking for the rate-limit information uses up no quota: a call of
    [check_rate_limit] made afterwards has the verdict, and leaves the
    store, that it would have had without the question. *)
Theorem info_uses_no_quota (now now' : Z) (r : request) (st : gmap string entry) :
  now ≤ now' →
  check_rate_limit now' r (get_rate_limit_info now r st).2 = check_rate_limit now' r st.
Proof. apply check_after_info. Qed.

Definition analyst : request := Request "/api/analyze" (Some "10.0.0.7").

Lemma info_uses_no_quota_witness :
  check_rate_limit 2000000 analyst
    (get_rate_limit_info 1000000 analyst (check_rate_limit 0 analyst ∅).2).2
  = check_rate_limit 2000000 analyst (check_rate_limit 0 analyst ∅).2.
Proof. apply (info_uses_no_quota 1000000 2000000). lia. Defined.

(** X7. The sliding window holds for every rule of the table: for a client
    of a throttled path, whatever other traffic is interleaved, no time
    interval shorter than the window of the rule contains more admitted
    calls than the rule allows. *)
Theorem every_rule_bounded (r0 : request) (cfg : limit) (calls : list (Z * request)) :
  limit_config (url_path r0) = Some cfg →
  Sorted Z.le calls.*1 →
  (∀ c, c ∈ calls → rate_key c.2 = rate_key r0 → c.2 = r0) →
  ∀ lo hi, hi - lo < timedelta_seconds (window_seconds cfg) →
    (length (in_window lo hi (admitted r0 calls ∅)) ≤ max_requests cfg)%nat.
Proof.
  intros Hcfg Hs Hkeys.
  apply (RateLimitFacts.admitted_from_empty r0 cfg Hcfg calls Hs Hkeys).
Qed.

(** Twenty-one calls to '/analyze' within a second. *)
Definition volley : list (Z * request) :=
  (λ k, (Z.of_nat k * 40000, analyst)) <$> seq 0 21.

Lemma every_rule_bounded_witness :
  (length (in_window 0 59999999 (admitted analyst volley ∅)) ≤ 20)%nat.
Proof.
  apply (every_rule_bounded analyst (Limit 20 60) volley).
  - reflexivity.
  - unfold volley. simpl. repeat (constructor; [|try (constructor; lia)]). constructor.
  - intros c Hc _. unfold volley in Hc. apply list_elem_of_fmap in Hc as (k & -> & _).
    reflexivity.
  - unfold timedelta_seconds. simpl. lia.
Defined.

End RateLimitLaws.

(* ===================================================================== *)
(** * Laws of the request deduplication in handlers/optimize.py *)
(* ===================================================================== *)

Module OptimizeLaws.
Import Optimize.

Section DictLaws.
Context {V : Type}.
Implicit Types d : list (string * V).

Lemma get_app k d d' :
  Dict.get k (d ++ d') = match Dict.get k d with Some v => Some v | None => Dict.get k d' end.
Proof.
  induction d as [|[k' v'] d IH]; [done|]. simpl. by destruct (String.eqb k k').
Qed.

Lemma get_None_mem k d : Dict.get k d = None ↔ Dict.mem k d = false.
Proof.
  induction d as [|[k' v'] d IH]; [done|]. simpl. by destruct (String.eqb k k').
Qed.

Lemma mem_keys k d : Dict.mem k d = true ↔ k ∈ Dict.keys d.
Proof.
  unfold Dict.keys. induction d as [|[k' v'] d IH]; simpl.
  - split; [done|]. by intros ?%elem_of_nil.
  - rewrite elem_of_cons. destruct (String.eqb_spec k k') as [->|Hne].
    + split; auto.
    + rewrite IH. split; [auto|]. by intros [?|?].
Qed.

Lemma mem_tail k d : Dict.mem k d = false → Dict.mem k (tail d) = false.
Proof.
  destruct d as [|[k' v'] d]; [done|]. simpl. by destruct (String.eqb k k').
Qed.

Lemma keys_set k v d :
  Dict.keys (Dict.set k v d) = if Dict.mem k d then Dict.keys d else Dict.keys d ++ [k].
Proof.
  unfold Dict.keys. induction d as [|[k' v'] d IH]; [done|]. simpl.
  destruct (String.eqb_spec k k') as [->|Hne]; [done|]. rewrite fmap_cons, IH.
  by destruct (Dict.mem k d).
Qed.

End DictLaws.

Section Handler.
Context {Req Resp : Type}.
Variable _get_request_hash : Req → string.

#[local] Abbreviation state := (@state Resp).

(** A result that has just been cached can be looked up, eviction or not. *)
Lemma get_cache_result h (result : Resp) results :
  Dict.mem h results = false →
  Dict.get h (cache_result h result results) = Some result.
Proof.
  intros Hm. rewrite OptimizeFacts.cache_result_spec, OptimizeFacts.set_fresh by done.
  pose proof (proj2 (get_None_mem h results) Hm) as Hget.
  case_bool_decide as Hlen.
  - destruct results as [|[k v] rest].
    { simpl in Hlen. lia. }
    simpl. rewrite get_app. apply mem_tail, get_None_mem in Hm. simpl in Hm.
    rewrite Hm. simpl. by rewrite String.eqb_refl.
  - rewrite get_app, Hget. simpl. by rewrite String.eqb_refl.
Qed.

Lemma keys_cache_result h (result : Resp) results k :
  k ∈ Dict.keys (cache_result h result results) → k = h ∨ k ∈ Dict.keys results.
Proof.
  rewrite OptimizeFacts.cache_result_spec.
  assert (k ∈ Dict.keys (Dict.set h result results) → k = h ∨ k ∈ Dict.keys results)
    as Hset.
  { rewrite keys_set. destruct (Dict.mem h results); [auto|].
    rewrite elem_of_app, list_elem_of_singleton. tauto. }
  case_bool_decide; [|done]. intros Hk. apply Hset.
  unfold Dict.keys in *. destruct (Dict.set h result results); [done|].
  simpl in *. by right.
Qed.

Lemma NoDup_cache_result h (result : Resp) results :
  NoDup (Dict.keys results) → NoDup (Dict.keys (cache_result h result results)).
Proof.
  intros Hnd. rewrite OptimizeFacts.cache_result_spec.
  assert (NoDup (Dict.keys (Dict.set h result results))) as Hset.
  { rewrite keys_set. destruct (Dict.mem h results) eqn:Hm; [done|].
    apply NoDup_app. split; [done|]. split; [|apply NoDup_singleton].
    intros k Hk ->%list_elem_of_singleton. apply mem_keys in Hk. congruence. }
  case_bool_decide; [|done]. unfold Dict.keys in *.
  destruct (Dict.set h result results); [done|]. simpl in *. by apply NoDup_cons in Hset as [_ ?].
Qed.

Section Process.
Variable process : Req → option Resp.

#[local] Abbreviation optimize_layout := (optimize_layout _get_request_hash process).
#[local] Abbreviation serve := (serve _get_request_hash process).

(** The three ways a call of the handler can go. *)
Lemma optimize_layout_cases request st :
  let h := _get_request_hash request in
  (∃ cached, Dict.get h (_request_results st) = Some cached ∧
     optimize_layout request st = (Http200 cached, st))
  ∨ (Dict.get h (_request_results st) = None ∧ (h ∈ _pending_requests st) ∧
     optimize_layout request st = (Http202 h, st))
  ∨ (Dict.get h (_request_results st) = None ∧ (h ∉ _pending_requests st) ∧
     match process request with
     | Some result =>
         optimize_layout request st =
           (Http200 result,
            State (_pending_requests st) (cache_result h result (_request_results st)))
     | None => optimize_layout request st = (Http500, st)
     end).
Proof.
  intros h. unfold Optimize.optimize_layout, begin_request. fold h.
  destruct (Dict.get h (_request_results st)) as [cached|] eqn:Hget.
  { left. by exists cached. }
  right. case_bool_decide as Hp; [by left|]. right.
  split; [done|]. split; [done|].
  assert (({[h]} ∪ _pending_requests st) ∖ {[h]} = _pending_requests st) as Hset.
  { apply set_eq. intros x.
    rewrite elem_of_difference, elem_of_union, elem_of_singleton.
    split; [tauto|]. intros Hx. split; [by right|]. by intros ->. }
  destruct (process request) as [result|]; unfold finish_success, finish_error;
    simpl; rewrite Hset; [done|]. by destruct st.
Qed.

Lemma serve_app l1 l2 st :
  serve (l1 ++ l2) st =
    ((serve l1 st).1 ++ (serve l2 (serve l1 st).2).1, (serve l2 (serve l1 st).2).2).
Proof.
  revert st. induction l1 as [|r l1 IH]; intros st; simpl.
  { by destruct (serve l2 st). }
  destruct (optimize_layout r st) as [a st1]. rewrite IH.
  destruct (serve l1 st1) as [answers st2]. simpl.
  by destruct (serve l2 st2).
Qed.

Lemma optimize_layout_pending request st :
  _pending_requests st = ∅ →
  _pending_requests (optimize_layout request st).2 = ∅ ∧
  ∀ h, (optimize_layout request st).1 ≠ Http202 h.
Proof.
  intros Hp.
  destruct (optimize_layout_cases request st)
    as [(cached & _ & ->)|[(_ & Hin & _)|(_ & _ & Hrun)]]; simpl.
  - done.
  - rewrite Hp in Hin. by apply elem_of_empty in Hin.
  - destruct (process request); rewrite Hrun; simpl; done.
Qed.

Lemma serve_pending requests : ∀ st,
  _pending_requests st = ∅ →
  _pending_requests (serve requests st).2 = ∅ ∧
  Forall (λ a, ∀ h, a ≠ Http202 h) (serve requests st).1.
Proof.
  induction requests as [|r rest IH]; intros st Hp; [done|]. simpl.
  destruct (optimize_layout_pending r st Hp) as [Hp1 Ha].
  destruct (optimize_layout r st) as [a st1]. simpl in *.
  destruct (IH st1 Hp1) as [Hp2 Hrest].
  destruct (Optimize.serve _ _ rest st1) as [answers st2]. simpl in *.
  split; [done|]. by constructor.
Qed.

(** The fingerprints in the cache are fingerprints of requests served. *)
Lemma serve_keys requests : ∀ st k,
  k ∈ Dict.keys (_request_results (serve requests st).2) →
  k ∈ Dict.keys (_request_results st) ∨ k ∈ _get_request_hash <$> requests.
Proof.
  induction requests as [|r rest IH]; intros st k; [by left|]. simpl.
  destruct (optimize_layout r st) as [a st1] eqn:Hrun.
  specialize (IH st1 k). destruct (Optimize.serve _ _ rest st1) as [answers st2].
  simpl in *. intros Hk. destruct (IH Hk) as [Hk1|Hk1].
  - assert (k = _get_request_hash r ∨ k ∈ Dict.keys (_request_results st)) as [->|?].
    { destruct (optimize_layout_cases r st)
        as [(cached & _ & Heq)|[(_ & _ & Heq)|(_ & _ & Heq)]].
      - rewrite Heq in Hrun. injection Hrun as _ <-. by right.
      - rewrite Heq in Hrun. injection Hrun as _ <-. by right.
      - destruct (process r); rewrite Heq in Hrun; injection Hrun as _ <-.
        + simpl in Hk1. by apply keys_cache_result in Hk1.
        + by right. }
    + right. by left.
    + by left.
  - right. by right.
Qed.

(** The results of the requests that succeed, in the order served. *)
Definition completed (requests : list Req) : list (string * Resp) :=
  omap (λ r, result ← process r; Some (_get_request_hash r, result)) requests.

Lemma serve_last_ten requests :
  NoDup (_get_request_hash <$> requests) →
  _request_results (serve requests initial).2 =
    drop (length (completed requests) - 10) (completed requests).
Proof.
  induction requests as [|r l IH] using rev_ind; [done|].
  rewrite fmap_app. intros [Hnd [Hfresh _]]%NoDup_app. specialize (IH Hnd).
  rewrite serve_app. simpl.
  destruct (serve_pending l initial eq_refl) as [Hp _].
  pose proof (serve_keys l initial (_get_request_hash r)) as Hkeys.
  set (st := (serve l initial).2) in *.
  assert (Dict.mem (_get_request_hash r) (_request_results st) = false) as Hm.
  { apply not_true_iff_false. rewrite mem_keys. intros Hk.
    destruct (Hkeys Hk) as [Hk'|Hk']; [by apply elem_of_nil in Hk'|].
    apply (Hfresh _ Hk'). simpl. by left. }
  unfold completed in *. rewrite omap_app. simpl.
  set (done_before := omap _ l) in *.
  destruct (optimize_layout_cases r st)
    as [(cached & Hget & _)|[(_ & Hin & _)|(_ & _ & Hrun)]].
  { apply get_None_mem in Hm. congruence. }
  { rewrite Hp in Hin. by apply elem_of_empty in Hin. }
  destruct (optimize_layout r st) as [a st1]. simpl.
  destruct (process r) as [result|]; injection Hrun as _ ->; simpl.
  2:{ by rewrite app_nil_r. }
  rewrite length_app. simpl. rewrite IH in *.
  destruct (decide (length done_before < 10)%nat) as [Hlt|Hge].
  - replace (length done_before - 10)%nat with 0%nat in * by lia.
    replace (length done_before + 1 - 10)%nat with 0%nat by lia.
    rewrite !drop_0 in *. rewrite OptimizeFacts.cache_result_no_eviction by (left; lia).
    by apply OptimizeFacts.set_fresh.
  - assert (length (drop (length done_before - 10) done_before) = 10%nat) as Hlen.
    { rewrite length_drop. lia. }
    replace (length done_before + 1 - 10)%nat with (S (length done_before - 10)) by lia.
    rewrite drop_app_le by lia.
    destruct (drop (length done_before - 10) done_before) as [|oldest rest] eqn:Hdrop;
      [done|].
    rewrite OptimizeFacts.cache_result_fifo by done. f_equal.
    rewrite <-(Nat.add_1_r (_ - _)), <-drop_drop, Hdrop. done.
Qed.

End Process.

(** X8. A request that has been answered with a result is answered with
    the same result when a request with the same fingerprint comes next,
    and that second call changes nothing in the state; the processing of
    the second request is not looked at. *)
Theorem identical_request_replayed (process process' : Req → option Resp)
    (request request' : Req) (st st1 : state) (result : Resp) :
  _get_request_hash request' = _get_request_hash request →
  optimize_layout _get_request_hash process request st = (Http200 result, st1) →
  optimize_layout _get_request_hash process' request' st1 = (Http200 result, st1).
Proof.
  intros Hh Hrun.
  assert (Dict.get (_get_request_hash request) (_request_results st1) = Some result)
    as Hget.
  { destruct (optimize_layout_cases process request st)
      as [(cached & Hget & Heq)|[(_ & _ & Heq)|(Hget & _ & Heq)]].
    - rewrite Heq in Hrun. by injection Hrun as <- <-.
    - by rewrite Heq in Hrun.
    - destruct (process request); rewrite Heq in Hrun; [|done].
      injection Hrun as <- <-. simpl. apply get_cache_result. by apply get_None_mem. }
  unfold optimize_layout, begin_request. by rewrite Hh, Hget.
Qed.

(** X9. A request whose processing raises is answered with status 500 and
    leaves the state as it found it: the in-flight mark is removed and
    nothing is cached, so the same request is processed anew when it comes
    again. *)
Theorem failed_request_leaves_no_trace (process : Req → option Resp)
    (request : Req) (st : state) :
  (optimize_layout _get_request_hash process request st).1 = Http500 →
  process request = None ∧
  optimize_layout _get_request_hash process request st = (Http500, st).
Proof.
  intros Hrun.
  destruct (optimize_layout_cases process request st)
    as [(cached & _ & Heq)|[(_ & _ & Heq)|(_ & _ & Heq)]].
  - by rewrite Heq in Hrun.
  - by rewrite Heq in Hrun.
  - destruct (process request); [by rewrite Heq in Hrun|done].
Qed.

(** X10. While a request is in flight - its first locked block has run,
    its second has not - a request with the same fingerprint is answered
    with status 202 and the fingerprint, and changes nothing. *)
Theorem duplicate_in_flight_gets_202 (process : Req → option Resp)
    (request : Req) (st st1 : state) :
  begin_request (_get_request_hash request) st = (None, st1) →
  optimize_layout _get_request_hash process request st1
    = (Http202 (_get_request_hash request), st1).
Proof.
  unfold optimize_layout, begin_request.
  destruct (Dict.get _ (_request_results st)) as [cached|] eqn:Hget; [done|].
  case_bool_decide; [done|]. intros [= <-]. simpl. rewrite Hget.
  rewrite bool_decide_true; [done|]. apply elem_of_union_l. by apply elem_of_singleton.
Qed.

(** Requests served one after the other leave no in-flight mark
    behind, and none of them is answered with status 202. *)
Theorem sequential_requests_never_pending (process : Req → option Resp)
    (requests : list Req) :
  _pending_requests (serve _get_request_hash process requests initial).2 = ∅ ∧
  Forall (λ a, ∀ h, a ≠ Http202 h) (serve _get_request_hash process requests initial).1.
Proof. by apply serve_pending. Qed.

(** X11. Along every interleaving of the lock-guarded blocks the result
    cache holds at most one entry per fingerprint. *)
Theorem result_cache_keys_distinct (st : state) :
  rtc step initial st → NoDup (Dict.keys (_request_results st)).
Proof.
  apply (rtc_ind_r (λ st : state, NoDup (Dict.keys (_request_results st))) initial).
  - apply NoDup_nil_2.
  - intros st1 st2 _ Hstep Hnd. destruct Hstep as [h st1|h result st1|h st1]; simpl.
    + unfold begin_request. destruct (Dict.get h (_request_results st1)); [done|].
      by case_bool_decide.
    + by apply NoDup_cache_result.
    + done.
Qed.

(** X12. When requests with pairwise different fingerprints are served
    one after the other from the initial state, the result cache ends up
    holding the results of the last ten requests that succeeded, in the
    order in which they were served. *)
Theorem result_cache_holds_last_ten (process : Req → option Resp)
    (requests : list Req) :
  NoDup (_get_request_hash <$> requests) →
  _request_results (serve _get_request_hash process requests initial).2 =
    drop (length (completed process requests) - 10) (completed process requests).
Proof. apply serve_last_ten. Qed.

End Handler.

(** Requests are their own fingerprints; a request succeeds with its
    length unless it is empty. *)
Definition measure (request : string) : option nat :=
  if String.eqb request "" then None else Some (String.length request).

Lemma identical_request_replayed_witness :
  optimize_layout (λ h : string, h) (λ _, None) "lot"
    (optimize_layout (λ h : string, h) measure "lot" initial).2
  = (Http200 3%nat, (optimize_layout (λ h : string, h) measure "lot" initial).2).
Proof.
  apply (identical_request_replayed (λ h : string, h) measure (λ _, None)
           "lot" "lot" initial); reflexivity.
Defined.

Lemma failed_request_leaves_no_trace_witness :
  measure "" = None ∧
  optimize_layout (λ h : string, h) measure "" initial = (Http500, initial).
Proof.
  apply (failed_request_leaves_no_trace (λ h : string, h) measure "" initial).
  reflexivity.
Defined.

Lemma duplicate_in_flight_gets_202_witness :
  optimize_layout (λ h : string, h) measure "lot"
    (begin_request (Resp:=nat) "lot" initial).2
  = (Http202 "lot", (begin_request (Resp:=nat) "lot" initial).2).
Proof.
  apply (duplicate_in_flight_gets_202 (λ h : string, h) measure "lot" initial).
  reflexivity.
Defined.

Lemma result_cache_keys_distinct_witness :
  NoDup (Dict.keys (_request_results
    (finish_success "a" 1%nat (begin_request (Resp:=nat) "a" initial).2))).
Proof.
  apply result_cache_keys_distinct.
  eapply rtc_l; [apply (step_begin "a")|].
  eapply rtc_l; [apply (step_success "a" 1%nat)|]. apply rtc_refl.
Defined.

Lemma result_cache_holds_last_ten_witness :
  _request_results (serve (λ h : string, h) measure OptimizeFacts.digits initial).2 =
    drop (length (completed (λ h : string, h) measure OptimizeFacts.digits) - 10)
         (completed (λ h : string, h) measure OptimizeFacts.digits).
Proof.
  apply (result_cache_holds_last_ten (λ h : string, h) measure OptimizeFacts.digits).
  apply (bool_decide_unpack (NoDup ((λ h : string, h) <$> OptimizeFacts.digits))).
  vm_compute. reflexivity.
Defined.

End OptimizeLaws.

(* ===================================================================== *)
(** * Laws of the cut and fill calculation *)
(* ===================================================================== *)

Module CutFillLaws.
Import CutFill.
#[local] Open Scope Q_scope.

Lemma cell_cut_fill_exclusive e v :
  (cell_cut_fill e v).1 = 0 ∨ (cell_cut_fill e v).2 = 0.
Proof.
  unfold cell_cut_fill. destruct (Py.ltb v e); [by right|].
  destruct (Py.ltb e v); by left.
Qed.

Lemma cell_cut_fill_swap e v :
  cell_cut_fill v e = ((cell_cut_fill e v).2, (cell_cut_fill e v).1).
Proof.
  unfold cell_cut_fill.
  destruct (Py.ltb v e) eqn:E1, (Py.ltb e v) eqn:E2; try done.
  apply PyFacts.ltb_lt in E1, E2. lra.
Qed.

Lemma sum_nonneg (r : list (list Q)) :
  Forall (λ q, 0 <= q) (Raster.cells r) → 0 <= Raster.sum r.
Proof.
  unfold Raster.sum, Raster.cells. induction 1 as [|q l Hq _ IH]; simpl; lra.
Qed.

Lemma get_fmap (f : Q * Q → Q) (cells : list (list (Q * Q))) i j :
  Raster.get ((λ row : list (Q * Q), f <$> row) <$> cells) i j =
    f <$> (row ← cells !! i; row !! j).
Proof.
  unfold Raster.get. rewrite list_lookup_fmap.
  destruct (cells !! i) as [row|]; simpl; [|done]. by rewrite list_lookup_fmap.
Qed.

Section Masked.
Context {Polygon : Type}.
Variable grid_resolution : Q.
Variable is_empty : Polygon → bool.
Variable contains : Polygon → Q * Q → bool.
Variable area : Polygon → Q.

#[local] Abbreviation calculate_volumes :=
  (calculate_volumes grid_resolution is_empty contains area).
#[local] Abbreviation cell_volumes :=
  (cell_volumes grid_resolution is_empty contains).

(** The grid of cells behind a result: cell [(i, j)] of the two maps is
    what the loop body computes for [(i, j)]. *)
Definition computed_by (dem proposed_dem : list (list Q)) (bounds : Q * Q * Q * Q)
    (property_boundary : option Polygon) (r : volumes) : Prop :=
  ∃ cells : list (list (Q * Q)),
    cut_map r = (λ row : list (Q * Q), fst <$> row) <$> cells ∧
    fill_map r = (λ row : list (Q * Q), snd <$> row) <$> cells ∧
    length cells = (Raster.shape dem).1 ∧
    Forall (λ row, length row = (Raster.shape dem).2) cells ∧
    ∀ i j c, (row ← cells !! i; row !! j) = Some c →
      cell_volumes dem proposed_dem bounds property_boundary i j = Some c.

Lemma calculate_volumes_cells dem proposed_grades bounds property_boundary r :
  calculate_volumes dem proposed_grades bounds property_boundary = Some r →
  ∃ proposed_dem,
    _create_proposed_dem grid_resolution proposed_grades (Raster.shape dem) bounds
      = Some proposed_dem ∧
    computed_by dem proposed_dem bounds property_boundary r ∧
    cut_volume_ft3 r = Raster.sum (cut_map r) * (grid_resolution * grid_resolution) ∧
    fill_volume_ft3 r = Raster.sum (fill_map r) * (grid_resolution * grid_resolution) ∧
    net_volume_ft3 r = cut_volume_ft3 r - fill_volume_ft3 r ∧
    cut_volume_yd3 r = cut_volume_ft3 r / 27 ∧
    fill_volume_yd3 r = fill_volume_ft3 r / 27 ∧
    net_volume_yd3 r = net_volume_ft3 r / 27.
Proof.
  unfold CutFill.calculate_volumes.
  destruct (_create_proposed_dem _ _ _ _) as [proposed_dem|]; [|done].
  cbn [mbind option_bind].
  destruct (mapM _ _) as [cells|] eqn:Hcells; [|done].
  cbn [mbind option_bind]. intros [= <-]. simpl.
  exists proposed_dem. split; [done|]. split; [|done].
  exists cells. split; [done|]. split; [done|].
  apply mapM_Some_1 in Hcells.
  split; [|split].
  - apply Forall2_length in Hcells. by rewrite length_seq in Hcells.
  - eapply Forall2_Forall_r; [exact Hcells|].
    apply Forall_forall. intros i _ row Hrow. apply mapM_Some_1 in Hrow.
    apply Forall2_length in Hrow. by rewrite length_seq in Hrow.
  - intros i j c Hc.
    destruct (cells !! i) as [row|] eqn:Hrow; [|done]. simpl in Hc.
    destruct (Forall2_lookup_r _ _ _ _ _ Hcells Hrow) as (i' & Hi' & Hmap).
    apply lookup_seq in Hi' as [-> _]. simpl in Hmap.
    apply mapM_Some_1 in Hmap.
    destruct (Forall2_lookup_r _ _ _ _ _ Hmap Hc) as (j' & Hj' & Hcell).
    apply lookup_seq in Hj' as [-> _]. done.
Qed.

(** Cell by cell: the two depths of a cell come from one run of the loop
    body. *)
Lemma computed_cell dem proposed_dem bounds property_boundary r i j cut fill :
  computed_by dem proposed_dem bounds property_boundary r →
  Raster.get (cut_map r) i j = Some cut → Raster.get (fill_map r) i j = Some fill →
  cell_volumes dem proposed_dem bounds property_boundary i j = Some (cut, fill).
Proof.
  intros (cells & -> & -> & _ & _ & Hcells). rewrite !get_fmap.
  destruct (row ← cells !! i; row !! j) as [[c f]|] eqn:Hc; [|done].
  simpl. intros [= <-] [= <-]. by apply Hcells.
Qed.

Lemma computed_get dem proposed_dem bounds property_boundary r i j :
  computed_by dem proposed_dem bounds property_boundary r →
  (i < (Raster.shape dem).1)%nat → (j < (Raster.shape dem).2)%nat →
  ∃ cut fill,
    Raster.get (cut_map r) i j = Some cut ∧ Raster.get (fill_map r) i j = Some fill.
Proof.
  intros (cells & -> & -> & Hlen & Hrows & _) Hi Hj. rewrite !get_fmap.
  destruct (lookup_lt_is_Some_2 cells i) as [row Hrow]; [lia|].
  rewrite Hrow. simpl.
  rewrite Forall_forall in Hrows.
  destruct (lookup_lt_is_Some_2 row j) as [[c f] Hc].
  { rewrite (Hrows row); [done|]. by eapply list_elem_of_lookup_2. }
  rewrite Hc. by exists c, f.
Qed.

Lemma cell_volumes_inv dem proposed_dem bounds property_boundary i j c :
  cell_volumes dem proposed_dem bounds property_boundary i j = Some c →
  c = (0, 0) ∨
  ∃ e v, Raster.get dem i j = Some e ∧ Raster.get proposed_dem i j = Some v ∧
         c = cell_cut_fill e v.
Proof.
  unfold CutFill.cell_volumes. destruct bounds as [[[minx miny] maxx] maxy].
  destruct (Raster.get dem i j) as [e|]; [|done].
  destruct (Raster.get proposed_dem i j) as [v|]; [|done]. simpl.
  destruct (match masking is_empty property_boundary with
            | Some p => _ | None => false end); intros [= <-]; [by left|].
  right. by exists e, v.
Qed.

Lemma volumes_nonneg dem proposed_grades bounds property_boundary r :
  calculate_volumes dem proposed_grades bounds property_boundary = Some r →
  0 <= cut_volume_ft3 r ∧ 0 <= fill_volume_ft3 r.
Proof.
  intros Hrun.
  destruct (CutFillFacts.volumes_maps_nonneg grid_resolution is_empty contains area
              _ _ _ _ _ Hrun) as [Hcut Hfill].
  apply calculate_volumes_cells in Hrun as (_ & _ & _ & -> & -> & _).
  apply sum_nonneg in Hcut, Hfill.
  assert (0 <= grid_resolution * grid_resolution) as Harea.
  { destruct (Qlt_le_dec grid_resolution 0); nra. }
  split; nra.
Qed.

End Masked.

(** X13. In the maps returned by [calculate_volumes] no depth is negative
    and no cell has both a cut and a fill depth; the cut and the fill
    volume are not negative, and the net volume is the cut volume less the
    fill volume. *)
Theorem cut_and_fill_exclusive {Polygon : Type} (grid_resolution : Q)
    (is_empty : Polygon → bool) (contains : Polygon → Q * Q → bool)
    (area : Polygon → Q)
    (dem : list (list Q)) (proposed_grades : grades) (bounds : Q * Q * Q * Q)
    (property_boundary : option Polygon) (r : volumes) :
  calculate_volumes grid_resolution is_empty contains area
    dem proposed_grades bounds property_boundary = Some r →
  (∀ i j cut fill,
     Raster.get (cut_map r) i j = Some cut → Raster.get (fill_map r) i j = Some fill →
     0 <= cut ∧ 0 <= fill ∧ (cut = 0 ∨ fill = 0)) ∧
  0 <= cut_volume_ft3 r ∧ 0 <= fill_volume_ft3 r ∧
  net_volume_ft3 r = cut_volume_ft3 r - fill_volume_ft3 r.
Proof.
  intros Hrun.
  pose proof (volumes_nonneg grid_resolution is_empty contains area _ _ _ _ _ Hrun)
    as [Hcut Hfill].
  destruct (calculate_volumes_cells grid_resolution is_empty contains area
              _ _ _ _ _ Hrun) as (proposed_dem & _ & Hcells & _ & _ & Hnet & _).
  split; [|done].
  intros i j cut fill Hc Hf.
  pose proof (computed_cell grid_resolution is_empty contains _ _ _ _ _ _ _ _ _
                Hcells Hc Hf) as Hcell.
  apply cell_volumes_inv in Hcell as [[= -> ->]|(e & v & _ & _ & Heq)].
  { split; [lra|]. split; [lra|by left]. }
  pose proof (CutFillFacts.cell_cut_fill_nonneg e v) as [? ?].
  pose proof (cell_cut_fill_exclusive e v) as Hex.
  rewrite <-Heq in *. simpl in *. done.
Qed.

Lemma cut_and_fill_exclusive_witness :
  ∃ r, calculate_volumes 10 (λ _ : unit, false) (λ _ _, true) (λ _, 1)
         [[100; 80]] (Grades (Some 90) None [] []) (0, 0, 1, 1) None = Some r ∧
    (∀ i j cut fill,
       Raster.get (cut_map r) i j = Some cut → Raster.get (fill_map r) i j = Some fill →
       0 <= cut ∧ 0 <= fill ∧ (cut = 0 ∨ fill = 0)) ∧
    0 <= cut_volume_ft3 r ∧ 0 <= fill_volume_ft3 r ∧
    net_volume_ft3 r = cut_volume_ft3 r - fill_volume_ft3 r.
Proof.
  eexists. split; [vm_compute; reflexivity|].
  apply (cut_and_fill_exclusive 10 (λ _ : unit, false) (λ _ _, true) (λ _, 1)
           [[100; 80]] (Grades (Some 90) None [] []) (0, 0, 1, 1) None).
  vm_compute. reflexivity.
Defined.

(** X14. With a property boundary that is not empty, a cell whose grid
    point lies outside the boundary has cut depth 0 and fill depth 0,
    whatever the two elevations are; an empty boundary masks nothing: the
    result is the one computed without a boundary. *)
Theorem cells_outside_boundary_are_zero {Polygon : Type} (grid_resolution : Q)
    (is_empty : Polygon → bool) (contains : Polygon → Q * Q → bool)
    (area : Polygon → Q)
    (dem : list (list Q)) (proposed_grades : grades) (minx miny maxx maxy : Q)
    (p : Polygon) :
  (is_empty p = false →
   ∀ r i j,
     calculate_volumes grid_resolution is_empty contains area
       dem proposed_grades (minx, miny, maxx, maxy) (Some p) = Some r →
     (i < (Raster.shape dem).1)%nat → (j < (Raster.shape dem).2)%nat →
     contains p (minx + inject_Z (Z.of_nat j) * grid_res_deg grid_resolution,
                 miny + inject_Z (Z.of_nat i) * grid_res_deg grid_resolution) = false →
     Raster.get (cut_map r) i j = Some 0 ∧ Raster.get (fill_map r) i j = Some 0) ∧
  (is_empty p = true →
   calculate_volumes grid_resolution is_empty contains area
     dem proposed_grades (minx, miny, maxx, maxy) (Some p)
   = calculate_volumes grid_resolution is_empty contains area
       dem proposed_grades (minx, miny, maxx, maxy) None).
Proof.
  split.
  - intros Hne r i j Hrun Hi Hj Hout.
    destruct (calculate_volumes_cells grid_resolution is_empty contains area
                _ _ _ _ _ Hrun) as (proposed_dem & _ & Hcells & _).
    destruct (computed_get grid_resolution is_empty contains _ _ _ _ _ i j
                Hcells Hi Hj) as (cut & fill & Hc & Hf).
    pose proof (computed_cell grid_resolution is_empty contains _ _ _ _ _ _ _ _ _
                  Hcells Hc Hf) as Hcell.
    unfold cell_volumes, masking in Hcell. rewrite Hne in Hcell.
    destruct (Raster.get dem i j); [|done].
    destruct (Raster.get proposed_dem i j); [|done]. simpl in Hcell.
    rewrite Hout in Hcell. simpl in Hcell. injection Hcell as <- <-. done.
  - intros He. unfold calculate_volumes, cell_volumes, masking. by rewrite He.
Qed.

(** The west half of the grid belongs to the property. *)
Lemma cells_outside_boundary_are_zero_witness :
  let west := λ (_ : unit) (point : Q * Q), Qle_bool point.1 0 in
  ∃ r, calculate_volumes 10 (λ _ : unit, false) west (λ _, 1)
         [[100; 80]] (Grades (Some 90) None [] []) (0, 0, 1, 1) (Some ()) = Some r ∧
    Raster.get (cut_map r) 0 1 = Some 0 ∧ Raster.get (fill_map r) 0 1 = Some 0.
Proof.
  intros west. eexists. split; [vm_compute; reflexivity|].
  refine (proj1 (cells_outside_boundary_are_zero 10 (λ _ : unit, false) west (λ _, 1)
                   [[100; 80]] (Grades (Some 90) None [] []) 0 0 1 1 ()) _ _ 0%nat 1%nat
            _ _ _ _).
  - reflexivity.
  - vm_compute. reflexivity.
  - simpl. lia.
  - simpl. lia.
  - vm_compute. reflexivity.
Defined.

(** ** Exchanging the two grids *)

Lemma mapM_fmap_image {A B : Type} (f g : A → option B) (h : B → B) (l : list A)
    (k : list B) :
  (∀ x y, f x = Some y → g x = Some (h y)) →
  mapM f l = Some k → mapM g l = Some (h <$> k).
Proof.
  intros Hfg Hk. apply mapM_Some. apply mapM_Some_1 in Hk.
  apply Forall2_fmap_r. eapply Forall2_impl; [exact Hk|]. intros x y. apply Hfg.
Qed.

Definition exchange (c : Q * Q) : Q * Q := (c.2, c.1).

Lemma fst_exchange (cells : list (list (Q * Q))) :
  (λ row : list (Q * Q), fst <$> row) <$>
    ((λ row : list (Q * Q), exchange <$> row) <$> cells)
  = (λ row : list (Q * Q), snd <$> row) <$> cells.
Proof.
  rewrite <-list_fmap_compose. apply list_fmap_ext. intros _ row _. simpl.
  rewrite <-list_fmap_compose. by apply list_fmap_ext.
Qed.

Lemma snd_exchange (cells : list (list (Q * Q))) :
  (λ row : list (Q * Q), snd <$> row) <$>
    ((λ row : list (Q * Q), exchange <$> row) <$> cells)
  = (λ row : list (Q * Q), fst <$> row) <$> cells.
Proof.
  rewrite <-list_fmap_compose. apply list_fmap_ext. intros _ row _. simpl.
  rewrite <-list_fmap_compose. by apply list_fmap_ext.
Qed.

Section Exchange.
Context {Polygon : Type}.
Variable grid_resolution : Q.
Variable is_empty : Polygon → bool.
Variable contains : Polygon → Q * Q → bool.
Variable area : Polygon → Q.

Lemma cell_volumes_exchange dem proposed_dem bounds property_boundary i j c :
  cell_volumes grid_resolution is_empty contains dem proposed_dem bounds
    property_boundary i j = Some c →
  cell_volumes grid_resolution is_empty contains proposed_dem dem bounds
    property_boundary i j = Some (exchange c).
Proof.
  unfold cell_volumes. destruct bounds as [[[minx miny] maxx] maxy].
  destruct (Raster.get dem i j) as [e|]; [|done].
  destruct (Raster.get proposed_dem i j) as [v|]; [|done]. simpl.
  destruct (match masking is_empty property_boundary with
            | Some p => _ | None => false end); intros [= <-]; [done|].
  by rewrite (cell_cut_fill_swap e v).
Qed.

Lemma calculate_volumes_exchange existing proposed bounds property_boundary r :
  Raster.shape existing = Raster.shape proposed →
  calculate_volumes grid_resolution is_empty contains area
    existing (Grades None (Some proposed) [] []) bounds property_boundary = Some r →
  ∃ r', calculate_volumes grid_resolution is_empty contains area
          proposed (Grades None (Some existing) [] []) bounds property_boundary
        = Some r' ∧
    cut_map r' = fill_map r ∧ fill_map r' = cut_map r ∧
    cut_volume_ft3 r' = fill_volume_ft3 r ∧ fill_volume_ft3 r' = cut_volume_ft3 r ∧
    cut_volume_yd3 r' = fill_volume_yd3 r ∧ fill_volume_yd3 r' = cut_volume_yd3 r ∧
    net_volume_ft3 r' == - net_volume_ft3 r.
Proof.
  intros Hshape. unfold calculate_volumes.
  rewrite !CutFillFacts.create_proposed_dem_baseline by done.
  cbn [mbind option_bind]. rewrite <-Hshape.
  destruct (mapM _ _) as [cells|] eqn:Hcells; [|done].
  cbn [mbind option_bind]. intros [= <-].
  apply (mapM_fmap_image _
           (λ i, mapM (cell_volumes grid_resolution is_empty contains proposed existing
                         bounds property_boundary i)
                      (seq 0 (Raster.shape existing).2))
           (λ row : list (Q * Q), exchange <$> row)) in Hcells.
  2:{ intros i row. apply mapM_fmap_image. intros j c. apply cell_volumes_exchange. }
  rewrite Hcells.
  cbn [mbind option_bind]. eexists. split; [done|]. simpl.
  rewrite fst_exchange, snd_exchange. repeat split; try done. ring.
Qed.

End Exchange.

(** X15. Exchanging the existing and the proposed grid exchanges cut and
    fill: when the volumes of a DEM against a baseline of the same shape
    have been computed, the computation with the two grids exchanged
    succeeds as well, its cut map is the fill map of the first and its fill
    map the cut map, likewise for the volumes, and the net volume changes
    its sign. *)
Theorem exchange_swaps_cut_and_fill {Polygon : Type} (grid_resolution : Q)
    (is_empty : Polygon → bool) (contains : Polygon → Q * Q → bool)
    (area : Polygon → Q)
    (existing proposed : list (list Q)) (bounds : Q * Q * Q * Q)
    (property_boundary : option Polygon) (r : volumes) :
  Raster.shape existing = Raster.shape proposed →
  calculate_volumes grid_resolution is_empty contains area
    existing (Grades None (Some proposed) [] []) bounds property_boundary = Some r →
  ∃ r', calculate_volumes grid_resolution is_empty contains area
          proposed (Grades None (Some existing) [] []) bounds property_boundary
        = Some r' ∧
    cut_map r' = fill_map r ∧ fill_map r' = cut_map r ∧
    cut_volume_ft3 r' = fill_volume_ft3 r ∧ fill_volume_ft3 r' = cut_volume_ft3 r ∧
    cut_volume_yd3 r' = fill_volume_yd3 r ∧ fill_volume_yd3 r' = cut_volume_yd3 r ∧
    net_volume_ft3 r' == - net_volume_ft3 r.
Proof. apply calculate_volumes_exchange. Qed.

Lemma exchange_swaps_cut_and_fill_witness :
  ∃ r r',
    calculate_volumes 10 (λ _ : unit, false) (λ _ _, true) (λ _, 1)
      [[100; 80]] (Grades None (Some [[90; 90]]) [] []) (0, 0, 1, 1) None = Some r ∧
    calculate_volumes 10 (λ _ : unit, false) (λ _ _, true) (λ _, 1)
      [[90; 90]] (Grades None (Some [[100; 80]]) [] []) (0, 0, 1, 1) None = Some r' ∧
    cut_map r' = fill_map r ∧ fill_map r' = cut_map r.
Proof.
  destruct (exchange_swaps_cut_and_fill 10 (λ _ : unit, false) (λ _ _, true) (λ _, 1)
              [[100; 80]] [[90; 90]] (0, 0, 1, 1) None
              (Volumes 1000 1000 0 (1000 / 27) (1000 / 27) (0 / 27) None
                       [[10; 0]] [[0; 10]]))
    as (r' & Hr' & Hcut & Hfill & _).
  - reflexivity.
  - vm_compute. reflexivity.
  - eexists _, r'. split; [vm_compute; reflexivity|]. split; [exact Hr'|].
    split; [exact Hcut|exact Hfill].
Defined.

(** ** Elevations that are 0 *)

Lemma given_zero q : q == 0 → given (Some q) = false.
Proof.
  intros Hq. unfold given, Py.truthy. apply Qeq_bool_iff in Hq. by rewrite Hq.
Qed.

Lemma for_each_skip {A S : Type} (xs : list A) (body : A → S → option S) (s : S) :
  (∀ x s, x ∈ xs → body x s = Some s) → Py.for_each xs body s = Some s.
Proof.
  induction xs as [|x xs IH]; intros Hbody; [done|]. simpl.
  rewrite Hbody by (by left). simpl. apply IH. intros y s' Hy. apply Hbody. by right.
Qed.

(** X16. An elevation of 0 counts as not given.  A default elevation of 0
    leaves the proposed grid as it is without a default elevation - the
    baseline when there is one - and pads whose elevation is 0 or missing
    change nothing. *)
Theorem zero_elevation_counts_as_absent (grid_resolution : Q) (d : Q)
    (baseline : option (list (list Q))) (pads : list pad) (roads : list road)
    (dem_shape : nat * nat) (bounds : Q * Q * Q * Q) :
  d == 0 →
  _create_proposed_dem grid_resolution (Grades (Some d) baseline pads roads)
    dem_shape bounds
  = _create_proposed_dem grid_resolution (Grades None baseline pads roads)
      dem_shape bounds
  ∧ (Forall (λ pad, given (pad_elevation pad) = false) pads →
     _create_proposed_dem grid_resolution (Grades None baseline pads roads)
       dem_shape bounds
     = _create_proposed_dem grid_resolution (Grades None baseline [] roads)
         dem_shape bounds).
Proof.
  intros Hd. apply given_zero in Hd.
  unfold _create_proposed_dem. destruct bounds as [[[minx miny] maxx] maxy].
  cbn [default_elevation baseline_dem assets CutFill.roads]. rewrite Hd.
  split; [done|]. intros Hpads. simpl (given None).
  cbn match. rewrite for_each_skip; [done|].
  intros pad s Hin. rewrite Forall_forall in Hpads. by rewrite (Hpads pad Hin).
Qed.

Lemma zero_elevation_counts_as_absent_witness :
  _create_proposed_dem 10 (Grades (Some 0) (Some [[7; 8]]) [Pad None None (Some 0) None] [])
    (1%nat, 2%nat) (0, 0, 1, 1)
  = _create_proposed_dem 10 (Grades None (Some [[7; 8]]) [Pad None None (Some 0) None] [])
      (1%nat, 2%nat) (0, 0, 1, 1).
Proof.
  refine (proj1 (zero_elevation_counts_as_absent 10 0 (Some [[7; 8]])
                   [Pad None None (Some 0) None] [] (1%nat, 2%nat) (0, 0, 1, 1) _)).
  reflexivity.
Defined.

(** ** Stamping a square *)

(** A grid of the given shape. *)
Definition sized (shape : nat * nat) (r : list (list Q)) : Prop :=
  length r = shape.1 ∧ Forall (λ row, length row = shape.2) r.

Lemma set_sized shape r i j v :
  sized shape r → (i < shape.1)%nat → (j < shape.2)%nat →
  ∃ r', Raster.set r i j v = Some r' ∧ sized shape r' ∧
    ∀ a b, Raster.get r' a b =
             if bool_decide (a = i ∧ b = j) then Some v else Raster.get r a b.
Proof.
  intros [Hlen Hrows] Hi Hj. unfold Raster.set.
  destruct (lookup_lt_is_Some_2 r i) as [row Hrow]; [lia|]. rewrite Hrow. simpl.
  assert (length row = shape.2) as Hrowlen.
  { rewrite Forall_forall in Hrows. by eapply Hrows, list_elem_of_lookup_2. }
  rewrite bool_decide_true by lia. eexists. split; [done|]. split.
  - split; [by rewrite length_insert|].
    apply Forall_insert; [done|]. by rewrite length_insert.
  - intros a b. unfold Raster.get. destruct (decide (a = i)) as [->|Ha].
    + rewrite list_lookup_insert_eq, Hrow by lia. simpl.
      destruct (decide (b = j)) as [->|Hb].
      * rewrite bool_decide_true by done. apply list_lookup_insert_eq. lia.
      * rewrite bool_decide_false by tauto. by apply list_lookup_insert_ne.
    + rewrite bool_decide_false by tauto. by rewrite list_lookup_insert_ne.
Qed.

(** The assignment in the innermost loop, with its bounds check. *)
Definition write (dem_shape : nat * nat) (v : Q) (cell : Z * Z)
    (proposed_dem : list (list Q)) : option (list (list Q)) :=
  if bool_decide (0 ≤ cell.1 < Z.of_nat dem_shape.1)%Z
     && bool_decide (0 ≤ cell.2 < Z.of_nat dem_shape.2)%Z
  then Raster.set proposed_dem (Z.to_nat cell.1) (Z.to_nat cell.2) v
  else Some proposed_dem.

Lemma for_each_app {A S : Type} (xs ys : list A) (body : A → S → option S) (s : S) :
  Py.for_each (xs ++ ys) body s = (s' ← Py.for_each xs body s; Py.for_each ys body s').
Proof.
  revert s. induction xs as [|x xs IH]; intros s; [done|]. simpl.
  destruct (body x s) as [s1|]; [|done]. simpl. apply IH.
Qed.

Lemma for_each_fmap {A B S : Type} (f : A → B) (xs : list A) (body : B → S → option S)
    (s : S) :
  Py.for_each (f <$> xs) body s = Py.for_each xs (λ x, body (f x)) s.
Proof.
  revert s. induction xs as [|x xs IH]; intros s; [done|]. simpl.
  destruct (body (f x) s) as [s1|]; [|done]. simpl. apply IH.
Qed.

(** Two nested loops are one loop over the pairs. *)
Lemma for_each_nested {A B S : Type} (xs : list A) (ys : list B)
    (body : A * B → S → option S) (s : S) :
  Py.for_each xs (λ x s, Py.for_each ys (λ y s, body (x, y) s) s) s =
  Py.for_each (x ← xs; (λ y, (x, y)) <$> ys) body s.
Proof.
  revert s. induction xs as [|x xs IH]; intros s; [done|].
  cbn [Py.for_each mbind list_bind]. rewrite for_each_app, for_each_fmap.
  destruct (Py.for_each ys _ s) as [s1|]; [|done]. simpl. apply IH.
Qed.

Lemma write_cell dem_shape v cell dem :
  sized dem_shape dem →
  ∃ dem', write dem_shape v cell dem = Some dem' ∧ sized dem_shape dem' ∧
    ∀ a b, (a < dem_shape.1)%nat → (b < dem_shape.2)%nat →
      Raster.get dem' a b =
        if bool_decide ((Z.of_nat a, Z.of_nat b) = cell) then Some v
        else Raster.get dem a b.
Proof.
  intros Hsized. destruct cell as [ci cj]. unfold write. cbn [fst snd].
  destruct (bool_decide (0 ≤ ci < Z.of_nat dem_shape.1)%Z
            && bool_decide (0 ≤ cj < Z.of_nat dem_shape.2)%Z) eqn:Hin.
  - apply andb_true_iff in Hin as [Hi%bool_decide_eq_true Hj%bool_decide_eq_true].
    destruct (set_sized dem_shape dem (Z.to_nat ci) (Z.to_nat cj) v Hsized)
      as (dem1 & -> & Hsized1 & Hget1); [lia..|].
    exists dem1. split; [done|]. split; [done|]. intros a b Ha Hb. rewrite Hget1.
    apply (f_equal (λ c : bool, if c then _ else _)). apply bool_decide_ext.
    split; [intros [-> ->]; f_equal; lia|intros [= <- <-]; lia].
  - exists dem. split; [done|]. split; [done|]. intros a b Ha Hb.
    rewrite bool_decide_false; [done|]. intros [= <- <-].
    apply andb_false_iff in Hin as [Hf%bool_decide_eq_false|Hf%bool_decide_eq_false];
      lia.
Qed.

Lemma for_each_write dem_shape v cells : ∀ dem,
  sized dem_shape dem →
  ∃ dem', Py.for_each cells (write dem_shape v) dem = Some dem' ∧ sized dem_shape dem' ∧
    ∀ a b, (a < dem_shape.1)%nat → (b < dem_shape.2)%nat →
      Raster.get dem' a b =
        if bool_decide ((Z.of_nat a, Z.of_nat b) ∈ cells) then Some v
        else Raster.get dem a b.
Proof.
  induction cells as [|cell cells IH]; intros dem Hsized.
  { exists dem. split; [done|]. split; [done|]. intros a b _ _.
    rewrite bool_decide_false; [done|]. by intros ?%elem_of_nil. }
  cbn [Py.for_each].
  destruct (write_cell dem_shape v cell dem Hsized) as (dem1 & -> & Hsized1 & Hget1).
  cbn [mbind option_bind].
  destruct (IH dem1 Hsized1) as (dem' & -> & Hsized' & Hget').
  exists dem'. split; [done|]. split; [done|]. intros a b Ha Hb.
  rewrite (Hget' a b Ha Hb), (Hget1 a b Ha Hb).
  destruct (decide ((Z.of_nat a, Z.of_nat b) ∈ cells)) as [Hmem|Hmem].
  - rewrite !bool_decide_true; [done|by right|done].
  - rewrite (bool_decide_false _ Hmem).
    apply (f_equal (λ c : bool, if c then _ else _)). apply bool_decide_ext.
    rewrite elem_of_cons. tauto.
Qed.

Lemma stamp_for_each dem_shape i j radius v dem :
  stamp dem_shape i j radius v dem =
    Py.for_each (di ← Py.range (- radius) (radius + 1);
                 (λ dj, (di, dj)) <$> Py.range (- radius) (radius + 1))
      (λ d, write dem_shape v (i + d.1, j + d.2)%Z) dem.
Proof.
  unfold stamp.
  by rewrite <-(for_each_nested _ _
                  (λ d, write dem_shape v (i + d.1, j + d.2)%Z)).
Qed.

Lemma stamp_square dem_shape i j radius v dem :
  sized dem_shape dem →
  ∃ dem', stamp dem_shape i j radius v dem = Some dem' ∧ sized dem_shape dem' ∧
    ∀ a b, (a < dem_shape.1)%nat → (b < dem_shape.2)%nat →
      Raster.get dem' a b =
        if bool_decide (i - radius ≤ Z.of_nat a ≤ i + radius ∧
                        j - radius ≤ Z.of_nat b ≤ j + radius)%Z
        then Some v else Raster.get dem a b.
Proof.
  intros Hsized. rewrite stamp_for_each.
  set (offsets := di ← Py.range (- radius) (radius + 1);
                  (λ dj, (di, dj)) <$> Py.range (- radius) (radius + 1)).
  rewrite <-(for_each_fmap (λ d : Z * Z, (i + d.1, j + d.2)%Z) offsets
               (write dem_shape v)).
  destruct (for_each_write dem_shape v
              ((λ d : Z * Z, (i + d.1, j + d.2)%Z) <$> offsets) dem Hsized)
    as (dem' & -> & Hsized' & Hget).
  exists dem'. split; [done|]. split; [done|]. intros a b Ha Hb.
  rewrite (Hget a b Ha Hb). apply (f_equal (λ c : bool, if c then _ else _)).
  apply bool_decide_ext. rewrite list_elem_of_fmap. unfold offsets. split.
  - intros ([di dj] & [= -> ->] & Hd). apply list_elem_of_bind in Hd as (di' & Hdj & Hdi).
    apply list_elem_of_fmap in Hdj as (dj' & [= -> ->] & Hdj).
    apply PyFacts.range_elem in Hdi, Hdj. simpl. lia.
  - intros [Hi Hj]. exists (Z.of_nat a - i, Z.of_nat b - j)%Z. split.
    + simpl. f_equal; lia.
    + apply list_elem_of_bind. exists (Z.of_nat a - i)%Z. split.
      * apply list_elem_of_fmap. exists (Z.of_nat b - j)%Z. split; [done|].
        apply PyFacts.range_elem. lia.
      * apply PyFacts.range_elem. lia.
Qed.

(** X17. The two nested loops that stamp an elevation around a grid cell
    never raise on a grid of the DEM's shape; they keep the shape, write the
    elevation into every cell of the grid that lies in the square of the
    given radius around the cell, and leave all other cells as they are.
    A centre outside the grid is clipped away, not an error. *)
Theorem stamp_writes_the_clipped_square (dem_shape : nat * nat) (i j radius : Z)
    (v : Q) (dem : list (list Q)) :
  sized dem_shape dem →
  ∃ dem', stamp dem_shape i j radius v dem = Some dem' ∧ sized dem_shape dem' ∧
    ∀ a b, (a < dem_shape.1)%nat → (b < dem_shape.2)%nat →
      Raster.get dem' a b =
        if bool_decide (i - radius ≤ Z.of_nat a ≤ i + radius ∧
                        j - radius ≤ Z.of_nat b ≤ j + radius)%Z
        then Some v else Raster.get dem a b.
Proof. apply stamp_square. Qed.

(** Radius 1 around the corner cell [(0, 2)] of a 2 by 3 grid. *)
Lemma stamp_writes_the_clipped_square_witness :
  ∃ dem', stamp (2%nat, 3%nat) 0 2 1 9 [[1; 2; 3]; [4; 5; 6]] = Some dem' ∧
    sized (2%nat, 3%nat) dem' ∧
    ∀ a b, (a < 2)%nat → (b < 3)%nat →
      Raster.get dem' a b =
        if bool_decide (0 - 1 ≤ Z.of_nat a ≤ 0 + 1 ∧ 2 - 1 ≤ Z.of_nat b ≤ 2 + 1)%Z
        then Some 9 else Raster.get [[1; 2; 3]; [4; 5; 6]] a b.
Proof.
  apply (stamp_writes_the_clipped_square (2%nat, 3%nat) 0 2 1 9 [[1; 2; 3]; [4; 5; 6]]).
  split; [reflexivity|]. repeat constructor.
Defined.

Example stamp_corner :
  stamp (2%nat, 3%nat) 0 2 1 9 [[1; 2; 3]; [4; 5; 6]] = Some [[1; 9; 9]; [4; 9; 9]].
Proof. vm_compute. reflexivity. Qed.

(** ** From the volumes to the picture *)



Section Picture.
Context {Polygon : Type}.
Variable is_empty : Polygon → bool.
Variable contains : Polygon → Q * Q → bool.
Variable area : Polygon → Q.



End Picture.


(** A cut of 10 ft, a fill of 10 ft and a difference of a twentieth,
    against a default elevation of 90 ft. *)
Definition levelling : list (list Q) := [[100; 80; 90 + (1 # 20)]].


Example levelling_picture :
  calculate_volumes 10 (λ _ : unit, false) (λ _ _, true) (λ _, 1)
    levelling (Grades (Some 90) None [] []) (0, 0, 1, 1) None
  ≫= (λ volumes, generate_visualization_map (cut_map volumes) (fill_map volumes))
  = Some [[1; 2; 3]].
Proof. vm_compute. reflexivity. Qed.

End CutFillLaws.

(* ===================================================================== *)
(** * Laws of the terrain suitability score *)
(* ===================================================================== *)

Module TerrainLaws.
Import Terrain.
#[local] Open Scope Q_scope.

Lemma slope_score_antitone s s' : s <= s' → slope_score s' <= slope_score s.
Proof.
  intros Hle. unfold slope_score.
  destruct (Py.ltb 15 s') eqn:E', (Py.ltb 15 s) eqn:E.
  - lra.
  - apply PyFacts.ltb_ge in E. unfold Qdiv. change (/ 15) with (1 # 15). lra.
  - apply PyFacts.ltb_lt in E. apply PyFacts.ltb_ge in E'. lra.
  - unfold Qdiv. change (/ 15) with (1 # 15). lra.
Qed.

Lemma aspect_score_mirror a : aspect_score (360 - a) == aspect_score a.
Proof.
  unfold aspect_score.
  assert (Qabs (360 - a - 180) == Qabs (a - 180)) as Habs.
  { rewrite <-(Qabs_opp (a - 180)). apply Qabs_wd. ring. }
  assert (Py.ltb 180 (Qabs (360 - a - 180)) = Py.ltb 180 (Qabs (a - 180))) as ->.
  { unfold Py.ltb. f_equal. apply eq_true_iff_eq. rewrite !Qle_bool_iff.
    by rewrite Habs. }
  destruct (Py.ltb 180 (Qabs (a - 180))); by rewrite Habs.
Qed.

Lemma score_antitone point slope slope' aspect dem dem' bounds resolution q q' :
  Raster.shape slope = Raster.shape slope' →
  (∀ i j s s', Raster.get slope i j = Some s → Raster.get slope' i j = Some s' →
     s <= s') →
  get_terrain_suitability_score point slope aspect dem bounds resolution = Some q →
  get_terrain_suitability_score point slope' aspect dem' bounds resolution = Some q' →
  q' <= q.
Proof.
  intros Hshape Hle. unfold get_terrain_suitability_score.
  destruct bounds as [[[minx miny] maxx] maxy], point as [x y].
  destruct (negb (in_bounds (x, y) (minx, miny, maxx, maxy))).
  { intros [= <-] [= <-]. lra. }
  destruct (Py.div (y - miny) resolution) as [qi|]; [|done].
  destruct (Py.div (x - minx) resolution) as [qj|]; [|done].
  cbn [mbind option_bind]. rewrite <-Hshape.
  destruct (_ || _).
  { intros [= <-] [= <-]. lra. }
  destruct (Raster.get slope _ _) as [s|] eqn:Hs; [|done].
  destruct (Raster.get slope' _ _) as [s'|] eqn:Hs'; [|by destruct (Raster.get aspect _ _)].
  destruct (Raster.get aspect _ _) as [a|]; [|done].
  cbn [mbind option_bind]. intros [= <-] [= <-].
  pose proof (slope_score_antitone s s' (Hle _ _ _ _ Hs Hs')). lra.
Qed.

(** On valid rasters every score that is returned lies in [0, 1]. *)
Lemma score_unit_interval point slope aspect dem bounds resolution q :
  TerrainFacts.valid_rasters slope aspect →
  get_terrain_suitability_score point slope aspect dem bounds resolution = Some q →
  0 <= q <= 1.
Proof.
  intros (_ & _ & Hslope & Haspect). unfold get_terrain_suitability_score.
  destruct bounds as [[[minx miny] maxx] maxy], point as [x y].
  destruct (negb (in_bounds (x, y) (minx, miny, maxx, maxy))).
  { intros [= <-]. lra. }
  destruct (Py.div (y - miny) resolution) as [qi|]; [|done].
  destruct (Py.div (x - minx) resolution) as [qj|]; [|done].
  cbn [mbind option_bind].
  destruct (_ || _).
  { intros [= <-]. lra. }
  destruct (Raster.get slope _ _) as [s|] eqn:Hs; [|done].
  destruct (Raster.get aspect _ _) as [a|] eqn:Ha; [|done].
  cbn [mbind option_bind]. intros [= <-].
  rewrite Forall_forall in Hslope, Haspect.
  pose proof (TerrainFacts.slope_score_range s
                (Hslope s (RasterFacts.get_cells _ _ _ _ Hs))).
  pose proof (TerrainFacts.aspect_score_range a
                (Haspect a (RasterFacts.get_cells _ _ _ _ Ha))).
  lra.
Qed.

(** X19. Steeper is never better: of two slope rasters of one shape, the
    one whose slopes are nowhere smaller gives every point a score that is
    not larger, all else being equal; the elevation raster plays no part.
    And the aspect counts by its angle to due south only: an aspect and its
    mirror image [360 - aspect] score the same. *)
Theorem steeper_is_never_better (point : Q * Q)
    (slope slope' aspect dem dem' : list (list Q)) (bounds : Q * Q * Q * Q)
    (resolution q q' : Q) :
  Raster.shape slope = Raster.shape slope' →
  (∀ i j s s', Raster.get slope i j = Some s → Raster.get slope' i j = Some s' →
     s <= s') →
  get_terrain_suitability_score point slope aspect dem bounds resolution = Some q →
  get_terrain_suitability_score point slope' aspect dem' bounds resolution = Some q' →
  q' <= q ∧ ∀ a, aspect_score (360 - a) == aspect_score a.
Proof.
  intros Hshape Hle Hq Hq'. split; [|apply aspect_score_mirror].
  by eapply score_antitone.
Qed.

(** A slope of 3 against a slope of 6 degrees, facing east. *)
Lemma steeper_is_never_better_witness :
  ∃ q q',
    get_terrain_suitability_score (5, 5) [[3]] [[90]] [] (0, 0, 10, 10) 10 = Some q ∧
    get_terrain_suitability_score (5, 5) [[6]] [[90]] [[1]] (0, 0, 10, 10) 10 = Some q' ∧
    q' <= q.
Proof.
  eexists _, _. split; [vm_compute; reflexivity|]. split; [vm_compute; reflexivity|].
  refine (proj1 (steeper_is_never_better (5, 5) [[3]] [[6]] [[90]] [] [[1]]
                   (0, 0, 10, 10) 10 _ _ _ _ _ _)).
  - reflexivity.
  - intros i j s s' Hs Hs'. destruct i, j; try done.
    injection Hs as <-. injection Hs' as <-. done.
  - vm_compute. reflexivity.
  - vm_compute. reflexivity.
Defined.

End TerrainLaws.

(* ===================================================================== *)
(** * Laws of the candidate grid *)
(* ===================================================================== *)

Module CandidatesLaws.
Import Candidates.
#[local] Open Scope Q_scope.

(** The order of the walk: column by column from west to east, and from
    south to north within a column. *)
Definition before (c p : Q * Q) : Prop := c.1 < p.1 ∨ (c.1 == p.1 ∧ c.2 < p.2).

Definition in_box (box : Q * Q * Q * Q) (c : Q * Q) : Prop :=
  let '(minx, miny, maxx, maxy) := box in
  minx <= c.1 <= maxx ∧ miny <= c.2 <= maxy.

Lemma StronglySorted_snoc {A : Type} (R : relation A) (l : list A) (x : A) :
  StronglySorted R l → Forall (λ y, R y x) l → StronglySorted R (l ++ [x]).
Proof.
  intros Hl Hx. apply StronglySorted_app_2; [|done|by repeat constructor].
  intros x1 x2 Hx1 ->%list_elem_of_singleton. rewrite Forall_forall in Hx. by apply Hx.
Qed.

Section Geometry.
Context {Polygon : Type}.
Variable buffer : Polygon → Q → option Polygon.
Variable is_empty : Polygon → bool.
Variable is_valid : Polygon → bool.
Variable contains : Polygon → Q * Q → option bool.
Variable bounds : Polygon → option (Q * Q * Q * Q).
Variable unary_union : list Polygon → option Polygon.
Variable sqrt : Q → Q.

Section Walk.
Variable boundary : Polygon.
Variable exclusion : option Polygon.
Variables minx miny maxx maxy res : Q.
Hypothesis Hres : 0 < res.

#[local] Abbreviation walk_column := (walk_column contains).
#[local] Abbreviation walk_grid := (walk_grid contains).
#[local] Abbreviation box := (minx, miny, maxx, maxy).

Lemma walk_column_order fuel : ∀ x y candidates returned candidates',
  minx <= x <= maxx → miny <= y →
  StronglySorted before candidates →
  Forall (λ c, before c (x, y)) candidates →
  Forall (in_box box) candidates →
  walk_column fuel boundary exclusion maxy res x y candidates
    = Done (returned, candidates') →
  StronglySorted before candidates' ∧
  Forall (λ c, c.1 <= x) candidates' ∧
  Forall (in_box box) candidates'.
Proof.
  induction fuel as [|fuel IH];
    intros x y candidates returned candidates' Hx Hy Hsorted Hbefore Hbox; [done|].
  simpl. destruct (Py.leb y maxy) eqn:Hle.
  2:{ intros [= <- <-]. split; [done|]. split; [|done].
      eapply Forall_impl; [exact Hbefore|]. unfold before. simpl. intros c. lra. }
  apply PyFacts.leb_le in Hle.
  assert (Forall (λ c, before c (x, y + res)) candidates) as Hnext.
  { eapply Forall_impl; [exact Hbefore|]. unfold before. simpl. intros c. lra. }
  destruct (accepted contains boundary exclusion (x, y)); [|by apply IH; try lra].
  assert (StronglySorted before (candidates ++ [(x, y)])) as Hsorted'
    by (by apply StronglySorted_snoc).
  assert (Forall (in_box box) (candidates ++ [(x, y)])) as Hbox'.
  { apply Forall_app. split; [done|]. constructor; [|done]. simpl. lra. }
  case_bool_decide.
  - intros [= <- <-]. split; [done|]. split; [|done].
    apply Forall_app. split.
    + eapply Forall_impl; [exact Hbefore|]. unfold before. simpl. intros c. lra.
    + constructor; [|done]. simpl. lra.
  - apply IH; try done; try lra.
    apply Forall_app. split; [done|]. constructor; [|done].
    unfold before. simpl. right. split; [reflexivity|lra].
Qed.

Lemma walk_grid_order fuel : ∀ x candidates candidates',
  minx <= x →
  StronglySorted before candidates →
  Forall (λ c, c.1 < x) candidates →
  Forall (in_box box) candidates →
  walk_grid fuel boundary exclusion miny maxx maxy res x candidates = Done candidates' →
  StronglySorted before candidates' ∧ Forall (in_box box) candidates'.
Proof.
  induction fuel as [|fuel IH]; intros x candidates candidates' Hx Hsorted Hwest Hbox;
    [done|].
  cbn [Candidates.walk_grid]. destruct (Py.leb x maxx) eqn:Hle.
  2:{ by intros [= <-]. }
  apply PyFacts.leb_le in Hle.
  destruct (walk_column (S fuel) boundary exclusion maxy res x miny candidates)
    as [[returned column]| |] eqn:Hcol; [|done..].
  apply walk_column_order in Hcol as (Hsorted' & Hwest' & Hbox'); try done; try lra.
  2:{ eapply Forall_impl; [exact Hwest|]. unfold before. simpl. intros c ?. by left. }
  destruct returned.
  - by intros [= <-].
  - apply IH; try done; try lra.
    eapply Forall_impl; [exact Hwest'|]. simpl. intros c. lra.
Qed.

End Walk.

Lemma candidates_order fuel property_boundary exclusion_zones
    grid_resolution buffer_boundary buffer_exclusion candidates :
  (∀ q, 0 < q → 0 < sqrt q) → 0 < grid_resolution →
  generate_candidate_locations buffer is_empty is_valid contains bounds unary_union
    sqrt fuel property_boundary exclusion_zones grid_resolution buffer_boundary
    buffer_exclusion = Done candidates →
  StronglySorted before candidates ∧
  ∃ box,
    match bounds (buffered_boundary buffer is_empty is_valid property_boundary
                    (buffer_boundary * Py.FEET_TO_DEGREES)) with
    | Some box => Some box
    | None => bounds property_boundary
    end = Some box ∧
    Forall (in_box box) candidates.
Proof.
  intros Hsqrt Hres. unfold generate_candidate_locations.
  destruct (match bounds _ with Some box => Some box | None => _ end)
    as [[[[minx miny] maxx] maxy]|]; [|done].
  destruct (CandidatesFacts.adjusted_resolution_positive sqrt (minx, miny, maxx, maxy)
              (grid_resolution * Py.FEET_TO_DEGREES) Hsqrt) as (res & -> & Hpos).
  { unfold Py.FEET_TO_DEGREES. lra. }
  intros Hwalk.
  destruct (walk_grid_order _ _ minx miny maxx maxy res Hpos _ _ _ _
              (Qle_refl minx) (SSorted_nil _) (Forall_nil_2 _) (Forall_nil_2 _) Hwalk)
    as [Hsorted Hbox].
  split; [done|]. by exists (minx, miny, maxx, maxy).
Qed.

Lemma zero_resolution_raises fuel property_boundary exclusion_zones
    grid_resolution buffer_boundary buffer_exclusion :
  grid_resolution == 0 →
  generate_candidate_locations buffer is_empty is_valid contains bounds unary_union
    sqrt fuel property_boundary exclusion_zones grid_resolution buffer_boundary
    buffer_exclusion = Raised.
Proof.
  intros Hzero. unfold generate_candidate_locations.
  destruct (match bounds _ with Some box => Some box | None => _ end)
    as [[[[minx miny] maxx] maxy]|]; [|done].
  assert (grid_resolution * Py.FEET_TO_DEGREES == 0) as Hdeg.
  { rewrite Hzero. reflexivity. }
  unfold adjusted_resolution.
  by rewrite !PyFacts.div_None by exact Hdeg.
Qed.

End Geometry.

(** X20. With a positive grid resolution the candidates come in the order
    of the walk - column by column from west to east, south to north within
    a column - and strictly so: no location is listed twice.  All of them
    lie in the bounding box the walk covers, that of the buffered boundary
    or, when that cannot be had, of the property boundary. *)
Theorem candidates_in_scan_order {Polygon : Type}
    (buffer : Polygon → Q → option Polygon) (is_empty is_valid : Polygon → bool)
    (contains : Polygon → Q * Q → option bool)
    (bounds : Polygon → option (Q * Q * Q * Q))
    (unary_union : list Polygon → option Polygon) (sqrt : Q → Q)
    (fuel : nat) (property_boundary : Polygon) (exclusion_zones : list Polygon)
    (grid_resolution buffer_boundary buffer_exclusion : Q)
    (candidates : list (Q * Q)) :
  (∀ q, 0 < q → 0 < sqrt q) → 0 < grid_resolution →
  generate_candidate_locations buffer is_empty is_valid contains bounds unary_union
    sqrt fuel property_boundary exclusion_zones grid_resolution buffer_boundary
    buffer_exclusion = Done candidates →
  StronglySorted before candidates ∧
  ∃ box,
    match bounds (buffered_boundary buffer is_empty is_valid property_boundary
                    (buffer_boundary * Py.FEET_TO_DEGREES)) with
    | Some box => Some box
    | None => bounds property_boundary
    end = Some box ∧
    Forall (in_box box) candidates.
Proof. apply candidates_order. Qed.

(** X21. A grid resolution of 0 makes [generate_candidate_locations]
    raise, however the walk is bounded: the estimate of the number of grid
    points divides by it (and where no bounding box can be had, that
    raises before). *)
Theorem zero_grid_resolution_raises {Polygon : Type}
    (buffer : Polygon → Q → option Polygon) (is_empty is_valid : Polygon → bool)
    (contains : Polygon → Q * Q → option bool)
    (bounds : Polygon → option (Q * Q * Q * Q))
    (unary_union : list Polygon → option Polygon) (sqrt : Q → Q)
    (fuel : nat) (property_boundary : Polygon) (exclusion_zones : list Polygon)
    (grid_resolution buffer_boundary buffer_exclusion : Q) :
  grid_resolution == 0 →
  generate_candidate_locations buffer is_empty is_valid contains bounds unary_union
    sqrt fuel property_boundary exclusion_zones grid_resolution buffer_boundary
    buffer_exclusion = Raised.
Proof. apply zero_resolution_raises. Qed.

End CandidatesLaws.

Module CandidatesLawsExamples.
Import Candidates CandidatesLaws Boxes.
#[local] Open Scope Q_scope.

Lemma candidates_in_scan_order_witness :
  ∃ candidates,
    generate_candidate_locations buffer is_empty is_valid contains bounds
      unary_union sqrt 10 lot [pond] 10 4 2 = Done candidates ∧
    StronglySorted before candidates ∧
    ∃ box,
      match bounds (buffered_boundary buffer is_empty is_valid lot
                      (4 * Py.FEET_TO_DEGREES)) with
      | Some box => Some box
      | None => bounds lot
      end = Some box ∧
      Forall (in_box box) candidates.
Proof.
  eexists. split; [vm_compute; reflexivity|].
  apply (candidates_in_scan_order buffer is_empty is_valid contains bounds
           unary_union sqrt 10 lot [pond] 10 4 2).
  - intros q Hq. exact Hq.
  - reflexivity.
  - vm_compute. reflexivity.
Defined.

Lemma zero_grid_resolution_raises_witness :
  generate_candidate_locations buffer is_empty is_valid contains bounds
    unary_union sqrt 10 lot [pond] 0 4 2 = Raised.
Proof.
  apply (zero_grid_resolution_raises buffer is_empty is_valid contains bounds
           unary_union sqrt 10 lot [pond] 0 4 2).
  reflexivity.
Defined.

End CandidatesLawsExamples.

(* ===================================================================== *)
(** * Laws of the asset placer *)
(* ===================================================================== *)

Module PlacerLaws.
Import Placer.
#[local] Open Scope Q_scope.

#[local] Instance Qeq_decision (x y : Q) : Decision (x == y) := Qeq_dec x y.

#[local] Instance ranked_transitive : Transitive PlacerFacts.ranked.
Proof. intros a b c. unfold PlacerFacts.ranked. lra. Qed.

(** ** The ranking *)

Lemma insert_by_score_filter (q : Q) c sorted :
  filter (λ c' : Q * Q * Q, c'.2 == q) (insert_by_score c sorted) =
  filter (λ c' : Q * Q * Q, c'.2 == q) (c :: sorted).
Proof.
  induction sorted as [|c' rest IH]; [done|]. simpl.
  destruct (Py.leb c'.2 c.2) eqn:Hle; [done|].
  assert (c.2 < c'.2) as Hlt.
  { apply Qnot_le_lt. rewrite <-PyFacts.leb_le. by rewrite Hle. }
  rewrite (filter_cons _ c'), IH, !filter_cons.
  destruct (decide (c'.2 == q)) as [Hc'|Hc'], (decide (c.2 == q)) as [Hc|Hc];
    try done.
  rewrite Hc, Hc' in Hlt. by apply Qlt_irrefl in Hlt.
Qed.

Lemma sort_by_score_filter (q : Q) scored :
  filter (λ c : Q * Q * Q, c.2 == q) (sort_by_score scored) =
  filter (λ c : Q * Q * Q, c.2 == q) scored.
Proof.
  induction scored as [|c rest IH]; [done|]. simpl.
  by rewrite insert_by_score_filter, !filter_cons, IH.
Qed.

(** X22. The ranking of the scored candidates is a stable sort by
    decreasing score: the ranked list is a rearrangement of the scored
    candidates, the scores never increase along it, and candidates with
    equal scores keep the order in which they were generated. *)
Theorem ranking_is_stable (scored : list (Q * Q * Q)) :
  sort_by_score scored ≡ₚ scored ∧
  StronglySorted PlacerFacts.ranked (sort_by_score scored) ∧
  ∀ q, filter (λ c : Q * Q * Q, c.2 == q) (sort_by_score scored) =
       filter (λ c : Q * Q * Q, c.2 == q) scored.
Proof.
  split; [apply PlacerFacts.sort_by_score_perm|]. split.
  - apply Sorted_StronglySorted; [apply _|apply PlacerFacts.sort_by_score_sorted].
  - intros q. apply sort_by_score_filter.
Qed.

Section Geometry.
Context {Polygon : Type}.
Variable buffer : Polygon → Q → option Polygon.
Variable is_empty : Polygon → bool.
Variable is_valid : Polygon → bool.
Variable contains : Polygon → Q * Q → option bool.
Variable bounds : Polygon → option (Q * Q * Q * Q).
Variable unary_union : list Polygon → option Polygon.
Variable sqrt : Q → Q.
Variable box : Q → Q → Q → Q → Polygon.
Variable covers : Polygon → Polygon → bool.
Variable intersects : Polygon → Polygon → option bool.
Variable distance : Q * Q → Q * Q → Q.
Variable centroid : Polygon → option (Q * Q).

#[local] Abbreviation zone_hit := (zone_hit buffer intersects).
#[local] Abbreviation check_constraints :=
  (check_constraints buffer is_empty box covers intersects distance).
#[local] Abbreviation calculate_location_score :=
  (calculate_location_score bounds distance).
#[local] Abbreviation score_candidates :=
  (score_candidates buffer is_empty bounds box covers intersects distance).
#[local] Abbreviation place_requirement :=
  (place_requirement buffer is_empty is_valid contains bounds unary_union sqrt
     box covers intersects distance centroid).
#[local] Abbreviation place_all :=
  (place_all buffer is_empty is_valid contains bounds unary_union sqrt
     box covers intersects distance centroid).
#[local] Abbreviation place_assets :=
  (place_assets buffer is_empty is_valid contains bounds unary_union sqrt
     box covers intersects distance centroid).

(** ** The constraints *)

(** The rectangle an asset of the given type occupies around a location,
    and the boundary it has to stay in. *)
Definition footprint (location : Q * Q) (asset_type : asset_type) : Polygon :=
  let half_length := default (0:Q) (dim_length asset_type) * Py.FEET_TO_DEGREES / 2 in
  let half_width := default (0:Q) (dim_width asset_type) * Py.FEET_TO_DEGREES / 2 in
  box (location.1 - half_length) (location.2 - half_width)
      (location.1 + half_length) (location.2 + half_width).

Definition inner_boundary (property_boundary : Polygon) (constraints : constraint_config)
  : Polygon :=
  match buffer property_boundary (- (buffer_boundary constraints * Py.FEET_TO_DEGREES)) with
  | Some buffered => if is_empty buffered then property_boundary else buffered
  | None => property_boundary
  end.

(** What a location has to satisfy. *)
Definition satisfies (location : Q * Q) (asset_type : asset_type)
    (property_boundary : Polygon) (exclusion_zones : list Polygon)
    (placed_assets : list placed) (constraints : constraint_config) : Prop :=
  covers (inner_boundary property_boundary constraints) (footprint location asset_type)
    = true ∧
  Forall (λ zone, zone_hit zone (footprint location asset_type)
                    (buffer_exclusion constraints * Py.FEET_TO_DEGREES) = Some false)
         exclusion_zones ∧
  Forall (λ placed, min_spacing constraints * Py.FEET_TO_DEGREES
                    <= distance location (placed_x placed, placed_y placed))
         placed_assets.

Lemma zones_loop fp deg zones : ∀ v v',
  Py.for_each zones (λ zone violations,
    hit ← zone_hit zone fp deg;
    Some (if hit : bool then violations ++ [ExclusionBuffer] else violations)) v
    = Some v' →
  v' = [] ↔ v = [] ∧ Forall (λ zone, zone_hit zone fp deg = Some false) zones.
Proof using Type.
  induction zones as [|zone rest IH]; intros v v'; simpl.
  { intros [= <-]. split; [intros ->; split; [done|constructor]|by intros [? _]]. }
  destruct (zone_hit zone fp deg) as [hit|] eqn:Hhit; [|done]. simpl.
  intros Hrest. apply IH in Hrest. rewrite Hrest, Forall_cons. destruct hit.
  - split; [intros [Hv _]; by destruct v|intros [_ [? _]]; congruence].
  - split; [intros [? ?]|intros [? [_ ?]]]; done.
Qed.

Lemma spacing_loop location spacing placed_assets : ∀ v,
  foldl (λ violations placed,
    let d := distance location (placed_x placed, placed_y placed) in
    if Py.ltb d spacing then violations ++ [TooClose d] else violations) v placed_assets
    = [] ↔
  v = [] ∧ Forall (λ placed, spacing
                     <= distance location (placed_x placed, placed_y placed))
                  placed_assets.
Proof using Type.
  induction placed_assets as [|placed rest IH]; intros v; simpl.
  { split; [intros ->; split; [done|constructor]|by intros [? _]]. }
  rewrite IH, Forall_cons.
  destruct (Py.ltb _ spacing) eqn:Hlt.
  - apply PyFacts.ltb_lt in Hlt. split.
    + intros [Hv _]. by destruct v.
    + intros [_ [Hle _]]. by apply Qle_not_lt in Hle.
  - apply PyFacts.ltb_ge in Hlt.
    split; [intros [? ?]|intros [? [_ ?]]]; by repeat split.
Qed.

Lemma check_constraints_verdict location asset_type property_boundary exclusion_zones
    placed_assets constraints ok violations :
  check_constraints location asset_type property_boundary exclusion_zones
    placed_assets constraints = Some (ok, violations) →
  (ok = true ↔ violations = []) ∧
  (ok = true ↔ satisfies location asset_type property_boundary exclusion_zones
                 placed_assets constraints).
Proof using Type.
  unfold Placer.check_constraints, satisfies, footprint, inner_boundary.
  destruct location as [x y]. cbn [fst snd].
  destruct (Py.for_each exclusion_zones _ _) as [v1|] eqn:Hzones; [|done].
  cbn [mbind option_bind]. intros [= <- <-].
  assert (∀ l : list violation, bool_decide (length l = 0%nat) = true ↔ l = [])
    as Hnil.
  { intros l. rewrite bool_decide_eq_true. by destruct l. }
  split; [apply Hnil|]. rewrite Hnil, spacing_loop.
  apply zones_loop in Hzones. rewrite Hzones.
  destruct (covers _ _).
  - split; [intros [[_ ?] ?]|intros (_ & ? & ?)]; by repeat split.
  - split; [by intros [[? _] _]|by intros [? _]].
Qed.

(** X23. [check_constraints] accepts a location exactly when it reports
    no violation, and that is exactly when the footprint of the asset lies
    within the buffered boundary, touches no buffered exclusion zone, and
    the location keeps the minimum spacing to every asset placed before. *)
Theorem check_constraints_valid_iff (location : Q * Q) (asset_type : asset_type)
    (property_boundary : Polygon) (exclusion_zones : list Polygon)
    (placed_assets : list placed) (constraints : constraint_config)
    (ok : bool) (violations : list violation) :
  check_constraints location asset_type property_boundary exclusion_zones
    placed_assets constraints = Some (ok, violations) →
  (ok = true ↔ violations = []) ∧
  (ok = true ↔ satisfies location asset_type property_boundary exclusion_zones
                 placed_assets constraints).
Proof using Type. apply check_constraints_verdict. Qed.

(** ** The score *)

(** Terrain data whose rasters, when all are there, are valid. *)
Definition valid_terrain (terrain_data : option terrain) : Prop :=
  match terrain_data with
  | Some t =>
      match slope t, aspect t, dem t, terrain_bounds t with
      | Some slope_arr, Some aspect_arr, Some _, Some _ =>
          TerrainFacts.valid_rasters slope_arr aspect_arr
      | _, _, _, _ => True
      end
  | None => True
  end.

Lemma Qmin_unit ratio : 0 <= ratio → 0 <= Qmin ratio 1 <= 1.
Proof using Type.
  intros Hr. unfold Qmin. destruct (Py.ltb 1 ratio) eqn:E; [lra|].
  apply PyFacts.ltb_ge in E. lra.
Qed.

(** X24. The score of a location, announced as a number between 0 and 1,
    stays inside that range with room on both sides: it is more than 0.3,
    the weight of constraint compliance, which every scored location gets
    in full, and less than 1.  The terrain score lies in [0, 1] on valid
    rasters (and is 0.5 without them), and so does the distance score when
    the distance to the entry is not negative and the boundary has a
    positive width; the spacing term is the constant 0.5. *)
Theorem location_score_range (location : Q * Q) (asset_type : asset_type)
    (property_boundary : Polygon) (entry_point : Q * Q)
    (terrain_data : option terrain) (score : Q) :
  valid_terrain terrain_data →
  0 <= distance location entry_point →
  (∀ minx miny maxx maxy,
     bounds property_boundary = Some (minx, miny, maxx, maxy) → minx < maxx) →
  calculate_location_score location asset_type property_boundary entry_point
    terrain_data = Some score →
  (3 # 10) < score < 1.
Proof using Type.
  intros Hterrain Hd Hwide. unfold Placer.calculate_location_score.
  destruct (match terrain_data with Some t => _ | None => Some (1 # 2) end)
    as [terrain_score|] eqn:Hts; [|done].
  assert (0 <= terrain_score <= 1) as Hrange.
  { destruct terrain_data as [t|]; [|injection Hts as <-; lra].
    simpl in Hterrain.
    destruct (slope t) as [slope_arr|]; [|injection Hts as <-; lra].
    destruct (aspect t) as [aspect_arr|]; [|injection Hts as <-; lra].
    destruct (dem t) as [dem_arr|]; [|injection Hts as <-; lra].
    destruct (terrain_bounds t) as [terrain_box|]; [|injection Hts as <-; lra].
    by eapply TerrainLaws.score_unit_interval. }
  cbn [mbind option_bind].
  destruct (bounds property_boundary) as [[[[minx miny] maxx] maxy]|] eqn:Hbox; [|done].
  cbn [mbind option_bind]. specialize (Hwide _ _ _ _ eq_refl).
  rewrite PyFacts.div_Some by lra. cbn [mbind option_bind]. intros [= <-].
  assert (0 <= distance location entry_point / (maxx - minx)) as Hratio.
  { apply Qle_shift_div_l; lra. }
  pose proof (Qmin_unit _ Hratio).
  unfold weight_terrain_suitability, weight_distance_to_entry,
    weight_constraint_compliance, weight_spacing_optimization. lra.
Qed.

(** ** The placements *)

Lemma score_candidates_checked candidates asset_type property_boundary
    exclusion_zones placed_assets constraints entry_point terrain_data :
  ∀ scored,
  score_candidates candidates asset_type property_boundary exclusion_zones
    placed_assets constraints entry_point terrain_data = Some scored →
  Forall (λ c : Q * Q * Q,
            satisfies c.1 asset_type property_boundary exclusion_zones placed_assets
              constraints ∧
            calculate_location_score c.1 asset_type property_boundary entry_point
              terrain_data = Some c.2) scored.
Proof using Type.
  induction candidates as [|candidate rest IH]; intros scored; simpl.
  { intros [= <-]. constructor. }
  destruct (check_constraints candidate _ _ _ _ _) as [[ok violations]|] eqn:Hcheck;
    [|done].
  cbn [mbind option_bind fst].
  destruct (if ok then _ else _) as [first|] eqn:Hfirst; [|done].
  cbn [mbind option_bind].
  destruct (score_candidates rest _ _ _ _ _ _ _) as [others|]; [|done].
  cbn [mbind option_bind]. intros [= <-]. apply Forall_app. split; [|by apply IH].
  destruct ok; [|injection Hfirst as <-; constructor].
  destruct (calculate_location_score candidate _ _ _ _) as [score|] eqn:Hscore;
    [|done].
  cbn [mbind option_bind] in Hfirst. injection Hfirst as <-.
  constructor; [|constructor]. split; [|done].
  by apply (check_constraints_verdict _ _ _ _ _ _ _ _ Hcheck).
Qed.

(** How many assets a requirement asks for. *)
Definition quota (req : requirement) : nat := Z.to_nat (default 1%Z (req_count req)).

(** What holds of the assets placed for a requirement, given the assets
    placed before. *)
Definition batch_for (w : world) (property_boundary : Polygon)
    (exclusion_zones : list Polygon) (entry_point : Q * Q)
    (terrain_data : option terrain) (constraints : constraint_config)
    (req : requirement) (earlier batch : list placed) : Prop :=
  (length batch ≤ quota req)%nat ∧
  StronglySorted (λ a b, placed_score b <= placed_score a) batch ∧
  Forall (λ p,
    placed_type p = req_type req ∧
    ∃ asset_type,
      get_asset_type w (req_type req) = Some (Some asset_type) ∧
      placed_dimensions p = (dim_length asset_type, dim_width asset_type) ∧
      placed_attributes p = attributes asset_type ∧
      satisfies (placed_x p, placed_y p) asset_type property_boundary exclusion_zones
        earlier constraints ∧
      calculate_location_score (placed_x p, placed_y p) asset_type property_boundary
        entry_point terrain_data = Some (placed_score p)) batch.

Lemma place_requirement_batch w fuel property_boundary exclusion_zones entry_point
    terrain_data constraints req placed_assets result :
  place_requirement w fuel property_boundary exclusion_zones entry_point
    terrain_data constraints req placed_assets = Done result →
  ∃ batch, result = placed_assets ++ batch ∧
    batch_for w property_boundary exclusion_zones entry_point terrain_data
      constraints req placed_assets batch.
Proof using Type.
  assert (batch_for w property_boundary exclusion_zones entry_point terrain_data
            constraints req placed_assets []) as Hnone.
  { split; [simpl; lia|]. split; constructor. }
  unfold Placer.place_requirement.
  destruct (get_asset_type w (req_type req)) as [found|] eqn:Hfound; [|done].
  destruct (usable found) as [asset_type|] eqn:Husable.
  2:{ intros [= <-]. exists []. by rewrite app_nil_r. }
  assert (found = Some asset_type) as ->.
  { destruct found as [t|]; [|done]. simpl in Husable.
    destruct (type_name t), (dim_length t), (dim_width t), (attributes t);
      congruence. }
  destruct (Candidates.generate_candidate_locations _ _ _ _ _ _ _ _ _ _ _ _ _)
    as [candidates| |]; [|done..].
  destruct (match candidates with [] => _ | _ => Some candidates end)
    as [candidates'|].
  2:{ intros [= <-]. exists []. by rewrite app_nil_r. }
  destruct (score_candidates candidates' _ _ _ _ _ _ _) as [scored|] eqn:Hscored;
    [|done].
  intros [= <-]. eexists. split; [done|].
  apply score_candidates_checked in Hscored.
  pose proof (PlacerFacts.sort_by_score_perm scored) as Hperm.
  pose proof (Sorted_StronglySorted _ _ (PlacerFacts.sort_by_score_sorted scored))
    as Hsorted.
  rewrite <-Hperm in Hscored.
  rewrite <-(take_drop (quota req) (sort_by_score scored)) in Hscored, Hsorted.
  apply Forall_app in Hscored as [Hscored _].
  apply StronglySorted_app_1_l in Hsorted.
  fold (quota req). split; [|split].
  - rewrite length_fmap, length_take. lia.
  - eapply StronglySorted_fmap; [|exact Hsorted]. by intros a b.
  - apply Forall_fmap. eapply Forall_impl; [exact Hscored|].
    intros [[x y] score] [Hsat Hscore]. simpl. split; [done|].
    exists asset_type. split; [done|]. split; [done|]. split; [done|].
    split; [exact Hsat|exact Hscore].
Qed.

(** The batches of a run: one per requirement, each judged against all
    that was placed before it. *)
Definition in_batches (w : world) (property_boundary : Polygon)
    (exclusion_zones : list Polygon) (entry_point : Q * Q)
    (terrain_data : option terrain) (constraints : constraint_config)
    (asset_requirements : list requirement) (earlier : list placed)
    (batches : list (list placed)) : Prop :=
  length batches = length asset_requirements ∧
  ∀ k req batch,
    asset_requirements !! k = Some req → batches !! k = Some batch →
    batch_for w property_boundary exclusion_zones entry_point terrain_data
      constraints req (earlier ++ concat (take k batches)) batch.

Lemma place_all_batches w fuel property_boundary exclusion_zones entry_point
    terrain_data constraints asset_requirements : ∀ placed_assets result,
  place_all w fuel property_boundary exclusion_zones entry_point terrain_data
    constraints asset_requirements placed_assets = Done result →
  ∃ batches, result = placed_assets ++ concat batches ∧
    in_batches w property_boundary exclusion_zones entry_point terrain_data
      constraints asset_requirements placed_assets batches.
Proof using Type.
  induction asset_requirements as [|req rest IH]; intros placed_assets result; simpl.
  { intros [= <-]. exists []. split; [by rewrite app_nil_r|]. by split. }
  destruct (place_requirement w fuel _ _ _ _ _ req placed_assets)
    as [placed1| |] eqn:Hreq; [|done..].
  apply place_requirement_batch in Hreq as (batch & -> & Hbatch).
  intros Hrest. apply IH in Hrest as (batches & -> & Hlen & Hbatches).
  exists (batch :: batches). split; [by rewrite <-app_assoc|]. split.
  { simpl. by rewrite Hlen. }
  intros [|k] req' batch'; simpl.
  - intros [= <-] [= <-]. by rewrite app_nil_r.
  - intros Hreq' Hbatch'. rewrite app_assoc. by apply Hbatches.
Qed.

(** X25. [place_assets] places the assets requirement by requirement and
    never removes or moves one: the answer is the concatenation of one
    batch per requirement.  A batch has at most as many assets as the
    requirement counts (none for a type without template), all of the
    requested type with the dimensions and attributes of its template, in
    order of decreasing score; and every asset of a batch satisfies the
    constraints - boundary, exclusion zones, minimum spacing - with respect
    to the assets of all earlier batches. *)
Theorem place_assets_in_batches (w : world) (fuel : nat) (property_boundary : Polygon)
    (exclusion_zones : list Polygon) (asset_requirements : list requirement)
    (entry_point : Q * Q) (terrain_data : option terrain) (result : list placed) :
  place_assets w fuel property_boundary exclusion_zones asset_requirements
    entry_point terrain_data = Done result →
  ∃ constraints batches,
    get_constraints w = Some constraints ∧
    result = concat batches ∧
    in_batches w property_boundary exclusion_zones entry_point terrain_data
      (ConstraintConfig (default (50:Q) (boundary_buffer_distance constraints))
                        (default (100:Q) (exclusion_buffer_distance constraints))
                        (default (50:Q) (min_asset_spacing constraints)))
      asset_requirements [] batches.
Proof using Type.
  unfold Placer.place_assets.
  destruct (get_constraints w) as [constraints|]; [|done].
  intros Hrun. apply place_all_batches in Hrun as (batches & -> & Hbatches).
  by exists constraints, batches.
Qed.

End Geometry.
End PlacerLaws.

Module PlacerLawsExamples.
Import Placer PlacerLaws Boxes PlacerExamples.
#[local] Open Scope Q_scope.

(** A tank in the west of the lot, with nothing placed yet. *)
Lemma check_constraints_valid_iff_witness :
  (true = true ↔ @nil violation = []) ∧
  (true = true ↔
   satisfies buffer is_empty make covers intersects distance
     (feet 14, feet 24) tank lot [pond] [] (ConstraintConfig 4 2 12)).
Proof.
  apply (check_constraints_valid_iff buffer is_empty make covers intersects distance
           (feet 14, feet 24) tank lot [pond] [] (ConstraintConfig 4 2 12) true []).
  vm_compute. reflexivity.
Defined.

Lemma location_score_range_witness :
  ∃ score,
    calculate_location_score bounds distance (feet 14, feet 24) tank lot
      (feet 0, feet 20) None = Some score ∧
    (3 # 10) < score < 1.
Proof.
  eexists. split; [vm_compute; reflexivity|].
  apply (location_score_range bounds distance (feet 14, feet 24) tank lot
           (feet 0, feet 20) None).
  - exact I.
  - by vm_compute.
  - intros minx miny maxx maxy [= <- <- <- <-]. reflexivity.
  - vm_compute. reflexivity.
Defined.

Lemma place_assets_in_batches_witness :
  ∃ result,
    place_assets buffer is_empty is_valid contains bounds unary_union sqrt make
      covers intersects distance centroid morning 10 lot [pond] wanted
      (feet 0, feet 20) None = Done result ∧
    ∃ constraints batches,
      get_constraints morning = Some constraints ∧
      result = concat batches ∧
      in_batches buffer is_empty bounds make covers intersects distance
        morning lot [pond] (feet 0, feet 20) None
        (ConstraintConfig (default (50:Q) (boundary_buffer_distance constraints))
                          (default (100:Q) (exclusion_buffer_distance constraints))
                          (default (50:Q) (min_asset_spacing constraints)))
        wanted [] batches.
Proof.
  eexists. split; [vm_compute; reflexivity|].
  apply (place_assets_in_batches buffer is_empty is_valid contains bounds unary_union
           sqrt make covers intersects distance centroid morning 10 lot [pond] wanted
           (feet 0, feet 20) None).
  vm_compute. reflexivity.
Defined.

End PlacerLawsExamples.

(* ===================================================================== *)
(** * Laws of the road generator *)
(* ===================================================================== *)

Module RoadsLaws.
Import Roads.
#[local] Open Scope Qc_scope.

(** ** The terrain penalty *)

Lemma terrain_cost_cases grade :
  (max_grade < Qcabs grade ∧ terrain_cost grade = num 10) ∨
  (Qcabs grade <= max_grade ∧ terrain_cost grade = 1 + Qcabs grade / num 10 ∧
   1 <= terrain_cost grade ∧ terrain_cost grade <= Q2Qc (18 # 10)).
Proof.
  unfold terrain_cost. case_bool_decide as Hsteep; [by left|]. right.
  apply Qcnot_lt_le in Hsteep.
  rewrite bool_decide_false.
  2:{ apply Qcle_not_lt. eapply Qcle_trans; [exact Hsteep|]. by vm_compute. }
  split; [done|]. split; [done|]. split.
  - rewrite <-(Qcplus_0_r 1) at 1. apply Qcplus_le_mono_l.
    apply Qcmult_nonneg_nonneg; [apply RoadsFacts.Qcabs_nonneg|done].
  - replace (Q2Qc (18 # 10)) with (1 + max_grade / num 10)
      by (apply Qc_is_canon; reflexivity).
    apply Qcplus_le_mono_l. by apply Qcmult_le_compat_r.
Qed.

(** X26. The penalty for a grade is 10 when the grade exceeds 8 percent
    in absolute value, and [1 + |grade| / 10], a number between 1 and 1.8,
    otherwise.  The medium penalty of 5 for grades above 15 percent is never
    given: such grades have received the penalty 10 before that test. *)
Theorem medium_penalty_is_never_given (grade : Qc) :
  terrain_cost grade ≠ num 5 ∧
  ((max_grade < Qcabs grade ∧ terrain_cost grade = num 10) ∨
   (Qcabs grade <= max_grade ∧ terrain_cost grade = 1 + Qcabs grade / num 10 ∧
    1 <= terrain_cost grade ∧ terrain_cost grade <= Q2Qc (18 # 10))).
Proof.
  pose proof (terrain_cost_cases grade) as Hcases. split; [|done].
  destruct Hcases as [[_ ->]|(_ & _ & _ & Hle)]; [done|].
  intros Heq. rewrite Heq in Hle. by apply Qcle_not_lt in Hle.
Qed.

(** ** Duplicate paths *)

Lemma dedup_paths seen segments :
  NoDup (segment_path <$> dedup seen segments) ∧
  ∀ segment, segment ∈ dedup seen segments → segment_path segment ∉ seen.
Proof.
  revert seen. induction segments as [|segment rest IH]; intros seen; simpl.
  { split; [constructor|]. by intros ? ?%elem_of_nil. }
  case_bool_decide as Hseen; [apply IH|].
  destruct (IH (segment_path segment :: seen)) as [Hnd Hout]. split.
  - rewrite fmap_cons. constructor; [|done].
    intros (s' & Hpath & Hin)%list_elem_of_fmap.
    apply (Hout s' Hin). rewrite <-Hpath. by left.
  - intros s' [->|Hin]%elem_of_cons; [done|].
    intros Hs'. apply (Hout s' Hin). by right.
Qed.

Lemma dedup_is_sublist seen segments : sublist (dedup seen segments) segments.
Proof.
  revert seen. induction segments as [|segment rest IH]; intros seen; simpl.
  { constructor. }
  case_bool_decide; [by apply sublist_cons|by apply sublist_skip].
Qed.

Lemma dedup_covers seen segments segment :
  segment ∈ segments →
  segment_path segment ∈ seen ∨
  segment_path segment ∈ segment_path <$> dedup seen segments.
Proof.
  revert seen. induction segments as [|s rest IH]; intros seen.
  { by intros ?%elem_of_nil. }
  simpl. intros [->|Hin]%elem_of_cons.
  - case_bool_decide; [by left|]. right. rewrite fmap_cons. by left.
  - case_bool_decide.
    + by apply IH.
    + destruct (IH (segment_path s :: seen) Hin) as [[->|?]%elem_of_cons|?].
      * right. rewrite fmap_cons. by left.
      * by left.
      * right. rewrite fmap_cons. by right.
Qed.

Lemma dedup_first seen segments segment :
  segment ∈ dedup seen segments →
  List.find (λ s, bool_decide (segment_path s = segment_path segment)) segments
    = Some segment.
Proof.
  revert seen. induction segments as [|s rest IH]; intros seen; simpl.
  { by intros ?%elem_of_nil. }
  case_bool_decide as Hseen.
  - intros Hin. pose proof (proj2 (dedup_paths seen rest) _ Hin) as Hout.
    rewrite bool_decide_false by congruence. by apply (IH seen).
  - intros [->|Hin]%elem_of_cons.
    + by rewrite bool_decide_true.
    + pose proof (proj2 (dedup_paths (segment_path s :: seen) rest) _ Hin) as Hout.
      rewrite bool_decide_false.
      * by apply (IH (segment_path s :: seen)).
      * intros Heq. apply Hout. rewrite Heq. by left.
Qed.

(** X27. [_optimize_road_network] keeps, of the segments with one and the
    same path, the first and only the first: the result is a sub-list of
    the segments in their order, its paths are pairwise different, every
    path of the input occurs in it, and each segment kept is the first of
    the input with its path. *)
Theorem optimize_keeps_first_of_each_path (segments : list segment) :
  sublist (_optimize_road_network segments) segments ∧
  NoDup (segment_path <$> _optimize_road_network segments) ∧
  (∀ segment, segment ∈ segments →
     segment_path segment ∈ segment_path <$> _optimize_road_network segments) ∧
  (∀ segment, segment ∈ _optimize_road_network segments →
     List.find (λ s, bool_decide (segment_path s = segment_path segment)) segments
       = Some segment).
Proof.
  unfold _optimize_road_network. split; [apply dedup_is_sublist|].
  split; [apply dedup_paths|]. split.
  - intros segment Hin.
    destruct (dedup_covers [] segments segment Hin) as [?%elem_of_nil|?]; done.
  - intros segment. apply dedup_first.
Qed.

(** ** The network *)

Section Generator.
Context {Polygon : Type}.
Variable contains : Polygon → point → bool.
Variable centroid : Polygon → point.
Variable sqrt : Qc → Qc.
Variable line_is_valid : list point → bool.
Variable line_repaired : list point → option (list point).
Variable line_buffer : list point → Qc → list point.
Variable line_length : list point → Qc.

Lemma find_paths_length fuel entry_point property_boundary exclusion_zones
    dem bounds resolution road_network assets : ∀ road_segments result,
  find_paths contains centroid sqrt fuel entry_point assets property_boundary
    exclusion_zones dem bounds resolution road_network road_segments = Done result →
  (length result ≤ length road_segments + length assets)%nat.
Proof using Type.
  induction assets as [|asset rest IH]; intros road_segments result; simpl.
  { intros [= <-]. lia. }
  destruct (a_star_pathfinding _ _ _ _ _ _ _ _ _ _ _) as [path| |]; [|done..].
  intros Hrun. apply IH in Hrun. destruct path as [[|p ps]|]; try lia.
  rewrite length_app in Hrun. simpl in Hrun. lia.
Qed.

Lemma length_omap_le {A B : Type} (f : A → option B) (l : list A) :
  (length (omap f l) ≤ length l)%nat.
Proof.
  unfold omap. induction l as [|x l IH]; [done|]. simpl. destruct (f x); simpl; lia.
Qed.

Lemma network_shape fuel entry_point assets property_boundary exclusion_zones
    dem bounds resolution network :
  generate_road_network contains centroid sqrt line_is_valid line_repaired
    line_buffer line_length fuel entry_point assets property_boundary
    exclusion_zones dem bounds resolution = Done network →
  (length (roads network) ≤ length assets)%nat ∧
  total_length network = foldr Qcplus 0 (road_length <$> roads network) ∧
  Roads.entry_point network = entry_point ∧
  (roads network = [] ↔ is_Some (warning network)).
Proof using Type.
  unfold generate_road_network.
  destruct (find_paths _ _ _ _ _ _ _ _ _ _ _ _ _) as [segments| |] eqn:Hpaths; [|done..].
  apply find_paths_length in Hpaths. simpl in Hpaths.
  pose proof (sublist_length _ _ (dedup_is_sublist [] segments)) as Hdedup.
  pose proof (length_omap_le
                (build_road line_is_valid line_repaired line_buffer line_length)
                (_optimize_road_network segments)) as Hbuilt.
  unfold _optimize_road_network in *.
  destruct (omap _ _) as [|road built]; intros [= <-]; simpl in *.
  - split; [lia|]. split; [done|]. split; [done|]. split; [by eexists|done].
  - split; [lia|]. split; [done|]. split; [done|].
    split; [done|]. by intros [? ?].
Qed.

End Generator.

(** X28. The network returned by [generate_road_network] has at most one
    road per asset; its total length is the sum of the lengths of its
    roads; the entry point is handed back unchanged; and the warning is
    there exactly when there is no road. *)
Theorem network_summary {Polygon : Type}
    (contains : Polygon → point → bool) (centroid : Polygon → point)
    (sqrt : Qc → Qc) (line_is_valid : list point → bool)
    (line_repaired : list point → option (list point))
    (line_buffer : list point → Qc → list point) (line_length : list point → Qc)
    (fuel : nat) (entry_point : point) (assets : list asset)
    (property_boundary : Polygon) (exclusion_zones : list Polygon)
    (dem : option ndarray) (bounds : option (Qc * Qc * Qc * Qc)) (resolution : Qc)
    (network : network) :
  generate_road_network contains centroid sqrt line_is_valid line_repaired
    line_buffer line_length fuel entry_point assets property_boundary
    exclusion_zones dem bounds resolution = Done network →
  (length (roads network) ≤ length assets)%nat ∧
  total_length network = foldr Qcplus 0 (road_length <$> roads network) ∧
  Roads.entry_point network = entry_point ∧
  (roads network = [] ↔ is_Some (warning network)).
Proof. apply network_shape. Qed.

(** ** The shape of a path *)

Lemma nonneg_add a b :
  RoadsFacts.nonneg a → RoadsFacts.nonneg b → RoadsFacts.nonneg (weight_add a b).
Proof.
  destruct a as [x|], b as [y|]; simpl; try done. apply Qcplus_nonneg_nonneg.
Qed.

Lemma not_below_zero t : RoadsFacts.nonneg t → weight_ltb t (Finite 0) = false.
Proof.
  destruct t as [x|]; simpl; [|done]. intros Hx.
  apply bool_decide_false. by apply Qcle_not_lt.
Qed.

(** The points passed when the back-pointers are followed from a point. *)
Inductive trail (came_from : gmap point point) : point → list point → Prop :=
  | trail_root n : came_from !! n = None → trail came_from n []
  | trail_step n p l :
      came_from !! n = Some p → trail came_from p l → trail came_from n (p :: l).

Lemma reconstruct_trail fuel : ∀ came_from current path result,
  reconstruct fuel came_from current path = Done result →
  ∃ l, trail came_from current l ∧ result = reverse l ++ reverse path.
Proof.
  induction fuel as [|fuel IH]; intros came_from current path result; [done|].
  simpl. destruct (came_from !! current) as [previous|] eqn:Hcf.
  - intros Hrun. apply IH in Hrun as (l & Hl & ->).
    exists (previous :: l). split; [by apply trail_step|].
    by rewrite reverse_snoc, reverse_cons, <-app_assoc.
  - intros [= <-]. exists []. split; [by apply trail_root|done].
Qed.

(** Every two neighbours of a list are related. *)
Definition adjacent (R : point → point → Prop) (w : list point) : Prop :=
  ∀ i a b, w !! i = Some a → w !! S i = Some b → R a b.

Lemma adjacent_snoc (R : point → point → Prop) w p n :
  adjacent R (w ++ [p]) → R p n → adjacent R ((w ++ [p]) ++ [n]).
Proof.
  intros Hw Hpn i a b Ha Hb.
  destruct (decide (S i < length (w ++ [p]))%nat) as [Hlt|Hge].
  - rewrite lookup_app_l in Ha by lia. rewrite lookup_app_l in Hb by lia.
    by apply (Hw i).
  - rewrite lookup_app_r in Hb by lia.
    assert (S i = length (w ++ [p])) as Hi.
    { apply lookup_lt_Some in Hb. simpl in Hb. lia. }
    rewrite Hi, Nat.sub_diag in Hb. injection Hb as <-.
    rewrite length_app in Hi. simpl in Hi.
    rewrite lookup_app_l in Ha by (rewrite length_app; simpl; lia).
    rewrite lookup_app_r in Ha by lia.
    replace (i - length w)%nat with 0%nat in Ha by lia. by injection Ha as <-.
Qed.

Section Paths.
Context {Polygon : Type}.
Variable contains : Polygon → point → bool.
Variable sqrt : Qc → Qc.
Hypothesis sqrt_nonneg : ∀ q, 0 <= sqrt q.
Variable property_boundary : Polygon.
Variable exclusion_zones : list Polygon.
Variable dem : option ndarray.
Variable bounds : option (Qc * Qc * Qc * Qc).
Variable resolution : Qc.
Variable start goal : point.

#[local] Abbreviation relax :=
  (relax contains sqrt property_boundary exclusion_zones dem bounds resolution goal).
#[local] Abbreviation loop_body :=
  (loop_body contains sqrt property_boundary exclusion_zones dem bounds resolution goal).
#[local] Abbreviation search :=
  (search contains sqrt property_boundary exclusion_zones dem bounds resolution goal).
#[local] Abbreviation invariant := (RoadsFacts.invariant sqrt resolution goal).

(** One step on the grid, in one of the eight directions. *)
Definition grid_step (a b : point) : Prop :=
  ∃ d, d ∈ offsets resolution ∧ b = (a.1 + d.1, a.2 + d.2).

(** A step of the search: a grid step that ends inside the boundary. *)
Definition search_step (a b : point) : Prop :=
  grid_step a b ∧ contains property_boundary b = true.

(** What the back-pointers record. *)
Record linked (s : state) : Prop := Linked {
  link_start : came_from s !! start = None;
  link_zero : g_score s !! start = Some (Finite 0);
  link_nonneg : ∀ n g, g_score s !! n = Some g → RoadsFacts.nonneg g;
  link_step : ∀ n p, came_from s !! n = Some p →
    search_step p n ∧ is_Some (g_score s !! p);
  link_origin : ∀ n, is_Some (g_score s !! n) → n = start ∨ is_Some (came_from s !! n)
}.

Lemma initial_linked : linked (initial sqrt start goal).
Proof using Type.
  split; simpl.
  - apply lookup_empty.
  - apply lookup_singleton_eq.
  - intros n g [-> <-]%lookup_singleton_Some. simpl. done.
  - intros n p. by rewrite lookup_empty.
  - intros n [g [-> _]%lookup_singleton_Some]. by left.
Qed.

Lemma relax_linked current d s s' :
  d ∈ offsets resolution → is_Some (g_score s !! current) → linked s →
  relax current d s = Some s' → linked s'.
Proof using sqrt_nonneg.
  intros Hd [gc Hgc] Hl. unfold Roads.relax.
  set (neighbor := (current.1 + d.1, current.2 + d.2)).
  destruct (contains property_boundary neighbor) eqn:Hin; simpl;
    [|by intros [= <-]].
  rewrite Hgc. simpl.
  destruct (RoadsFacts.cost_nonneg contains sqrt sqrt_nonneg exclusion_zones dem
              bounds resolution current neighbor
              (RoadsFacts.offsets_resolution resolution d Hd)) as (w & -> & Hw).
  simpl. set (t := weight_add gc w).
  assert (RoadsFacts.nonneg t) as Ht.
  { apply nonneg_add; [|done]. by apply (link_nonneg s Hl current). }
  assert (weight_ltb t (Finite 0) = false) as Hlow by (by apply not_below_zero).
  assert (match g_score s !! neighbor with
          | Some g_neighbor => weight_ltb t g_neighbor
          | None => true
          end = true → neighbor ≠ start) as Hne.
  { intros Hbetter Heq.
    assert (g_score s !! neighbor = Some (Finite 0)) as Hgn.
    { rewrite Heq. apply (link_zero s Hl). }
    rewrite Hgn in Hbetter. congruence. }
  destruct (match g_score s !! neighbor with
            | Some g_neighbor => weight_ltb t g_neighbor
            | None => true
            end); [|by intros [= <-]].
  specialize (Hne eq_refl). intros [= <-].
  destruct Hl as [Hstart Hzero Hnonneg Hstep Horigin]. split; simpl.
  - by rewrite lookup_insert_ne.
  - by rewrite lookup_insert_ne.
  - intros n g. destruct (decide (neighbor = n)) as [<-|Hn].
    + rewrite lookup_insert_eq. by intros [= <-].
    + rewrite lookup_insert_ne by done. apply Hnonneg.
  - intros n p. destruct (decide (neighbor = n)) as [<-|Hn].
    + rewrite lookup_insert_eq. intros [= <-]. split.
      * split; [by exists d|done].
      * apply lookup_insert_is_Some'. right. by eexists.
    + rewrite lookup_insert_ne by done. intros Hnp.
      destruct (Hstep n p Hnp) as [Hs Hg]. split; [done|].
      apply lookup_insert_is_Some'. by right.
  - intros n. destruct (decide (neighbor = n)) as [<-|Hn].
    + intros _. right. rewrite lookup_insert_eq. by eexists.
    + rewrite !lookup_insert_ne by done. apply Horigin.
Qed.

Lemma loop_body_linked s :
  invariant s → linked s → open_set s ≠ [] →
  match loop_body s with
  | Continue s' => linked s'
  | Reached current s' => linked s' ∧ is_Some (g_score s' !! current)
  | Error => True
  end.
Proof using sqrt_nonneg.
  intros Hinv Hl Hopen. unfold Roads.loop_body.
  destruct (RoadsFacts.heappop_Some (open_set s) Hopen)
    as [[[current_f current] rest] Hpop].
  rewrite Hpop. destruct (RoadsFacts.heappop_elem _ _ _ Hpop) as [Hin Hrest].
  assert (is_Some (g_score s !! current)) as Hcur.
  { by apply (RoadsFacts.inv_open _ _ _ _ Hinv _ Hin). }
  assert (∀ open visited iterations,
            linked (State open (came_from s) (g_score s) (f_score s) visited
                          iterations)) as Hsame.
  { intros. by destruct Hl. }
  case_bool_decide as Hseen; [apply Hsame|].
  case_bool_decide as Hgoal; [by split|].
  set (s1 := State rest (came_from s) (g_score s) (f_score s)
                   ({[current]} ∪ visited s) (iterations s + 1)).
  assert (invariant s1) as Hinv1.
  { destruct Hinv as [Hop Hscores Hrooted Hvisited]. split; simpl; try done.
    - intros e He. by apply Hop, Hrest.
    - intros n [->%elem_of_singleton|Hn]%elem_of_union; [done|by apply Hvisited]. }
  destruct (PyFacts.for_each_invariant
              (λ s', invariant s' ∧ linked s' ∧ is_Some (g_score s' !! current))
              (offsets resolution) (relax current) s1) as (s' & -> & _ & Hl' & _).
  - intros d s' Hd (Hi & Hl' & Hc).
    destruct (RoadsFacts.relax_invariant contains sqrt sqrt_nonneg property_boundary
                exclusion_zones dem bounds resolution goal current d s' Hd Hc Hi)
      as (s'' & Hrelax & Hi'' & Hc'' & _).
    exists s''. split; [done|]. split; [done|]. split; [|done].
    by apply (relax_linked current d s').
  - split; [done|]. split; [apply Hsame|done].
  - done.
Qed.

Lemma search_linked fuel : ∀ s current s',
  invariant s → linked s →
  search fuel s = Done (GoalReached current s') →
  linked s' ∧ is_Some (g_score s' !! current) ∧
  heuristic sqrt current goal < goal_threshold resolution.
Proof using sqrt_nonneg.
  induction fuel as [|fuel IH]; intros s current s' Hinv Hl; [done|]. simpl.
  destruct (open_set s) as [|e l] eqn:Hopen; [done|].
  case_bool_decide; [|done].
  pose proof (RoadsFacts.loop_body_invariant contains sqrt sqrt_nonneg
                property_boundary exclusion_zones dem bounds resolution goal s Hinv)
    as Hbody.
  pose proof (loop_body_linked s Hinv Hl) as Hbody'.
  rewrite Hopen in Hbody, Hbody'.
  specialize (Hbody ltac:(done)). specialize (Hbody' ltac:(done)).
  destruct (loop_body s) as [s1|reached s1|]; [| |done].
  - destruct Hbody as [Hinv1 _]. by apply IH.
  - intros [= <- <-]. destruct Hbody as (_ & Hgoal & _), Hbody' as [Hl1 Hg].
    done.
Qed.

(** Followed backwards from a point that has a score, the back-pointers
    lead to the start, by steps of the search. *)
Lemma trail_walk s n l :
  linked s → is_Some (g_score s !! n) → trail (came_from s) n l →
  head (reverse l ++ [n]) = Some start ∧ adjacent search_step (reverse l ++ [n]).
Proof using Type.
  intros Hl Hg Htrail. induction Htrail as [n Hn|n p l Hn _ IH].
  - destruct (link_origin s Hl n Hg) as [->|[? ?]]; [|congruence].
    split; [done|]. intros i a b Ha Hb. by destruct i.
  - destruct (link_step s Hl n p Hn) as [Hstep Hgp].
    destruct (IH Hgp) as [Hhead Hadj]. rewrite reverse_cons. split.
    + destruct (reverse l ++ [p]) as [|x w] eqn:Hw; [|done].
      by destruct (reverse l).
    + by apply adjacent_snoc.
Qed.

End Paths.

Section Finder.
Context {Polygon : Type}.
Variable contains : Polygon → point → bool.
Variable centroid : Polygon → point.
Variable sqrt : Qc → Qc.
Hypothesis sqrt_nonneg : ∀ q, 0 <= sqrt q.

Lemma a_star_path fuel start goal property_boundary exclusion_zones dem bounds
    resolution path :
  a_star_pathfinding contains centroid sqrt fuel start goal property_boundary
    exclusion_zones dem bounds resolution = Done (Some path) →
  ∃ current body,
    path = body ++ [snap contains centroid property_boundary goal] ∧
    heuristic sqrt current (snap contains centroid property_boundary goal)
      < goal_threshold resolution ∧
    head (body ++ [current]) = Some (snap contains centroid property_boundary start) ∧
    adjacent (search_step contains property_boundary resolution) (body ++ [current]).
Proof using sqrt_nonneg.
  unfold a_star_pathfinding.
  set (start' := snap contains centroid property_boundary start).
  set (goal' := snap contains centroid property_boundary goal).
  destruct (search _ _ _ _ _ _ _ _ _ _) as [[current s|s]| |] eqn:Hsearch; [|done..].
  destruct (reconstruct fuel (came_from s) current [goal']) as [result| |] eqn:Hrec;
    [|done..].
  intros [= <-].
  apply (search_linked contains sqrt sqrt_nonneg property_boundary exclusion_zones
           dem bounds resolution start' goal') in Hsearch as (Hl & Hg & Hgoal).
  2:{ apply RoadsFacts.initial_invariant. }
  2:{ apply initial_linked. }
  apply reconstruct_trail in Hrec as (l & Htrail & ->).
  destruct (trail_walk contains property_boundary resolution start' s current l
              Hl Hg Htrail) as [Hhead Hadj].
  exists current, (reverse l). by rewrite reverse_singleton.
Qed.

(** A goal within the tolerance of the start: the first node taken from
    the queue ends the search, and the path is the goal alone. *)
Lemma a_star_near fuel start goal property_boundary exclusion_zones dem bounds
    resolution :
  heuristic sqrt (snap contains centroid property_boundary start)
    (snap contains centroid property_boundary goal) < goal_threshold resolution →
  a_star_pathfinding contains centroid sqrt (S fuel) start goal property_boundary
    exclusion_zones dem bounds resolution
  = Done (Some [snap contains centroid property_boundary goal]).
Proof using Type.
  intros Hnear. unfold a_star_pathfinding.
  set (start' := snap contains centroid property_boundary start) in *.
  set (goal' := snap contains centroid property_boundary goal) in *.
  unfold initial. cbn [search open_set iterations].
  rewrite bool_decide_true by (unfold max_iterations; lia).
  unfold loop_body.
  cbn [heappop least remove_first open_set visited came_from g_score f_score
       iterations].
  rewrite (bool_decide_true (_ = _)) by done.
  rewrite (bool_decide_false (_ ∈ _)) by apply not_elem_of_empty.
  rewrite bool_decide_true by done.
  cbn [reconstruct came_from]. by rewrite lookup_empty.
Qed.

End Finder.

(** X29. A path returned by [a_star_pathfinding] ends in the goal (moved
    to the centroid if it lay outside the boundary).  The points before it
    are the grid walk of the search without its last node: the walk begins
    at the start (moved likewise), goes by steps of one grid cell in one of
    the eight directions, each into a point inside the boundary, and ends
    in a node within the tolerance of the goal, which the path leaves out. *)
Theorem path_follows_the_grid {Polygon : Type}
    (contains : Polygon → point → bool) (centroid : Polygon → point)
    (sqrt : Qc → Qc) (fuel : nat) (start goal : point) (property_boundary : Polygon)
    (exclusion_zones : list Polygon) (dem : option ndarray)
    (bounds : option (Qc * Qc * Qc * Qc)) (resolution : Qc) (path : list point) :
  (∀ q, 0 <= sqrt q) →
  a_star_pathfinding contains centroid sqrt fuel start goal property_boundary
    exclusion_zones dem bounds resolution = Done (Some path) →
  ∃ current body,
    path = body ++ [snap contains centroid property_boundary goal] ∧
    heuristic sqrt current (snap contains centroid property_boundary goal)
      < goal_threshold resolution ∧
    head (body ++ [current]) = Some (snap contains centroid property_boundary start) ∧
    adjacent (search_step contains property_boundary resolution) (body ++ [current]).
Proof. intros Hsqrt. by apply a_star_path. Qed.

(** X30. An asset within the tolerance of the entry gets no road: the
    search ends at its first node, the path consists of the goal alone,
    and a segment with fewer than two points is skipped when the roads are
    built.  With one such asset the network is empty and carries the
    warning. *)
Theorem asset_near_entry_gets_no_road {Polygon : Type}
    (contains : Polygon → point → bool) (centroid : Polygon → point)
    (sqrt : Qc → Qc) (line_is_valid : list point → bool)
    (line_repaired : list point → option (list point))
    (line_buffer : list point → Qc → list point) (line_length : list point → Qc)
    (fuel : nat) (entry_point : point) (asset : asset)
    (property_boundary : Polygon) (exclusion_zones : list Polygon)
    (dem : option ndarray) (bounds : option (Qc * Qc * Qc * Qc)) (resolution : Qc) :
  heuristic sqrt (snap contains centroid property_boundary entry_point)
    (snap contains centroid property_boundary (asset_x asset, asset_y asset))
    < goal_threshold resolution →
  a_star_pathfinding contains centroid sqrt (S fuel) entry_point
    (asset_x asset, asset_y asset) property_boundary exclusion_zones dem bounds
    resolution
  = Done (Some [snap contains centroid property_boundary (asset_x asset, asset_y asset)])
  ∧
  generate_road_network contains centroid sqrt line_is_valid line_repaired
    line_buffer line_length (S fuel) entry_point [asset] property_boundary
    exclusion_zones dem bounds resolution
  = Done (Network [] 0 entry_point
            (Some "No roads could be generated. Check that entry point and assets are within property boundary.")).
Proof.
  intros Hnear.
  pose proof (a_star_near contains centroid sqrt fuel entry_point
                (asset_x asset, asset_y asset) property_boundary exclusion_zones
                dem bounds resolution Hnear) as Hpath.
  split; [done|].
  unfold generate_road_network. cbn [find_paths]. rewrite Hpath.
  cbn [_optimize_road_network dedup app segment_path].
  rewrite bool_decide_false by apply not_elem_of_nil.
  cbn [omap list_omap]. unfold build_road. cbn [segment_path length].
  rewrite bool_decide_true by lia. done.
Qed.

End RoadsLaws.

Module RoadsLawsExamples.
Import Roads RoadsLaws QcBoxes.
#[local] Open Scope Qc_scope.

Lemma network_summary_witness :
  ∃ network,
    generate_road_network contains centroid sqrt line_is_valid line_repaired
      line_buffer line_length 100 centre [north; east] unit_square []
      None None coarse = Done network ∧
    (length (roads network) ≤ 2)%nat ∧
    total_length network = foldr Qcplus 0 (road_length <$> roads network) ∧
    Roads.entry_point network = centre ∧
    (roads network = [] ↔ is_Some (warning network)).
Proof.
  eexists. split; [vm_compute; reflexivity|].
  apply (network_summary contains centroid sqrt line_is_valid line_repaired
           line_buffer line_length 100 centre [north; east] unit_square []
           None None coarse).
  vm_compute. reflexivity.
Defined.

Lemma path_follows_the_grid_witness :
  ∃ path,
    a_star_pathfinding contains centroid sqrt 100 centre
      (asset_x north, asset_y north) unit_square [] None None coarse
      = Done (Some path) ∧
    ∃ current body,
      path = body ++ [snap contains centroid unit_square (asset_x north, asset_y north)] ∧
      heuristic sqrt current
        (snap contains centroid unit_square (asset_x north, asset_y north))
        < goal_threshold coarse ∧
      head (body ++ [current]) = Some (snap contains centroid unit_square centre) ∧
      adjacent (search_step contains unit_square coarse) (body ++ [current]).
Proof.
  eexists. split; [vm_compute; reflexivity|].
  apply (path_follows_the_grid contains centroid sqrt 100 centre
           (asset_x north, asset_y north) unit_square [] None None coarse).
  - exact sqrt_nonneg.
  - vm_compute. reflexivity.
Defined.

(** An asset a tenth of a degree east of the entry, with a grid step of a
    tenth of a degree. *)
Definition neighbour : asset := Asset (Some "near") (Q2Qc (6 # 10)) (Q2Qc (1 # 2)).

Lemma asset_near_entry_gets_no_road_witness :
  a_star_pathfinding contains centroid sqrt 1 centre
    (asset_x neighbour, asset_y neighbour) unit_square [] None None coarse
  = Done (Some [snap contains centroid unit_square (asset_x neighbour, asset_y neighbour)])
  ∧
  generate_road_network contains centroid sqrt line_is_valid line_repaired
    line_buffer line_length 1 centre [neighbour] unit_square [] None None coarse
  = Done (Network [] 0 centre
            (Some "No roads could be generated. Check that entry point and assets are within property boundary.")).
Proof.
  apply (asset_near_entry_gets_no_road contains centroid sqrt line_is_valid
           line_repaired line_buffer line_length 0 centre neighbour unit_square []
           None None coarse).
  by vm_compute.
Defined.

End RoadsLawsExamples.
